(** * BitOQSim: quantum gate algebra and the Shor factoring orchestrator

    A shallow embedding of
      - [src/QuantumCircuitMatrix.py]  (class [QuantumCircuitMatrix]) and
      - [CompletedExamples/ShorFactoringAlgorithm.py] (class
        [ShorFactoringAlgorithm])
    together with the properties stated about them.

    Conventions of the embedding.
      - Python exceptions are values of [exn]; a call that may raise returns
        a [result].
      - numpy numbers (int, float64, complex128) are embedded in the exact
        field Q(sqrt 2, i), which contains every entry the modelled gates
        use; rounding of float64 is not modelled.
      - numpy arrays are lists (1-D) and lists of rows (2-D).
      - the working cofactor and the powers of the factorization loop,
        floats in Python, are exact integers and rationals here; only the
        overflow of a power is kept, as the [OverflowError] Python raises.
      - a [while] loop is run for a bounded number of passes ([fuel]); that
        the bound is not what stops it is proved for each loop that exits,
        and a loop that never exits runs out of every bound. *)

From Stdlib Require Import String Ascii ZArith QArith List Bool Lia.
From Stdlib Require Import Permutation Sorting.Sorted Znumtheory.
Import ListNotations.
Local Open Scope Z_scope.

(* ================================================================= *)
(** ** Exceptions and results *)

Inductive exn : Type :=
| ValueError
| TypeError
| IndexError
| OverflowError
| RecursionError.

Inductive result (A : Type) : Type :=
| Ok (a : A)
| Raise (e : exn).

Arguments Ok {A} a.
Arguments Raise {A} e.

Definition rbind {A B : Type} (c : result A) (k : A -> result B) : result B :=
  match c with
  | Ok a => k a
  | Raise e => Raise e
  end.

Declare Scope result_scope.
Delimit Scope result_scope with result.
Notation "x <- c ;; k" := (rbind c (fun x => k))
  (at level 61, c at next level, right associativity) : result_scope.
Local Open Scope result_scope.

Definition exn_eqb (a b : exn) : bool :=
  match a, b with
  | ValueError, ValueError
  | TypeError, TypeError
  | IndexError, IndexError
  | OverflowError, OverflowError
  | RecursionError, RecursionError => true
  | _, _ => false
  end.

(* ================================================================= *)
(** ** Numbers: the field Q(sqrt 2, i), kept in lowest terms *)

Module Num.

(** [(re1 + re2 * sqrt 2) + (im1 + im2 * sqrt 2) * i] *)
Record cnum : Type := mkC { re1 : Q; re2 : Q; im1 : Q; im2 : Q }.

Definition cnorm (x : cnum) : cnum :=
  mkC (Qred (re1 x)) (Qred (re2 x)) (Qred (im1 x)) (Qred (im2 x)).

Definition of_Z (z : Z) : cnum := mkC (inject_Z z) 0 0 0.
Definition c0 : cnum := of_Z 0.
Definition c1 : cnum := of_Z 1.
(** Python's [1j] *)
Definition cj : cnum := mkC 0 0 1 0.
(** [np.sqrt(2)] *)
Definition sqrt2 : cnum := mkC 0 1 0 0.

Definition cadd (x y : cnum) : cnum :=
  cnorm (mkC (re1 x + re1 y) (re2 x + re2 y) (im1 x + im1 y) (im2 x + im2 y))%Q.

Definition copp (x : cnum) : cnum :=
  cnorm (mkC (- re1 x) (- re2 x) (- im1 x) (- im2 x))%Q.

Definition csub (x y : cnum) : cnum :=
  cnorm (mkC (re1 x - re1 y) (re2 x - re2 y) (im1 x - im1 y) (im2 x - im2 y))%Q.

Definition cmul (x y : cnum) : cnum :=
  let '(mkC a1 a2 b1 b2) := x in
  let '(mkC u1 u2 v1 v2) := y in
  cnorm (mkC
    (a1 * u1 + 2 * a2 * u2 - (b1 * v1 + 2 * b2 * v2))
    (a1 * u2 + a2 * u1 - (b1 * v2 + b2 * v1))
    (a1 * v1 + 2 * a2 * v2 + (b1 * u1 + 2 * b2 * u2))
    (a1 * v2 + a2 * v1 + (b1 * u2 + b2 * u1)))%Q.

(** Inverse: [1/(A + B i) = (A - B i)/(A^2 + B^2)] with [A], [B] in
    Q(sqrt 2), and [1/(p + q sqrt 2) = (p - q sqrt 2)/(p^2 - 2 q^2)].
    The inverse of zero is zero, as for [Qinv]. *)
Definition cinv (x : cnum) : cnum :=
  let '(mkC a1 a2 b1 b2) := x in
  let p := (a1 * a1 + 2 * a2 * a2 + b1 * b1 + 2 * b2 * b2)%Q in
  let q := (2 * a1 * a2 + 2 * b1 * b2)%Q in
  let d := (/ (p * p - 2 * q * q))%Q in
  cmul (mkC a1 a2 (- b1) (- b2))%Q (mkC (p * d) (- q * d) 0 0)%Q.

Definition cdiv (x y : cnum) : cnum := cmul x (cinv y).

Definition Q_eqb (a b : Q) : bool :=
  let a' := Qred a in
  let b' := Qred b in
  (Qnum a' =? Qnum b')%Z && (Qden a' =? Qden b')%positive.

Definition ceqb (x y : cnum) : bool :=
  Q_eqb (re1 x) (re1 y) && Q_eqb (re2 x) (re2 y) &&
  Q_eqb (im1 x) (im1 y) && Q_eqb (im2 x) (im2 y).

End Num.
Import Num.

(* ================================================================= *)
(** ** numpy arrays *)

Inductive ndarray : Type :=
| Arr1 (v : list cnum)
| Arr2 (m : list (list cnum)).

(** A Python value held by a variable that is either an [int] or an
    [np.ndarray] (the accumulators [bra = 1], [ket = 1]; the start value
    [0] of the builtin [sum]). *)
Inductive pyval : Type :=
| PInt (z : Z)
| PArr (a : ndarray).

Module Np.

Definition nrows (m : list (list cnum)) : nat := length m.
Definition ncols (m : list (list cnum)) : nat := length (hd [] m).

(** [a.shape] *)
Definition shape (a : ndarray) : list nat :=
  match a with
  | Arr1 v => [length v]
  | Arr2 m => [nrows m; ncols m]
  end.

(** Rectangular [r] x [c] list of rows. *)
Definition wf (r c : nat) (m : list (list cnum)) : Prop :=
  length m = r /\ Forall (fun row => length row = c) m.

(** The matrix whose [(i, j)] entry is [f i j]. *)
Definition mk_mat (r c : nat) (f : nat -> nat -> cnum) : list (list cnum) :=
  map (fun i => map (fun j => f i j) (seq 0 c)) (seq 0 r).

Definition get (m : list (list cnum)) (i j : nat) : cnum :=
  nth j (nth i m []) c0.

(** [np.zeros([r, c])] *)
Definition zeros2 (r c : nat) : list (list cnum) := repeat (repeat c0 c) r.

(** [np.identity(n)] *)
Definition identity_rows (n : nat) : list (list cnum) :=
  mk_mat n n (fun i j => if Nat.eqb i j then c1 else c0).

Definition identity (n : nat) : ndarray := Arr2 (identity_rows n).

(** The rows of an array seen as 2-D ([np.atleast_2d]). *)
Definition rows2 (a : ndarray) : list (list cnum) :=
  match a with
  | Arr1 v => [v]
  | Arr2 m => m
  end.

(** [a.T] *)
Fixpoint transpose_rows (c : nat) (m : list (list cnum)) : list (list cnum) :=
  match c with
  | O => []
  | S c' => map (fun row => hd c0 row) m
            :: transpose_rows c' (map (fun row => tl row) m)
  end.

Definition transpose (a : ndarray) : ndarray :=
  match a with
  | Arr1 v => Arr1 v
  | Arr2 m => Arr2 (transpose_rows (ncols m) m)
  end.

(** Kronecker product of two 1-D arrays. *)
Definition kron1 (a b : list cnum) : list cnum :=
  flat_map (fun x => map (cmul x) b) a.

(** Kronecker product of two 2-D arrays: block [(i, j)] is [a[i][j] * b]. *)
Definition kron2 (a b : list (list cnum)) : list (list cnum) :=
  flat_map (fun ra => map (fun rb => kron1 ra rb) b) a.

(** [np.kron(a, b)]: an operand of lower dimension gets a leading axis of
    length 1. *)
Definition kron (a b : ndarray) : ndarray :=
  match a, b with
  | Arr1 x, Arr1 y => Arr1 (kron1 x y)
  | Arr1 x, Arr2 y => Arr2 (kron2 [x] y)
  | Arr2 x, Arr1 y => Arr2 (kron2 x [y])
  | Arr2 x, Arr2 y => Arr2 (kron2 x y)
  end.

(** [a * s] for a scalar [s] on the right. *)
Definition scale_r (a : ndarray) (s : cnum) : ndarray :=
  match a with
  | Arr1 v => Arr1 (map (fun x => cmul x s) v)
  | Arr2 m => Arr2 (map (map (fun x => cmul x s)) m)
  end.

(** [s * a] for a scalar [s] on the left. *)
Definition scale_l (s : cnum) (a : ndarray) : ndarray :=
  match a with
  | Arr1 v => Arr1 (map (cmul s) v)
  | Arr2 m => Arr2 (map (map (cmul s)) m)
  end.

(** [a / s] for a scalar [s]. *)
Definition div_scalar (a : ndarray) (s : cnum) : ndarray :=
  match a with
  | Arr1 v => Arr1 (map (fun x => cdiv x s) v)
  | Arr2 m => Arr2 (map (map (fun x => cdiv x s)) m)
  end.

(** [np.kron(a, b)] when either operand may be a Python [int]: numpy
    multiplies by the scalar ([nda == 0 or ndb == 0]). *)
Definition kron_py (a b : pyval) : pyval :=
  match a, b with
  | PArr x, PArr y => PArr (kron x y)
  | PArr x, PInt z => PArr (scale_r x (of_Z z))
  | PInt z, PArr y => PArr (scale_l (of_Z z) y)
  | PInt z, PInt w => PInt (z * w)
  end.

Fixpoint zip_with (f : cnum -> cnum -> cnum) (a b : list cnum) : list cnum :=
  match a, b with
  | x :: a', y :: b' => f x y :: zip_with f a' b'
  | _, _ => []
  end.

Fixpoint zip_rows (f : cnum -> cnum -> cnum) (a b : list (list cnum))
  : list (list cnum) :=
  match a, b with
  | x :: a', y :: b' => zip_with f x y :: zip_rows f a' b'
  | _, _ => []
  end.

Definition shape_eqb (s t : list nat) : bool :=
  if list_eq_dec Nat.eq_dec s t then true else false.

(** Elementwise binary operation on two arrays of the same shape.  numpy
    raises [ValueError] when the shapes cannot be broadcast together; the
    modelled code only ever combines arrays of one shape, so broadcasting
    between different shapes is not modelled and reported as that error. *)
Definition elementwise (f : cnum -> cnum -> cnum) (a b : ndarray)
  : result ndarray :=
  match a, b with
  | Arr1 x, Arr1 y =>
      if shape_eqb (shape a) (shape b) then Ok (Arr1 (zip_with f x y))
      else Raise ValueError
  | Arr2 x, Arr2 y =>
      if shape_eqb (shape a) (shape b) then Ok (Arr2 (zip_rows f x y))
      else Raise ValueError
  | _, _ => Raise ValueError
  end.

(** [a + b] and [a - b] on arrays. *)
Definition add (a b : ndarray) : result ndarray := elementwise cadd a b.
Definition sub (a b : ndarray) : result ndarray := elementwise csub a b.

(** [x + y] where [x] may still be the Python [int] the accumulation started
    from. *)
Definition add_py (x : pyval) (b : ndarray) : result ndarray :=
  match x with
  | PInt z => Ok (match b with
                  | Arr1 v => Arr1 (map (cadd (of_Z z)) v)
                  | Arr2 m => Arr2 (map (map (cadd (of_Z z))) m)
                  end)
  | PArr a => add a b
  end.

End Np.

Module NpIndex.
Import Np.

(** Python indexing of an axis of length [n]: negative indices count from
    the end, anything else out of range raises [IndexError]. *)
Definition py_index (n : nat) (i : Z) : result nat :=
  if (0 <=? i) && (i <? Z.of_nat n) then Ok (Z.to_nat i)
  else if (- Z.of_nat n <=? i) && (i <? 0) then Ok (Z.to_nat (Z.of_nat n + i))
  else Raise IndexError.

Fixpoint upd {A : Type} (l : list A) (i : nat) (v : A) : list A :=
  match l, i with
  | [], _ => []
  | _ :: t, O => v :: t
  | x :: t, S i' => x :: upd t i' v
  end.

(** [m[i][j]] (also written [m[i, j]]) *)
Definition getitem (m : list (list cnum)) (i j : Z) : result cnum :=
  i' <- py_index (nrows m) i ;;
  j' <- py_index (length (nth i' m [])) j ;;
  Ok (get m i' j').

(** [m[i][j] = f(m[i][j])]: covers [=], [+=], [-=] and [*=]. *)
Definition setitem (m : list (list cnum)) (i j : Z) (f : cnum -> cnum)
  : result (list (list cnum)) :=
  i' <- py_index (nrows m) i ;;
  j' <- py_index (length (nth i' m [])) j ;;
  Ok (upd m i' (upd (nth i' m []) j' (f (get m i' j')))).

(** [np.diag(v)] for a 1-D [v]: the square matrix with [v] on its diagonal. *)
Definition diag1 (v : list cnum) : list (list cnum) :=
  mk_mat (length v) (length v) (fun i j => if Nat.eqb i j then nth i v c0 else c0).

(** [np.diag(m)] for a 2-D [m]: its main diagonal. *)
Definition diag2 (m : list (list cnum)) : list cnum :=
  map (fun i => get m i i) (seq 0 (Nat.min (nrows m) (ncols m))).

Definition diag (a : ndarray) : ndarray :=
  match a with
  | Arr1 v => Arr2 (diag1 v)
  | Arr2 m => Arr1 (diag2 m)
  end.

(** Sum of products of two equally long lists (float accumulation starts
    from [0.0]). *)
Definition inner (x y : list cnum) : cnum :=
  fold_left cadd (zip_with cmul x y) c0.

(** [np.dot(v, m)] for 1-D [v] and 2-D [m]. *)
Definition dot_vm (v : list cnum) (m : list (list cnum)) : result (list cnum) :=
  if Nat.eqb (length v) (nrows m)
  then Ok (map (inner v) (transpose_rows (ncols m) m))
  else Raise ValueError.

(** [np.dot(a, b)] for 2-D [a] and [b]. *)
Definition dot_mm (a b : list (list cnum)) : result (list (list cnum)) :=
  if Nat.eqb (ncols a) (nrows b)
  then Ok (map (fun row => map (inner row) (transpose_rows (ncols b) b)) a)
  else Raise ValueError.

(** [np.dot(a, b)] with a 2-D right operand, as the modelled code uses it. *)
Definition dot (a : ndarray) (b : list (list cnum)) : result ndarray :=
  match a with
  | Arr1 v => r <- dot_vm v b ;; Ok (Arr1 r)
  | Arr2 m => r <- dot_mm m b ;; Ok (Arr2 r)
  end.

End NpIndex.

(* ================================================================= *)
(** ** [QuantumCircuitMatrix] *)

(** A positional argument of [get_bra] / [get_ket]: an [int], an
    [np.ndarray], a [str], or any other object, of which only the outcome
    of [int(argv)] matters. *)
Inductive pyarg : Type :=
| AInt (z : Z)
| AArr (a : ndarray)
| AStr (s : string)
| AOther (as_int : result Z).

Module QuantumCircuitMatrix.
Import Np NpIndex.

(** [qubits_to_bits]: [2**numQubits] *)
Definition qubits_to_bits (numQubits : nat) : Z := 2 ^ Z.of_nat numQubits.

(** The loop [for argv in args: qubit_matrix[0, argv] = 1]. *)
Fixpoint set_row0 (m : list (list cnum)) (args : list Z)
  : result (list (list cnum)) :=
  match args with
  | [] => Ok m
  | argv :: rest => m' <- setitem m 0 argv (fun _ => c1) ;; set_row0 m' rest
  end.

(** [get_qubit_vector] with [numQubits] and its positional arguments *)
Definition get_qubit_vector (numQubits : nat) (args : list Z) : result ndarray :=
  let numBits := qubits_to_bits numQubits in
  let qubit_matrix := zeros2 1 (Z.to_nat numBits) in
  qubit_matrix <- set_row0 qubit_matrix args ;;
  qubit_matrix <- (if Nat.eqb (length args) 0
                   then setitem qubit_matrix 0 0 (fun _ => c1)
                   else Ok qubit_matrix) ;;
  Ok (transpose (Arr2 qubit_matrix)).

(** The loop [for argv in args: qubit_matrix[argv, argv] = 1]. *)
Fixpoint set_diag (m : list (list cnum)) (args : list Z)
  : result (list (list cnum)) :=
  match args with
  | [] => Ok m
  | argv :: rest => m' <- setitem m argv argv (fun _ => c1) ;; set_diag m' rest
  end.

(** [get_qubit_matrix] with [numQubits] and its positional arguments *)
Definition get_qubit_matrix (numQubits : nat) (args : list Z) : result ndarray :=
  let numBits := Z.to_nat (qubits_to_bits numQubits) in
  let qubit_matrix := zeros2 numBits numBits in
  qubit_matrix <- set_diag qubit_matrix args ;;
  qubit_matrix <- (if Nat.eqb (length args) 0
                   then setitem qubit_matrix 0 0 (fun _ => c1)
                   else Ok qubit_matrix) ;;
  Ok (Arr2 qubit_matrix).

(** The loop
    [num_qubits = 1; while qubits_to_bits(num_qubits) < argv: num_qubits += 1]
    run for at most [fuel] iterations. *)
Fixpoint grow_qubits (fuel : nat) (num_qubits : nat) (argv : Z) : nat :=
  match fuel with
  | O => num_qubits
  | S fuel' =>
      if qubits_to_bits num_qubits <? argv
      then grow_qubits fuel' (S num_qubits) argv
      else num_qubits
  end.

(** [isinstance(ket, int) and ket == 1] *)
Definition is_int_one (v : pyval) : bool :=
  match v with
  | PInt z => z =? 1
  | PArr _ => false
  end.

(** [get_bra] and [get_ket] are the same text up to the two primitive
    vectors they start from ([zero_bra], [one_bra] against [zero_ket],
    [one_ket]); the section is that text, over the primitives.  Where
    [get_ket] tests [isinstance(ket, int) and ket == 1], [get_bra] tests
    [not isinstance(bra, np.ndarray) and bra == 1]: the accumulator is only
    ever the [int] 1 or an array, so the two agree.  [show_errors] only
    prints and is left out. *)
Section BraKet.

Variables zero one : ndarray.

(** The branch [if isinstance(argv, int)]. *)
Definition from_int (argv : Z) (acc : pyval) : result pyval :=
  if argv =? 0 then Ok (kron_py (PArr zero) acc)
  else if argv =? 1 then Ok (kron_py (PArr one) acc)
  else
    let num_qubits := grow_qubits (Z.to_nat argv) 1 argv in
    v <- get_qubit_vector num_qubits [argv] ;;
    Ok (kron_py (PArr v) acc).

(** The loop [for argv in args[::-1]], run on the reversed argument list. *)
Fixpoint args_loop (rec : string -> result ndarray) (rev_args : list pyarg)
  (acc : pyval) : result pyval :=
  match rev_args with
  | [] => Ok acc
  | argv :: rest =>
      match argv with
      | AArr a => args_loop rec rest (kron_py (PArr a) acc)
      | AStr s =>
          tmp <- rec s ;;
          args_loop rec rest (kron_py (PArr tmp) acc)
      | AOther as_int =>
          match as_int with
          | Raise TypeError => args_loop rec rest acc
          | Raise e => Raise e
          | Ok z => acc' <- from_int z acc ;; args_loop rec rest acc'
          end
      | AInt z => acc' <- from_int z acc ;; args_loop rec rest acc'
      end
  end.

(** The loop [for q in qubit_string]. *)
Fixpoint string_loop (plus minus : ndarray) (qubit_string : string)
  (tmp : pyval) : result pyval :=
  match qubit_string with
  | EmptyString => Ok tmp
  | String q rest =>
      q_vec <- (if Ascii.eqb q "0" then Ok zero
                else if Ascii.eqb q "1" then Ok one
                else if Ascii.eqb q "+" then Ok plus
                else if Ascii.eqb q "-" then Ok minus
                else Raise ValueError) ;;
      string_loop plus minus rest (kron_py (PArr q_vec) tmp)
  end.

(** The body of [get_bra] / [get_ket]; [rec] is the function itself, called
    as [get_ket(qubit_string=argv)] for a [str] argument.  The accumulator
    is an [int] only while it is still the initial [1]. *)
Definition get_body (rec : string -> result ndarray) (args : list pyarg)
  (qubit_string : string) : result ndarray :=
  plus <- add (div_scalar zero sqrt2) (div_scalar one sqrt2) ;;
  minus <- sub (div_scalar zero sqrt2) (div_scalar one sqrt2) ;;
  acc <- (if negb (Nat.eqb (List.length args) 0)
          then args_loop rec (rev args) (PInt 1)
          else Ok (PInt 1)) ;;
  acc <- (if negb (Nat.eqb (String.length qubit_string) 0)
          then
            tmp <- string_loop plus minus qubit_string (PInt 1) ;;
            if is_int_one acc then Ok tmp else Ok (kron_py tmp acc)
          else Ok acc) ;;
  match acc with
  | PArr a => Ok a
  | PInt _ => Ok zero
  end.

(** The call [get_ket(qubit_string=argv)]: no positional argument, so the
    body never calls itself again. *)
Definition get_string (qubit_string : string) : result ndarray :=
  get_body (fun _ => Raise RecursionError) [] qubit_string.

Definition get_vec (args : list pyarg) (qubit_string : string) : result ndarray :=
  get_body get_string args qubit_string.

End BraKet.

Definition zero_bra : ndarray := Arr2 [[c1; c0]].
Definition one_bra : ndarray := Arr2 [[c0; c1]].
Definition zero_ket : ndarray := Arr2 [[c1]; [c0]].
Definition one_ket : ndarray := Arr2 [[c0]; [c1]].

(** [get_bra] with its positional arguments and its [qubit_string] *)
Definition get_bra (args : list pyarg) (qubit_string : string) : result ndarray :=
  get_vec zero_bra one_bra args qubit_string.

(** [get_ket] with its positional arguments and its [qubit_string] *)
Definition get_ket (args : list pyarg) (qubit_string : string) : result ndarray :=
  get_vec zero_ket one_ket args qubit_string.

(** The builtin [sum(l)]: [0 + l[0] + l[1] + ...]. *)
Fixpoint py_sum_from (acc : pyval) (l : list ndarray) : result pyval :=
  match l with
  | [] => Ok acc
  | x :: rest => s <- add_py acc x ;; py_sum_from (PArr s) rest
  end.

Definition py_sum (l : list ndarray) : result pyval := py_sum_from (PInt 0) l.

(** [identity_gate_helper(numQubits)].  The recursion bottoms out at
    [numQubits == 1] only: from [0] Python recurses until it raises
    [RecursionError]. *)
Fixpoint identity_gate_helper (numQubits : nat) : result (list ndarray) :=
  match numQubits with
  | O => Raise RecursionError
  | S n' =>
      k0 <- get_ket [AInt 0] "" ;;
      b0 <- get_bra [AInt 0] "" ;;
      let zero_prod := kron k0 b0 in
      k1 <- get_ket [AInt 1] "" ;;
      b1 <- get_bra [AInt 1] "" ;;
      let one_prod := kron k1 b1 in
      match n' with
      | O => Ok [zero_prod; one_prod]
      | S _ =>
          l <- identity_gate_helper n' ;;
          Ok (flat_map (fun q => [kron q zero_prod; kron q one_prod]) l)
      end
  end.

(** [identity_gate(numQubits)] *)
Definition identity_gate (numQubits : nat) : result pyval :=
  l <- identity_gate_helper numQubits ;;
  py_sum l.

Definition one_qubit_identity_gate : ndarray :=
  Arr2 [[c1; c0];
        [c0; c1]].

Definition two_qubit_identity_gate : ndarray :=
  Arr2 [[c1; c0; c0; c0];
        [c0; c1; c0; c0];
        [c0; c0; c1; c0];
        [c0; c0; c0; c1]].

(** [Pauli_X_Gate()] *)
Definition Pauli_X_Gate : result ndarray :=
  zero_bra <- get_bra [AInt 0] "" ;;
  one_bra <- get_bra [AInt 1] "" ;;
  zero_ket <- get_ket [AInt 0] "" ;;
  one_ket <- get_ket [AInt 1] "" ;;
  add (kron zero_bra one_ket) (kron zero_ket one_bra).

(** [Pauli_Y_Gate()] *)
Definition Pauli_Y_Gate : result ndarray :=
  zero_bra <- get_bra [AInt 0] "" ;;
  one_bra <- get_bra [AInt 1] "" ;;
  zero_ket <- get_ket [AInt 0] "" ;;
  one_ket <- get_ket [AInt 1] "" ;;
  d <- sub (kron one_ket zero_bra) (kron zero_ket one_bra) ;;
  Ok (scale_l cj d).

(** [Pauli_Z_Gate()] *)
Definition Pauli_Z_Gate : result ndarray :=
  zero_bra <- get_bra [AInt 0] "" ;;
  one_bra <- get_bra [AInt 1] "" ;;
  zero_ket <- get_ket [AInt 0] "" ;;
  one_ket <- get_ket [AInt 1] "" ;;
  sub (kron zero_ket zero_bra) (kron one_ket one_bra).

(** [CU_Gate(U)] *)
Definition CU_Gate (U : ndarray) : result ndarray :=
  b0 <- get_bra [AInt 0] "" ;;
  k0 <- get_ket [AInt 0] "" ;;
  let zero_prod := kron b0 k0 in
  b1 <- get_bra [AInt 1] "" ;;
  k1 <- get_ket [AInt 1] "" ;;
  let one_prod := kron b1 k1 in
  s <- add (kron zero_prod zero_prod) (kron zero_prod one_prod) ;;
  add s (kron one_prod U).

(** [CNOT_Gate()] *)
Definition CNOT_Gate : result ndarray :=
  Pauli_X_gate <- Pauli_X_Gate ;;
  CU_Gate Pauli_X_gate.

(** [CY_Gate()] *)
Definition CY_Gate : result ndarray :=
  Pauli_Y_gate <- Pauli_Y_Gate ;;
  CU_Gate Pauli_Y_gate.

(** [CZ_Gate()] *)
Definition CZ_Gate : result ndarray :=
  Pauli_Z_gate <- Pauli_Z_Gate ;;
  CU_Gate Pauli_Z_gate.

(** The class constants. *)
Definition Pauli_X_gate : ndarray :=
  Arr2 [[c0; c1];
        [c1; c0]].

Definition Pauli_Y_gate : ndarray :=
  Arr2 [[c0; copp cj];
        [cj; c0]].

Definition Pauli_Z_gate : ndarray :=
  Arr2 [[c1; c0];
        [c0; of_Z (-1)]].

Definition CNOT_gate : result ndarray :=
  add (kron (diag (Arr1 [c1; c0])) one_qubit_identity_gate)
      (kron (diag (Arr1 [c0; c1])) Pauli_X_gate).

Definition CY_gate : result ndarray :=
  add (kron (diag (Arr1 [c1; c0])) one_qubit_identity_gate)
      (kron (diag (Arr1 [c0; c1])) Pauli_Y_gate).

Definition CZ_gate : result ndarray :=
  add (kron (diag (Arr1 [c1; c0])) one_qubit_identity_gate)
      (kron (diag (Arr1 [c0; c1])) Pauli_Z_gate).

(** [Hadamard_Gate()] *)
Definition Hadamard_Gate : result ndarray :=
  zero_bra <- get_bra [AStr "0"] "" ;;
  one_bra <- get_bra [AStr "1"] "" ;;
  plus_ket <- get_ket [AStr "+"] "" ;;
  minus_ket <- get_ket [AStr "-"] "" ;;
  add (kron plus_ket zero_bra) (kron minus_ket one_bra).

Definition Hadamard_gate : ndarray :=
  div_scalar (Arr2 [[c1; c1];
                    [c1; of_Z (-1)]]) sqrt2.

Definition H1_gate : ndarray := kron Hadamard_gate one_qubit_identity_gate.

(** [Swap_Gate()] *)
Definition Swap_Gate : result ndarray :=
  zero_zero_bra <- get_bra [AStr "00"] "" ;;
  zero_one_bra <- get_bra [AStr "01"] "" ;;
  one_zero_bra <- get_bra [AStr "10"] "" ;;
  one_one_bra <- get_bra [AStr "11"] "" ;;
  zero_zero_ket <- get_ket [AStr "00"] "" ;;
  zero_one_ket <- get_ket [AStr "01"] "" ;;
  one_zero_ket <- get_ket [AStr "10"] "" ;;
  one_one_ket <- get_ket [AStr "11"] "" ;;
  s <- add (kron zero_zero_ket zero_zero_bra) (kron one_zero_ket zero_one_bra) ;;
  s <- add s (kron zero_one_ket one_zero_bra) ;;
  add s (kron one_one_ket one_one_bra).

Definition swap_gate : ndarray :=
  Arr2 [[c1; c0; c0; c0];
        [c0; c0; c1; c0];
        [c0; c1; c0; c0];
        [c0; c0; c0; c1]].

(** [identityGate(numQubits)] *)
Definition identityGate (numQubits : nat) : ndarray :=
  let numBits := qubits_to_bits numQubits in
  identity (Z.to_nat numBits).

(** [quantum_not_gate_matrix(numQubits)] *)
Fixpoint quantum_not_gate_matrix (numQubits : nat) : result ndarray :=
  match numQubits with
  | 0%nat => Ok (Arr1 [])
  | 1%nat => Ok Pauli_X_gate
  | 2%nat => CNOT_gate
  | S n' =>
      let left := kron (diag (Arr1 [c1; c0])) (identityGate n') in
      rec <- quantum_not_gate_matrix n' ;;
      add left (kron (diag (Arr1 [c0; c1])) rec)
  end.

(** [reverse_quantum_not_gate_matrix(numQubits)] *)
Definition reverse_quantum_not_gate_matrix (numQubits : nat) : result ndarray :=
  match numQubits with
  | 0%nat => Ok (Arr1 [])
  | 1%nat => Ok Pauli_X_gate
  | 2%nat =>
      add (kron (diag (Arr1 [c0; c1])) (identity 2))
          (kron (diag (Arr1 [c1; c0])) Pauli_X_gate)
  | S n' =>
      let left := kron (diag (Arr1 [c0; c1])) (identityGate n') in
      fwd <- quantum_not_gate_matrix n' ;;
      add left (kron (diag (Arr1 [c1; c0])) fwd)
  end.

(** The loop [for bits in range(n): swapped[bits] += qubits[bits][bits]]. *)
Fixpoint diag_loop (qubits : list (list cnum)) (idx : list nat)
  (swapped : list cnum) : result (list cnum) :=
  match idx with
  | [] => Ok swapped
  | bits :: rest =>
      x <- getitem qubits (Z.of_nat bits) (Z.of_nat bits) ;;
      diag_loop qubits rest (upd swapped bits (cadd (nth bits swapped c0) x))
  end.

(** [args[i]] on the tuple of positional arguments. *)
Definition arg_at (args : list Z) (i : nat) : result Z :=
  match nth_error args i with
  | Some z => Ok z
  | None => Raise IndexError
  end.

(** The loop [for argv in range(int(len(args)/2))] of [applied_swap_gate];
    [swapping_gate_matrix] is mutated across iterations. *)
Fixpoint swap_loop (args : list Z) (idx : list nat)
  (swapping_gate_matrix : list (list cnum)) (swapped : ndarray)
  : result ndarray :=
  match idx with
  | [] => Ok swapped
  | argv :: rest =>
      qubit_0 <- arg_at args argv ;;
      qubit_1 <- arg_at args (argv + 1) ;;
      a <- getitem swapping_gate_matrix (qubit_0 * 2 + 1) (qubit_0 * 2 + 1) ;;
      if negb (ceqb a c0) then
        b <- getitem swapping_gate_matrix (qubit_1 * 2) (qubit_1 * 2) ;;
        if negb (ceqb b c0) then
          m <- setitem swapping_gate_matrix (qubit_0 * 2 + 1) (qubit_0 * 2 + 1)
                 (fun x => csub x c1) ;;
          m <- setitem m (qubit_1 * 2) (qubit_1 * 2) (fun x => csub x c1) ;;
          m <- setitem m (qubit_0 * 2 + 1) (qubit_1 * 2) (fun x => cadd x c1) ;;
          m <- setitem m (qubit_1 * 2) (qubit_0 * 2 + 1) (fun x => cadd x c1) ;;
          swapped' <- dot swapped m ;;
          swap_loop args rest m swapped'
        else swap_loop args rest swapping_gate_matrix swapped
      else swap_loop args rest swapping_gate_matrix swapped
  end.

(** [applied_swap_gate(qubits, *args)]; [qubits.shape[1]] does not exist
    for a 1-D array. *)
Definition applied_swap_gate (qubits : ndarray) (args : list Z) : result ndarray :=
  match qubits with
  | Arr1 _ => Raise IndexError
  | Arr2 q =>
      let n := nrows q in
      let vector_start := Nat.eqb (ncols q) 1 in
      swapped <- (if vector_start then Ok qubits
                  else v <- diag_loop q (seq 0 n) (repeat c0 n) ;; Ok (Arr1 v)) ;;
      swapped <- (if Nat.eqb (length args) 0
                  then dot swapped
                         (kron2 (rows2 swap_gate)
                                (identity_rows (n / nrows (rows2 swap_gate))))
                  else swap_loop args (seq 0 (length args / 2))
                         (identity_rows n) swapped) ;;
      if vector_start then Ok swapped else Ok (diag swapped)
  end.

(** The loop
    [for i in range(numQubits): if m[2*i+1, 2*i+1] == 0: m[2*i, 2*i] = 1]. *)
Fixpoint fill_zero_diag (m : list (list cnum)) (idx : list nat)
  : result (list (list cnum)) :=
  match idx with
  | [] => Ok m
  | i :: rest =>
      x <- getitem m (2 * Z.of_nat i + 1) (2 * Z.of_nat i + 1) ;;
      m' <- (if ceqb x c0
             then setitem m (2 * Z.of_nat i) (2 * Z.of_nat i) (fun _ => c1)
             else Ok m) ;;
      fill_zero_diag m' rest
  end.

(** [get_zero_qubit_matrix] with [numQubits] and its positional arguments *)
Definition get_zero_qubit_matrix (numQubits : nat) (args : list Z) : result ndarray :=
  let qubit_matrix := zeros2 (numQubits * 2) (numQubits * 2) in
  qubit_matrix <- set_diag qubit_matrix args ;;
  qubit_matrix <- fill_zero_diag qubit_matrix (seq 0 numQubits) ;;
  qubit_matrix <- (if Nat.eqb (length args) 0
                   then setitem qubit_matrix 0 0 (fun _ => c1)
                   else Ok qubit_matrix) ;;
  Ok (Arr2 qubit_matrix).

(** The loop
    [for i in range(numQubits): if m[0, 2*i+1] == 0: m[0, 2*i] = 1]. *)
Fixpoint fill_zero_row (m : list (list cnum)) (idx : list nat)
  : result (list (list cnum)) :=
  match idx with
  | [] => Ok m
  | i :: rest =>
      x <- getitem m 0 (2 * Z.of_nat i + 1) ;;
      m' <- (if ceqb x c0
             then setitem m 0 (2 * Z.of_nat i) (fun _ => c1)
             else Ok m) ;;
      fill_zero_row m' rest
  end.

(** [get_zero_qubit_vector] with [numQubits] and its positional arguments *)
Definition get_zero_qubit_vector (numQubits : nat) (args : list Z) : result ndarray :=
  let qubit_matrix := zeros2 1 (numQubits * 2) in
  qubit_matrix <- set_row0 qubit_matrix args ;;
  qubit_matrix <- fill_zero_row qubit_matrix (seq 0 numQubits) ;;
  qubit_matrix <- (if Nat.eqb (length args) 0
                   then setitem qubit_matrix 0 0 (fun _ => c1)
                   else Ok qubit_matrix) ;;
  Ok (transpose (Arr2 qubit_matrix)).

(** [get_zero_ket_qubit_vector] with [numQubits] and its positional
    arguments *)
Definition get_zero_ket_qubit_vector (numQubits : nat) (args : list Z)
  : result ndarray :=
  let qubit_matrix := zeros2 1 (numQubits * 2) in
  qubit_matrix <- set_row0 qubit_matrix args ;;
  qubit_matrix <- (if Nat.eqb (length args) 0
                   then setitem qubit_matrix 0 0 (fun _ => c1)
                   else Ok qubit_matrix) ;;
  Ok (transpose (Arr2 qubit_matrix)).

(** [a.sum(axis=1)] of a 2-D array: the sum of each row. *)
Definition sum_axis1 (m : list (list cnum)) : list cnum :=
  map (fun row => fold_left cadd row c0) m.

(** [convert_matrix_to_vector(qubit_matrix)]; [shape[1]] does not exist for
    a 1-D array. *)
Definition convert_matrix_to_vector (qubit_matrix : ndarray) : result ndarray :=
  match qubit_matrix with
  | Arr1 _ => Raise IndexError
  | Arr2 m =>
      if Nat.eqb (ncols m) 1 then Ok qubit_matrix
      else
        let qubit_vector := sum_axis1 m in
        Ok (transpose (Arr2 [qubit_vector]))
  end.

(** The loop
    [for q in range(n): qubit_matrix[q][q] += qubit_vector[q][0]]. *)
Fixpoint vector_to_diag (qubit_vector qubit_matrix : list (list cnum))
  (idx : list nat) : result (list (list cnum)) :=
  match idx with
  | [] => Ok qubit_matrix
  | q :: rest =>
      x <- getitem qubit_vector (Z.of_nat q) 0 ;;
      m' <- setitem qubit_matrix (Z.of_nat q) (Z.of_nat q) (fun y => cadd y x) ;;
      vector_to_diag qubit_vector m' rest
  end.

(** [convert_vector_to_matrix(qubit_vector)] *)
Definition convert_vector_to_matrix (qubit_vector : ndarray) : result ndarray :=
  match qubit_vector with
  | Arr1 _ => Raise IndexError
  | Arr2 v =>
      if Nat.eqb (nrows v) (ncols v) then Ok qubit_vector
      else
        m <- vector_to_diag v (zeros2 (nrows v) (nrows v)) (seq 0 (nrows v)) ;;
        Ok (Arr2 m)
  end.

(** The loop [for i in range(numQubits*2): qubit_matrix[i][i] += 1]. *)
Fixpoint fill_ones (m : list (list cnum)) (idx : list nat)
  : result (list (list cnum)) :=
  match idx with
  | [] => Ok m
  | i :: rest =>
      m' <- setitem m (Z.of_nat i) (Z.of_nat i) (fun x => cadd x c1) ;;
      fill_ones m' rest
  end.

(** The loop
    [for argv in args: qubit_matrix[argv * 2 + 1, argv * 2 + 1] *= -1]. *)
Fixpoint flip_signs (m : list (list cnum)) (args : list Z)
  : result (list (list cnum)) :=
  match args with
  | [] => Ok m
  | argv :: rest =>
      m' <- setitem m (argv * 2 + 1) (argv * 2 + 1) (fun x => cmul x (of_Z (-1))) ;;
      flip_signs m' rest
  end.

(** [get_Hadamard_matrix] with [numQubits] and its positional arguments *)
Definition get_Hadamard_matrix (numQubits : nat) (args : list Z) : result ndarray :=
  let qubit_matrix := zeros2 (numQubits * 2) (numQubits * 2) in
  qubit_matrix <- fill_ones qubit_matrix (seq 0 (numQubits * 2)) ;;
  qubit_matrix <- flip_signs qubit_matrix args ;;
  Ok (div_scalar (Arr2 qubit_matrix) sqrt2).

(** [get_Hadamard_vector] with [numQubits] and its positional arguments *)
Definition get_Hadamard_vector (numQubits : nat) (args : list Z) : result ndarray :=
  m <- get_Hadamard_matrix numQubits args ;;
  convert_matrix_to_vector m.

End QuantumCircuitMatrix.

(* ================================================================= *)
(** ** Number-theory collaborators ([src.MiscFunctions.FactoringFunctions]) *)

Module FactorFuncs.

(** Modelled from the spec: [FactoringFunctions.gcd] is not among the
    sources; the spec gives it as the greatest common divisor,
    [gcd(x, y) -> int]. *)
Definition gcd (x y : Z) : Z := Z.gcd x y.

(** Modelled from the spec: [FactoringFunctions.isqrt] is not among the
    sources; the spec gives it as the integer square root, with
    [isqrt(x)^2 == x] the perfect-square test. *)
Definition isqrt (x : Z) : Z := Z.sqrt x.

(** The search of [period] below: the first exponent [r], counting up from
    [r], with [acc = base^r mod modulus] equal to [1]. *)
Fixpoint period_search (fuel : nat) (modulus base acc r : Z) : result Z :=
  match fuel with
  | O => Raise ValueError
  | S fuel' =>
      if acc =? 1 then Ok r
      else period_search fuel' modulus base ((acc * base) mod modulus) (r + 1)
  end.

(** Modelled from the spec: [FactoringFunctions.period] is not among the
    sources; the spec gives it as the classical period function
    [(modulus, base) -> period], the smallest [r >= 1] with
    [base^r = 1 (mod modulus)], which may raise a validation error for an
    invalid base (here: no such [r] up to [modulus]). *)
Definition period (modulus base : Z) : result Z :=
  period_search (Z.to_nat modulus) modulus base (base mod modulus) 1.

End FactorFuncs.

(* ================================================================= *)
(** ** [ShorFactoringAlgorithm] *)

Module ShorFactoringAlgorithm.
Import Np NpIndex.
Module qcm := QuantumCircuitMatrix.

(** *** The controlled modular-multiplication gates

    Calls into numpy and into [QuantumCircuitMatrix] are counted: a
    computation of type [W A] threads the number of matrix operations
    performed so far. *)

Definition W (A : Type) : Type := nat -> result A * nat.

Definition wret {A : Type} (a : A) : W A := fun n => (Ok a, n).

Definition wraise {A : Type} (e : exn) : W A := fun n => (Raise e, n).

Definition wbind {A B : Type} (c : W A) (k : A -> W B) : W B :=
  fun n =>
    match c n with
    | (Ok a, n') => k a n'
    | (Raise e, n') => (Raise e, n')
    end.

(** One matrix operation with outcome [r]. *)
Definition work {A : Type} (r : result A) : W A := fun n => (r, S n).

Declare Scope work_scope.
Delimit Scope work_scope with work.
Notation "x <~ c ;; k" := (wbind c (fun x => k))
  (at level 61, c at next level, right associativity) : work_scope.

(** [a in l] for integers. *)
Definition in_ints (a : Z) (l : list Z) : bool := existsb (Z.eqb a) l.

(** [a in l] when [l] holds results of true division. *)
Definition in_nums (a : Z) (l : list Q) : bool :=
  existsb (Qeq_bool (inject_Z a)) l.

(** [matrix_of_qubits = qcm.applied_swap_gate(matrix_of_qubits, i, j)] *)
Definition swap (m : ndarray) (i j : Z) : W ndarray :=
  work (qcm.applied_swap_gate m [i; j]).

(** [np.dot(np.kron(qcm.Pauli_X_gate, np.identity(int(m.shape[0] /
    qcm.Pauli_X_gate.shape[0]))), m)] *)
Definition apply_X (m : ndarray) : W ndarray :=
  (i <~ work (Ok (identity (nrows (rows2 m) / nrows (rows2 qcm.Pauli_X_gate)))) ;;
   k <~ work (Ok (kron qcm.Pauli_X_gate i)) ;;
   work (dot k (rows2 m)))%work.

(** The three swaps on qubits 0-1, 1-2, 2-3, and the reverse sequence. *)
Definition cycle_up (m : ndarray) : W ndarray :=
  (m <~ swap m 0 1 ;; m <~ swap m 1 2 ;; swap m 2 3)%work.

Definition cycle_down (m : ndarray) : W ndarray :=
  (m <~ swap m 2 3 ;; m <~ swap m 1 2 ;; swap m 0 1)%work.

Definition transpose_pairs (m : ndarray) : W ndarray :=
  (m <~ swap m 1 3 ;; swap m 0 2)%work.

(** One pass of the loop body of [c_amod15]. *)
Definition c_amod15_step (a : Z) (m : ndarray) : W ndarray :=
  (m <~ (if in_ints a [2; 13] then cycle_up m else wret m) ;;
   m <~ (if in_ints a [7; 8] then cycle_down m else wret m) ;;
   m <~ (if a =? 11 then transpose_pairs m else wret m) ;;
   if in_ints a [7; 11; 13] then apply_X m else wret m)%work.

(** [for iteration in range(power)] *)
Fixpoint repeat_step (step : ndarray -> W ndarray) (power : nat) (m : ndarray)
  : W ndarray :=
  match power with
  | O => wret m
  | S power' => (m' <~ step m ;; repeat_step step power' m')%work
  end.

(** [c_amod15(a, power)] *)
Definition c_amod15 (a power : Z) : W ndarray :=
  if negb (in_ints a [2; 7; 8; 11; 13]) then wraise ValueError
  else
    (matrix_of_qubits <~ work (qcm.get_qubit_matrix 4 []) ;;
     repeat_step (c_amod15_step a) (Z.to_nat power) matrix_of_qubits)%work.

(** [(b - 1) / 2]: true division, a float in Python. *)
Definition half_below (b : Z) : Q := (inject_Z (b - 1) / 2)%Q.

(** One pass of the loop body of [c_amodb]. *)
Definition c_amodb_step (a b : Z) (m : ndarray) : W ndarray :=
  (m <~ (if in_ints a [2; b - 2] then cycle_up m else wret m) ;;
   m <~ (if in_nums a [half_below b; (half_below b + 1)%Q]
         then cycle_down m else wret m) ;;
   m <~ (if a =? b - 4 then transpose_pairs m else wret m) ;;
   if in_nums a [half_below b; inject_Z (b - 4); inject_Z (b - 2)]
   then apply_X m else wret m)%work.

(** [c_amodb(a, power, b)] *)
Definition c_amodb (a power b : Z) : W ndarray :=
  if negb (in_nums a [inject_Z 2; half_below b; (half_below b + 1)%Q;
                      inject_Z (b - 4); inject_Z (b - 2)])
  then wraise ValueError
  else
    (matrix_of_qubits <~ work (qcm.get_qubit_matrix 4 []) ;;
     repeat_step (c_amodb_step a b) (Z.to_nat power) matrix_of_qubits)%work.

(** *** The factorization orchestrator *)

(** The accumulator of one run: the working cofactor [num], the list
    [factorization], and (ghost) the number of passes of the main loop
    started so far.  The cofactor is a float in Python once it has been
    divided; every division of the loop is exact, and the model keeps the
    exact integer. *)
Record acc : Type := mkAcc { num : Z; factorization : list Z; passes : nat }.

(** State and exceptions: a raise leaves the mutations made before it. *)
Definition M (A : Type) : Type := acc -> result A * acc.

Definition mret {A : Type} (a : A) : M A := fun s => (Ok a, s).

Definition mbind {A B : Type} (c : M A) (k : A -> M B) : M B :=
  fun s =>
    match c s with
    | (Ok a, s') => k a s'
    | (Raise e, s') => (Raise e, s')
    end.

Definition lift {A : Type} (r : result A) : M A := fun s => (r, s).

(** [try: c  except e: h] *)
Definition try_except {A : Type} (c : M A) (e : exn) (h : M A) : M A :=
  fun s =>
    match c s with
    | (Raise e', s') => if exn_eqb e e' then h s' else (Raise e', s')
    | ok => ok
    end.

Declare Scope acc_scope.
Delimit Scope acc_scope with acc.
Notation "x <== c ;; k" := (mbind c (fun x => k))
  (at level 61, c at next level, right associativity) : acc_scope.
Notation "c ;;; k" := (mbind c (fun _ => k))
  (at level 61, right associativity) : acc_scope.

Definition get_num : M Z := fun s => (Ok (num s), s).

(** [factorization.append(x)] *)
Definition append (x : Z) : M unit :=
  fun s => (Ok tt, mkAcc (num s) (factorization s ++ [x]) (passes s)).

(** [num /= d] *)
Definition div_num (d : Z) : M unit :=
  fun s => (Ok tt, mkAcc (num s / d) (factorization s) (passes s)).

Definition start_pass : M unit :=
  fun s => (Ok tt, mkAcc (num s) (factorization s) (S (passes s))).

(** [l.remove(x)]: drops the first occurrence. *)
Fixpoint remove_first (x : Z) (l : list Z) : list Z :=
  match l with
  | [] => []
  | y :: t => if y =? x then t else y :: remove_first x t
  end.

(** [while 1 in factorization: factorization.remove(1)], for at most
    [fuel] passes. *)
Fixpoint remove_ones (fuel : nat) (l : list Z) : list Z :=
  match fuel with
  | O => l
  | S fuel' =>
      if existsb (Z.eqb 1) l then remove_ones fuel' (remove_first 1 l) else l
  end.

Fixpoint insert_sorted (x : Z) (l : list Z) : list Z :=
  match l with
  | [] => [x]
  | y :: t => if x <=? y then x :: y :: t else y :: insert_sorted x t
  end.

(** The builtin [sorted] on integers. *)
Fixpoint sorted (l : list Z) : list Z :=
  match l with
  | [] => []
  | x :: t => insert_sorted x (sorted t)
  end.

(** The common tail of every exit:
    [while 1 in factorization: factorization.remove(1)]
    [return sorted(factorization)] *)
Definition finish : M (list Z) :=
  fun s =>
    let l := remove_ones (length (factorization s)) (factorization s) in
    (Ok (sorted l), mkAcc (num s) l (passes s)).

(** [randint(lo, hi)]: [ValueError] on an empty range, else some integer of
    [[lo, hi]], picked by the raw draw [r]. *)
Definition randint (lo hi r : Z) : result Z :=
  if hi <? lo then Raise ValueError
  else Ok (lo + r mod (hi - lo + 1)).

(** The least magnitude that no longer rounds to a finite float64. *)
Definition FLOAT_LIMIT : Z := 2 ^ 1024 - 2 ^ 970.

(** [guessFactor ** e] for an integer-valued float [e] and
    [guessFactor > 0]: the float power, kept exact; Python raises
    [OverflowError] when the result is out of the float range. *)
Definition py_pow (guessFactor e : Z) : result Q :=
  if e <? 0 then Ok (1 # Z.to_pos (guessFactor ^ (- e)))
  else if FLOAT_LIMIT <=? guessFactor ^ e then Raise OverflowError
  else Ok (inject_Z (guessFactor ^ e)).

(** [x % n != 0] for a float [x] and a positive integer-valued [n]. *)
Definition mod_nonzero (x : Q) (n : Z) : bool :=
  let x' := Qred x in
  negb ((Qden x' =? 1)%positive && (Qnum x' mod n =? 0)).

(** [int(x)]: truncation toward zero. *)
Definition py_int (x : Q) : Z := Z.quot (Qnum x) (Zpos (Qden x)).

(** How a pass of the main loop ends: with a [return], or by going on to
    the next pass ([continue] or the end of the body). *)
Inductive ctl : Type :=
| Return (l : list Z)
| Next.

Section Orchestrator.

(** The pluggable period function, with its extra arguments applied. *)
Variable func : Z -> Z -> result Z.
Variable quick_compute : bool.

(** The statements guarded by
    [if (guessFactor**(period/2) + 1) % num != 0 and
        (guessFactor**(period/2) - 1) % num != 0]. *)
Definition extract (guessFactor period : Z) : M ctl :=
  (x <== lift (py_pow guessFactor (period / 2)) ;;
   n <== get_num ;;
   append (FactorFuncs.gcd (py_int (x + 1)) n) ;;;
   x <== lift (py_pow guessFactor (period / 2)) ;;
   n <== get_num ;;
   append (FactorFuncs.gcd (py_int (x - 1)) n) ;;;
   x <== lift (py_pow guessFactor (period / 2)) ;;
   n <== get_num ;;
   div_num (FactorFuncs.gcd (py_int (x + 1)) n) ;;;
   x <== lift (py_pow guessFactor (period / 2)) ;;
   n <== get_num ;;
   div_num (FactorFuncs.gcd (py_int (x - 1)) n) ;;;
   (if period =? 2 then
      n <== get_num ;;
      append (FactorFuncs.gcd guessFactor n) ;;;
      n <== get_num ;;
      div_num (FactorFuncs.gcd guessFactor n) ;;;
      n <== get_num ;;
      append (FactorFuncs.gcd guessFactor n) ;;;
      n <== get_num ;;
      div_num (FactorFuncs.gcd guessFactor n)
    else mret tt) ;;;
   if quick_compute then
     n <== get_num ;;
     append n ;;;
     l <== finish ;;
     mret (Return l)
   else mret Next)%acc.

(** The statements under [try: ... except OverflowError]. *)
Definition attempt (guessFactor : Z) : M ctl :=
  (n <== get_num ;;
   if negb (guessFactor =? n) && negb (guessFactor mod n =? 0) then
     p <== try_except
             (p <== lift (func n guessFactor) ;; mret (Some p))
             ValueError (mret None) ;;
     match p with
     | None => mret Next
     | Some period =>
         if negb (period mod 2 =? 1) then
           x <== lift (py_pow guessFactor (period / 2)) ;;
           n <== get_num ;;
           if mod_nonzero (x + 1) n then
             x <== lift (py_pow guessFactor (period / 2)) ;;
             n <== get_num ;;
             if mod_nonzero (x - 1) n then extract guessFactor period
             else mret Next
           else mret Next
         else mret Next
     end
   else mret Next)%acc.

(** One pass of [for i in range(limit)], with the raw random draw [r]. *)
Definition pass (r : Z) : M ctl :=
  (start_pass ;;;
   n <== get_num ;;
   if n =? 1 then
     append n ;;;
     l <== finish ;;
     mret (Return l)
   else if FactorFuncs.isqrt n ^ 2 =? n then
     n <== get_num ;;
     append (Z.sqrt n) ;;;
     n <== get_num ;;
     append (Z.sqrt n) ;;;
     n <== get_num ;;
     div_num (Z.sqrt n ^ 2) ;;;
     n <== get_num ;;
     append n ;;;
     l <== finish ;;
     mret (Return l)
   else
     g <== try_except
             (n <== get_num ;;
              g <== lift (randint 3 (n - 1) r) ;;
              mret (Some g))
             ValueError (mret None) ;;
     match g with
     | None => mret Next
     | Some guessFactor =>
         try_except (attempt guessFactor) OverflowError (mret Next)
     end)%acc.

(** [for i in range(limit)]: [limit] passes at most, pass [i] drawing
    [rnd i]. *)
Fixpoint main_loop (rnd : nat -> Z) (limit i : nat) : M ctl :=
  match limit with
  | O => mret Next
  | S limit' =>
      (c <== pass (rnd i) ;;
       match c with
       | Return l => mret (Return l)
       | Next => main_loop rnd limit' (S i)
       end)%acc
  end.

(** [while num % d == 0: factorization.append(d); num /= d], for at most
    [fuel] passes; [None] when the loop has not exited by then. *)
Fixpoint strip (fuel : nat) (d : Z) (s : acc) : option acc :=
  match fuel with
  | O => None
  | S fuel' =>
      if num s mod d =? 0
      then strip fuel' d (mkAcc (num s / d) (factorization s ++ [d]) (passes s))
      else Some s
  end.

(** Everything after the two stripping loops. *)
Definition after_strip (rnd : nat -> Z) (limit : nat) : M (list Z) :=
  (c <== main_loop rnd limit 0 ;;
   match c with
   | Return l => mret l
   | Next =>
       n <== get_num ;;
       append n ;;;
       finish
   end)%acc.

(** [ShorFactoringAlgorithmClassical(num, limit, show_errors, func, *args,
    quick_compute)], with the final accumulator; [None] when a stripping
    loop does not exit within [fuel] passes. *)
Definition run (fuel : nat) (rnd : nat -> Z) (n : Z) (limit : nat)
  : option (result (list Z) * acc) :=
  match strip fuel 2 (mkAcc n [] 0) with
  | None => None
  | Some s2 =>
      match strip fuel 5 s2 with
      | None => None
      | Some s5 => Some (after_strip rnd limit s5)
      end
  end.

Definition ShorFactoringAlgorithmClassical (fuel : nat) (rnd : nat -> Z)
  (n : Z) (limit : nat) : option (result (list Z)) :=
  option_map fst (run fuel rnd n limit).

End Orchestrator.

End ShorFactoringAlgorithm.

(* ================================================================= *)
(** ** Vocabulary of the statements *)

Module Vocabulary.
Import Np NpIndex QuantumCircuitMatrix.

(** A raw bit value, [0] or [1]. *)
Definition is_bit (x : Z) : Prop := x = 0 \/ x = 1.

(** The 2-dimensional primitive of a bit, among [zero] and [one]. *)
Definition bit_vec (zero one : ndarray) (x : Z) : ndarray :=
  if x =? 0 then zero else one.

(** The primitive ket / bra of a bit. *)
Definition prim_ket : Z -> ndarray := bit_vec zero_ket one_ket.
Definition prim_bra : Z -> ndarray := bit_vec zero_bra one_bra.

(** [a1 (x) (a2 (x) ... (an (x) 1))]: the head of the list is the leftmost,
    most-significant Kronecker factor. *)
Definition tensor_chain (l : list ndarray) : pyval :=
  fold_right (fun a acc => kron_py (PArr a) acc) (PInt 1) l.

(** The symbols of a [qubit_string]. *)
Definition is_symbol (c : ascii) : Prop :=
  c = "0"%char \/ c = "1"%char \/ c = "+"%char \/ c = "-"%char.

(** The primitive a symbol stands for. *)
Definition symbol_vec (zero one plus minus : ndarray) (c : ascii) : ndarray :=
  if Ascii.eqb c "0" then zero
  else if Ascii.eqb c "1" then one
  else if Ascii.eqb c "+" then plus
  else minus.

Definition plus_ket : ndarray := div_scalar (Arr2 [[c1]; [c1]]) sqrt2.
Definition minus_ket : ndarray := div_scalar (Arr2 [[c1]; [of_Z (-1)]]) sqrt2.
Definition plus_bra : ndarray := div_scalar (Arr2 [[c1; c1]]) sqrt2.
Definition minus_bra : ndarray := div_scalar (Arr2 [[c1; of_Z (-1)]]) sqrt2.

(** The outer product [|k><k|] on [d] dimensions: a single 1 at [(k, k)]. *)
Definition unit_mat (d k : nat) : ndarray :=
  Arr2 (mk_mat d d (fun i j => if Nat.eqb i k && Nat.eqb j k then c1 else c0)).

(** The partial sum of the first [t] of them. *)
Definition diag_upto (d t : nat) : ndarray :=
  Arr2 (mk_mat d d (fun i j => if Nat.eqb i j && Nat.ltb i t then c1 else c0)).




(** The product of a list of factors. *)
Definition product (l : list Z) : Z := fold_right Z.mul 1 l.


(** What every exit of the orchestrator returns for the input [N]. *)
Definition factor_list (N : Z) (l : list Z) : Prop :=
  Sorted Z.le l /\ ~ In 1 l /\ product l = N.

(** The accumulator between two passes of the main loop, for the input
    [N]: the cofactor is a positive odd integer and, with the factors found
    so far, multiplies to [N]. *)
Definition inv (N : Z) (s : ShorFactoringAlgorithm.acc) : Prop :=
  1 <= ShorFactoringAlgorithm.num s
  /\ Z.odd (ShorFactoringAlgorithm.num s) = true
  /\ product (ShorFactoringAlgorithm.factorization s)
      * ShorFactoringAlgorithm.num s = N.

(** The period function raises nothing but the validation error
    ([ValueError]) of its contract, or [OverflowError]. *)
Definition caught_only (func : Z -> Z -> result Z) : Prop :=
  forall n g e, func n g = Raise e -> e = ValueError \/ e = OverflowError.

(** The accumulator once a pass has started and changed nothing else. *)
Definition started (s : ShorFactoringAlgorithm.acc) : ShorFactoringAlgorithm.acc :=
  ShorFactoringAlgorithm.mkAcc (ShorFactoringAlgorithm.num s)
    (ShorFactoringAlgorithm.factorization s)
    (S (ShorFactoringAlgorithm.passes s)).


(** A number in lowest terms, as every number the operations return. *)
Definition canon (x : cnum) : Prop := cnorm x = x.

(** A real number; the arrays that [np.zeros] creates and the code fills
    in place hold real numbers only. *)
Definition is_real (x : cnum) : Prop := (im1 x == 0)%Q /\ (im2 x == 0)%Q.

(** A real number in lowest terms. *)
Definition real_canon (x : cnum) : Prop := canon x /\ is_real x.

(** An array all of whose numbers are in lowest terms. *)
Definition canon_array (a : ndarray) : Prop :=
  match a with
  | Arr1 v => Forall canon v
  | Arr2 m => Forall (Forall canon) m
  end.

(** The column vector with the entries [v]. *)
Definition column (v : list cnum) : ndarray := Arr2 (map (fun x => [x]) v).

(** The square matrix with [g] on its diagonal, the one-row matrix and the
    one-column matrix with the entries [g]. *)
Definition diag_of (N : nat) (g : nat -> cnum) : list (list cnum) :=
  mk_mat N N (fun i j => if Nat.eqb i j then g i else c0).

Definition row_of (N : nat) (g : nat -> cnum) : list (list cnum) :=
  mk_mat 1 N (fun _ j => g j).

Definition col_of (N : nat) (g : nat -> cnum) : list (list cnum) :=
  mk_mat N 1 (fun i _ => g i).

(** The positions that a list of Python indices names on an axis of length
    [N], or the [IndexError] of the first one out of range. *)
Fixpoint indices (N : nat) (args : list Z) : result (list nat) :=
  match args with
  | [] => Ok []
  | a :: rest =>
      k <- py_index N a ;;
      ks <- indices N rest ;;
      Ok (k :: ks)
  end.

(** 1 at the positions [ks], 0 elsewhere. *)
Definition indicator (ks : list nat) (r : nat) : cnum :=
  if existsb (Nat.eqb r) ks then c1 else c0.

(** The two entries per qubit of [get_zero_qubit_vector]: 1 at the
    positions [ks], and at an even position whose successor is not among
    them. *)
Definition zero_default (ks : list nat) (r : nat) : cnum :=
  if existsb (Nat.eqb r) ks || (Nat.even r && negb (existsb (Nat.eqb (S r)) ks))
  then c1 else c0.

(** The permutation matrix on [D] dimensions that exchanges the basis
    states [a] and [b] and fixes the others. *)
Definition transposition (D a b : nat) : ndarray :=
  Arr2 (mk_mat D D (fun i j =>
          if Nat.eqb i a then (if Nat.eqb j b then c1 else c0)
          else if Nat.eqb i b then (if Nat.eqb j a then c1 else c0)
          else if Nat.eqb i j then c1 else c0)).

(** The block matrix [diag(I, U)] of a controlled 2 x 2 gate. *)
Definition controlled (u : list (list cnum)) : ndarray :=
  Arr2 (mk_mat 4 4 (fun i j =>
          if Nat.ltb i 2 then (if Nat.eqb i j then c1 else c0)
          else if Nat.ltb j 2 then c0
          else get u (i - 2) (j - 2))).

(** The position that [r] takes when [a] and [b] change places. *)
Definition exchange (a b r : nat) : nat :=
  if Nat.eqb r a then b else if Nat.eqb r b then a else r.

(** The amplitude of an entry of a Hadamard state: [1 / sqrt 2], negated
    once for each time the position is among [ks]. *)
Definition amplitude (ks : list nat) (r : nat) : cnum :=
  cdiv (if Nat.even (count_occ Nat.eq_dec ks r) then c1 else of_Z (-1)) sqrt2.

(** The indices that count when none is given: index 0. *)
Definition default_args (args : list Z) : list Z :=
  match args with
  | [] => [0]
  | _ => args
  end.

(** The character of a bit. *)
Definition bit_char (x : Z) : ascii := if x =? 0 then "0"%char else "1"%char.

(** The [qubit_string] that spells the bits [xs]. *)
Definition bit_string (xs : list Z) : string :=
  string_of_list_ascii (map bit_char xs).

End Vocabulary.

(* ================================================================= *)
(** * Properties *)

Import Np NpIndex QuantumCircuitMatrix Vocabulary.

(** ** Basis vectors *)

Lemma fold_left_as_chain {A : Type} (f : A -> ndarray) (cs : list A) (tmp : pyval) :
  fold_left (fun acc c => kron_py (PArr (f c)) acc) cs tmp
  = fold_right (fun a acc => kron_py (PArr a) acc) tmp (map f (rev cs)).
Proof.
  revert tmp. induction cs as [|c cs IH]; intros tmp; simpl.
  - reflexivity.
  - rewrite IH, map_app, fold_right_app. reflexivity.
Qed.

Lemma tensor_chain_is_array (a : ndarray) (l : list ndarray) :
  exists k, tensor_chain (a :: l) = PArr k.
Proof.
  unfold tensor_chain. simpl.
  destruct (fold_right _ _ l); simpl; eauto.
Qed.

Section BraKetFacts.

Variables zero one plus minus : ndarray.
Hypothesis Hplus : add (div_scalar zero sqrt2) (div_scalar one sqrt2) = Ok plus.
Hypothesis Hminus : sub (div_scalar zero sqrt2) (div_scalar one sqrt2) = Ok minus.

Lemma from_int_bit (x : Z) (acc : pyval) :
  is_bit x -> from_int zero one x acc = Ok (kron_py (PArr (bit_vec zero one x)) acc).
Proof.
  intros [-> | ->]; reflexivity.
Qed.

(** The loop over [args[::-1]] tensors each argument on the left of the
    accumulator. *)
Lemma args_loop_bits (rec : string -> result ndarray) (xs : list Z) (acc : pyval) :
  Forall is_bit xs ->
  args_loop zero one rec (map AInt xs) acc
  = Ok (fold_left (fun acc x => kron_py (PArr (bit_vec zero one x)) acc) xs acc).
Proof.
  intros H. revert acc.
  induction H as [|x xs Hx _ IH]; intros acc; simpl.
  - reflexivity.
  - rewrite (from_int_bit x acc Hx). simpl. apply IH.
Qed.

Lemma args_loop_rev_bits (rec : string -> result ndarray) (xs : list Z) :
  Forall is_bit xs ->
  args_loop zero one rec (rev (map AInt xs)) (PInt 1)
  = Ok (tensor_chain (map (bit_vec zero one) xs)).
Proof.
  intros H. rewrite <- map_rev.
  rewrite args_loop_bits by (apply Forall_rev; exact H).
  f_equal. unfold tensor_chain.
  rewrite (fold_left_as_chain (bit_vec zero one)), rev_involutive. reflexivity.
Qed.

(** The loop over the characters of [qubit_string] does the same, so the
    last character ends up leftmost. *)
Lemma string_loop_symbols (qs : string) (tmp : pyval) :
  Forall is_symbol (list_ascii_of_string qs) ->
  string_loop zero one plus minus qs tmp
  = Ok (fold_left (fun acc c => kron_py (PArr (symbol_vec zero one plus minus c)) acc)
          (list_ascii_of_string qs) tmp).
Proof.
  revert tmp. induction qs as [|c qs IH]; intros tmp H; simpl.
  - reflexivity.
  - inversion H as [|? ? Hc Hqs]; subst.
    unfold symbol_vec at 1.
    destruct Hc as [-> | [-> | [-> | ->]]]; simpl; apply IH; exact Hqs.
Qed.

Lemma get_vec_bits (xs : list Z) :
  Forall is_bit xs -> xs <> [] ->
  exists k, get_vec zero one (map AInt xs) "" = Ok k
            /\ tensor_chain (map (bit_vec zero one) xs) = PArr k.
Proof.
  intros H Hne. unfold get_vec, get_body.
  rewrite Hplus, Hminus. simpl rbind.
  destruct xs as [|x xs]; [congruence|].
  rewrite length_map. simpl negb. cbv iota.
  destruct (tensor_chain_is_array (bit_vec zero one x) (map (bit_vec zero one) xs)) as [k Hk].
  change (bit_vec zero one x :: map (bit_vec zero one) xs) with (map (bit_vec zero one) (x :: xs)) in Hk.
  rewrite args_loop_rev_bits, Hk by exact H.
  simpl. eauto.
Qed.

(** A [qubit_string] alone gives one block. *)
Lemma get_vec_string (qs : string) :
  Forall is_symbol (list_ascii_of_string qs) -> qs <> EmptyString ->
  exists S,
    get_vec zero one [] qs = Ok S
    /\ string_loop zero one plus minus qs (PInt 1) = Ok (PArr S).
Proof.
  intros Hs Hq.
  assert (HS : exists S, string_loop zero one plus minus qs (PInt 1) = Ok (PArr S)).
  { rewrite string_loop_symbols by exact Hs. rewrite fold_left_as_chain.
    destruct qs as [|c qs]; [congruence|].
    simpl list_ascii_of_string. simpl rev.
    destruct (rev (list_ascii_of_string qs) ++ [c]) as [|d ds] eqn:E.
    - destruct (rev (list_ascii_of_string qs)); discriminate.
    - simpl map.
      destruct (tensor_chain_is_array (symbol_vec zero one plus minus d)
                  (map (symbol_vec zero one plus minus) ds)) as [S HS].
      exists S. f_equal. exact HS. }
  destruct HS as [S HS]. exists S. split; [|exact HS].
  assert (Hlen : negb (Nat.eqb (String.length qs) 0) = true)
    by (destruct qs; [congruence | reflexivity]).
  unfold get_vec, get_body. rewrite Hplus, Hminus.
  cbn [rbind List.length Nat.eqb negb]. rewrite Hlen, HS. reflexivity.
Qed.

(** With both kinds of argument the result is
    [string block (x) positional block]. *)
Lemma get_vec_bits_string (xs : list Z) (qs : string) :
  Forall is_bit xs -> xs <> [] ->
  Forall is_symbol (list_ascii_of_string qs) -> qs <> EmptyString ->
  exists S P,
    get_vec zero one [] qs = Ok S
    /\ get_vec zero one (map AInt xs) EmptyString = Ok P
    /\ get_vec zero one (map AInt xs) qs = Ok (kron S P).
Proof.
  intros H Hne Hs Hq.
  destruct (get_vec_string qs Hs Hq) as [S [HS Hloop]].
  destruct (get_vec_bits xs H Hne) as [P [HP Hchain]].
  exists S, P. split; [exact HS|]. split; [exact HP|].
  assert (Hlen : negb (Nat.eqb (String.length qs) 0) = true)
    by (destruct qs; [congruence | reflexivity]).
  unfold get_vec, get_body. rewrite Hplus, Hminus. cbn [rbind].
  destruct xs as [|x xs]; [congruence|].
  rewrite length_map. cbn [List.length Nat.eqb negb].
  rewrite args_loop_rev_bits, Hchain by exact H.
  cbn [rbind]. rewrite Hlen, Hloop. reflexivity.
Qed.

End BraKetFacts.

Lemma ket_plus_ok :
  add (div_scalar zero_ket sqrt2) (div_scalar one_ket sqrt2) = Ok plus_ket.
Proof. vm_compute. reflexivity. Qed.

Lemma ket_minus_ok :
  sub (div_scalar zero_ket sqrt2) (div_scalar one_ket sqrt2) = Ok minus_ket.
Proof. vm_compute. reflexivity. Qed.

Lemma bra_plus_ok :
  add (div_scalar zero_bra sqrt2) (div_scalar one_bra sqrt2) = Ok plus_bra.
Proof. vm_compute. reflexivity. Qed.

Lemma bra_minus_ok :
  sub (div_scalar zero_bra sqrt2) (div_scalar one_bra sqrt2) = Ok minus_bra.
Proof. vm_compute. reflexivity. Qed.

(** C1 as stated (last positional argument most significant,
    [get_ket(x, y) = primitive(y) (x) primitive(x)]) does not hold:
    [get_ket(0, 1)] is [|0> (x) |1>], the vector with its 1 at index 1, not
    [|1> (x) |0>] (index 2). *)
Lemma get_ket_last_arg_not_most_significant :
  get_ket [AInt 0; AInt 1] "" <> Ok (kron (prim_ket 1) (prim_ket 0))
  /\ ~ (forall x y : Z, is_bit x -> is_bit y ->
          get_ket [AInt x; AInt y] "" = Ok (kron (prim_ket y) (prim_ket x))).
Proof.
  assert (H01 : get_ket [AInt 0; AInt 1] "" <> Ok (kron (prim_ket 1) (prim_ket 0))).
  { intros H. vm_compute in H. discriminate H. }
  split; [exact H01|].
  intros H. apply H01.
  exact (H 0 1 (or_introl eq_refl) (or_intror eq_refl)).
Qed.

(** C1 (amended): [get_bra] and [get_ket] visit the positional arguments in
    reverse order and tensor each one on the left of what is built, so the
    FIRST positional argument is the most-significant Kronecker factor and
    the last one the least significant; a [qubit_string] is combined as one
    block, and with both present the result is
    [string block (x) positional block].  For bits [x], [y]:
    [get_ket(x, y) = primitive(x) (x) primitive(y)]. *)
Theorem get_vec_first_arg_most_significant
  (x y : Z) (xs : list Z) (qs : string) :
  is_bit x -> is_bit y ->
  Forall is_bit xs -> xs <> [] ->
  Forall is_symbol (list_ascii_of_string qs) -> qs <> EmptyString ->
  get_ket [AInt x; AInt y] "" = Ok (kron (prim_ket x) (prim_ket y))
  /\ get_bra [AInt x; AInt y] "" = Ok (kron (prim_bra x) (prim_bra y))
  /\ (exists k, get_ket (map AInt xs) "" = Ok k
                /\ tensor_chain (map prim_ket xs) = PArr k)
  /\ (exists k, get_bra (map AInt xs) "" = Ok k
                /\ tensor_chain (map prim_bra xs) = PArr k)
  /\ (exists S P,
        get_ket [] qs = Ok S
        /\ get_ket (map AInt xs) "" = Ok P
        /\ get_ket (map AInt xs) qs = Ok (kron S P))
  /\ (exists S P,
        get_bra [] qs = Ok S
        /\ get_bra (map AInt xs) "" = Ok P
        /\ get_bra (map AInt xs) qs = Ok (kron S P)).
Proof.
  intros Hx Hy Hxs Hne Hqs Hq.
  split; [|split; [|split; [|split; [|split]]]].
  - destruct Hx as [-> | ->], Hy as [-> | ->]; vm_compute; reflexivity.
  - destruct Hx as [-> | ->], Hy as [-> | ->]; vm_compute; reflexivity.
  - exact (get_vec_bits zero_ket one_ket plus_ket minus_ket
             ket_plus_ok ket_minus_ok xs Hxs Hne).
  - exact (get_vec_bits zero_bra one_bra plus_bra minus_bra
             bra_plus_ok bra_minus_ok xs Hxs Hne).
  - exact (get_vec_bits_string zero_ket one_ket plus_ket minus_ket
             ket_plus_ok ket_minus_ok xs qs Hxs Hne Hqs Hq).
  - exact (get_vec_bits_string zero_bra one_bra plus_bra minus_bra
             bra_plus_ok bra_minus_ok xs qs Hxs Hne Hqs Hq).
Qed.

Lemma get_vec_first_arg_most_significant_witness :
  get_ket [AInt 0; AInt 1] "" = Ok (kron (prim_ket 0) (prim_ket 1))
  /\ get_ket [AInt 0; AInt 1] "" = get_qubit_vector 2 [1].
Proof.
  split.
  - apply (proj1 (get_vec_first_arg_most_significant 0 1 [1; 0] "+0"
                    (or_introl eq_refl) (or_intror eq_refl)
                    (Forall_cons 1 (or_intror eq_refl)
                       (Forall_cons 0 (or_introl eq_refl) (Forall_nil _)))
                    ltac:(discriminate)
                    (Forall_cons "+"%char (or_intror (or_intror (or_introl eq_refl)))
                       (Forall_cons "0"%char (or_introl eq_refl) (Forall_nil _)))
                    ltac:(discriminate))).
  - vm_compute. reflexivity.
Defined.

(** ** Integers outside [{0, 1}] *)

(** On a power of two [2^k], [k >= 1], the loop
    [while qubits_to_bits(num_qubits) < argv] stops at [num_qubits = k]. *)
Lemma grow_qubits_pow2 (k fuel n : nat) :
  (n <= S k)%nat -> (S k - n <= fuel)%nat ->
  grow_qubits fuel n (2 ^ Z.of_nat (S k)) = S k.
Proof.
  revert n. induction fuel as [|fuel IH]; intros n Hn Hf; cbn [grow_qubits].
  - lia.
  - unfold qubits_to_bits.
    destruct (Z.ltb_spec (2 ^ Z.of_nat n) (2 ^ Z.of_nat (S k))) as [Hlt | Hge].
    + apply Z.pow_lt_mono_r_iff in Hlt; [|lia|lia].
      apply IH; lia.
    + apply Z.pow_le_mono_r_iff in Hge; [|lia|lia]. lia.
Qed.

(** In general the loop stops at the least [n >= 1] with [argv <= 2^n]. *)
Lemma grow_qubits_least (argv : Z) (fuel n : nat) :
  (1 <= n)%nat -> 2 ^ (Z.of_nat n - 1) < argv ->
  argv <= Z.of_nat fuel + Z.of_nat n ->
  let r := grow_qubits fuel n argv in
  2 ^ (Z.of_nat r - 1) < argv <= 2 ^ Z.of_nat r.
Proof.
  revert n. induction fuel as [|fuel IH]; intros n Hn Hlo Hf; cbn [grow_qubits].
  - split; [exact Hlo|].
    assert (Z.of_nat n < 2 ^ Z.of_nat n) by (apply Z.pow_gt_lin_r; lia). lia.
  - unfold qubits_to_bits.
    destruct (Z.ltb_spec (2 ^ Z.of_nat n) argv) as [Hlt | Hge].
    + apply IH; try lia.
      replace (Z.of_nat (S n) - 1) with (Z.of_nat n) by lia. exact Hlt.
    + split; assumption.
Qed.

Lemma grow_qubits_from (argv : Z) (fuel n : nat) :
  (n <= grow_qubits fuel n argv)%nat.
Proof.
  revert n. induction fuel as [|fuel IH]; intros n; cbn [grow_qubits].
  - lia.
  - destruct (qubits_to_bits n <? argv); [|lia].
    specialize (IH (S n)). lia.
Qed.

(** With [argv] passes allowed the loop has exited: [num_qubits] is the
    least [r >= 1] with [argv <= 2^r]. *)
Lemma grow_qubits_exits (argv : Z) :
  let r := grow_qubits (Z.to_nat argv) 1 argv in
  (1 <= r)%nat /\ argv <= 2 ^ Z.of_nat r
  /\ (r = 1%nat \/ 2 ^ (Z.of_nat r - 1) < argv).
Proof.
  cbv zeta. split; [apply grow_qubits_from|].
  destruct (Z_le_gt_dec argv 2) as [Hle | Hgt].
  - assert (E : forall fuel, grow_qubits fuel 1 argv = 1%nat).
    { intros [|fuel]; cbn [grow_qubits]; [reflexivity|].
      unfold qubits_to_bits. change (2 ^ Z.of_nat 1) with 2.
      destruct (Z.ltb_spec 2 argv); [lia | reflexivity]. }
    rewrite E. change (2 ^ Z.of_nat 1) with 2. split; [lia | left; reflexivity].
  - pose proof (grow_qubits_least argv (Z.to_nat argv) 1) as H.
    cbv zeta in H. change (2 ^ (Z.of_nat 1 - 1)) with 1 in H.
    destruct H as [Hlo Hhi]; lia.
Qed.

Lemma setitem_row0_out_of_range (N : nat) (v : Z) (f : cnum -> cnum) :
  Z.of_nat N <= v ->
  setitem (zeros2 1 N) 0 v f = Raise IndexError.
Proof.
  intros Hv. unfold setitem, zeros2. simpl repeat.
  change (py_index (nrows [repeat c0 N]) 0) with (@Ok nat 0%nat).
  simpl rbind. simpl nth. rewrite repeat_length.
  unfold py_index.
  replace (v <? Z.of_nat N) with false by (symmetry; apply Z.ltb_ge; lia).
  replace (v <? 0) with false by (symmetry; apply Z.ltb_ge; lia).
  rewrite !andb_false_r. reflexivity.
Qed.

Lemma from_int_pow2_raises (zero one : ndarray) (k : nat) (acc : pyval) :
  from_int zero one (2 ^ Z.of_nat (S k)) acc = Raise IndexError.
Proof.
  assert (Hlin : Z.of_nat (S k) < 2 ^ Z.of_nat (S k))
    by (apply Z.pow_gt_lin_r; lia).
  unfold from_int.
  replace (2 ^ Z.of_nat (S k) =? 0) with false by (symmetry; apply Z.eqb_neq; lia).
  replace (2 ^ Z.of_nat (S k) =? 1) with false by (symmetry; apply Z.eqb_neq; lia).
  rewrite grow_qubits_pow2 by lia.
  unfold get_qubit_vector, set_row0, qubits_to_bits.
  rewrite setitem_row0_out_of_range by lia.
  reflexivity.
Qed.

(** C2: on every power of two [2^k], [k >= 1] (so on 2 and on 4) [get_ket]
    and [get_bra] raise [IndexError]: the vector built has [2^k] entries,
    and index [2^k] is outside it. *)
Theorem get_vec_power_of_two_raises (k : nat) :
  get_ket [AInt (2 ^ Z.of_nat (S k))] "" = Raise IndexError
  /\ get_bra [AInt (2 ^ Z.of_nat (S k))] "" = Raise IndexError.
Proof.
  split.
  - unfold get_ket, get_vec, get_body.
    rewrite ket_plus_ok, ket_minus_ok.
    cbn [rbind rev app List.length Nat.eqb negb args_loop].
    rewrite from_int_pow2_raises. reflexivity.
  - unfold get_bra, get_vec, get_body.
    rewrite bra_plus_ok, bra_minus_ok.
    cbn [rbind rev app List.length Nat.eqb negb args_loop].
    rewrite from_int_pow2_raises. reflexivity.
Qed.

(** The cases 2 and 4. *)
Example get_ket_2_and_4_raise :
  get_ket [AInt 2] "" = Raise IndexError /\ get_ket [AInt 4] "" = Raise IndexError.
Proof. split; vm_compute; reflexivity. Qed.

(** Away from the powers of two: 3 in a 4-vector, 5 in an 8-vector. *)
Example get_ket_3_and_5 :
  get_ket [AInt 3] "" = get_qubit_vector 2 [3]
  /\ get_ket [AInt 5] "" = get_qubit_vector 3 [5].
Proof. split; vm_compute; reflexivity. Qed.

(** ** Gate constructors against the class constants *)

(** C7: each outer-product gate constructor returns its class constant. *)
Theorem gate_constructors_agree :
  Pauli_X_Gate = Ok Pauli_X_gate
  /\ Pauli_Y_Gate = Ok Pauli_Y_gate
  /\ Pauli_Z_Gate = Ok Pauli_Z_gate
  /\ Hadamard_Gate = Ok Hadamard_gate
  /\ CNOT_Gate = CNOT_gate
  /\ Swap_Gate = Ok swap_gate.
Proof.
  repeat split; vm_compute; reflexivity.
Qed.

(** The class constant [CNOT_gate] is itself well defined. *)
Example CNOT_gate_value :
  CNOT_gate = Ok (Arr2 [[c1; c0; c0; c0];
                        [c0; c1; c0; c0];
                        [c0; c0; c0; c1];
                        [c0; c0; c1; c0]]).
Proof. vm_compute. reflexivity. Qed.

(** ** Matrices given by their entries *)

Lemma map_seq_shift {A : Type} (f : nat -> A) (a n : nat) :
  map f (seq a n) = map (fun k => f (a + k)%nat) (seq 0 n).
Proof.
  revert f a. induction n as [|n IH]; intros f a; simpl.
  - reflexivity.
  - rewrite Nat.add_0_r. f_equal.
    rewrite (IH f (S a)), (IH (fun k => f (a + k)%nat) 1%nat).
    apply map_ext. intros k. f_equal. lia.
Qed.

Lemma flat_map_of_map {A B C : Type} (F : B -> list C) (f : A -> B) (l : list A) :
  flat_map F (map f l) = flat_map (fun x => F (f x)) l.
Proof.
  induction l as [|x l IH]; simpl; [reflexivity | now rewrite IH].
Qed.

(** Concatenating [m] blocks of length [n] enumerates [(t / n, t mod n)]. *)
Lemma flat_map_seq_div_mod {A : Type} (h : nat -> nat -> A) (m n : nat) :
  flat_map (fun i => map (h i) (seq 0 n)) (seq 0 m)
  = map (fun t => h (t / n) (t mod n))%nat (seq 0 (m * n)).
Proof.
  induction m as [|m IH].
  - reflexivity.
  - rewrite seq_S, flat_map_app, IH. simpl flat_map. rewrite app_nil_r.
    replace (S m * n)%nat with (m * n + n)%nat by lia.
    rewrite seq_app, map_app. f_equal.
    rewrite (map_seq_shift _ (0 + m * n)).
    apply map_ext_in. intros k Hk. apply in_seq in Hk.
    assert (Hn : n <> 0%nat) by lia.
    replace (0 + m * n + k)%nat with (k + m * n)%nat by lia.
    rewrite Nat.div_add, Nat.Div0.mod_add by exact Hn.
    rewrite Nat.div_small, Nat.mod_small by lia.
    reflexivity.
Qed.

Lemma kron1_entries (f g : nat -> cnum) (c1' c2' : nat) :
  kron1 (map f (seq 0 c1')) (map g (seq 0 c2'))
  = map (fun t => cmul (f (t / c2')%nat) (g (t mod c2')%nat)) (seq 0 (c1' * c2')).
Proof.
  unfold kron1. rewrite flat_map_of_map.
  rewrite <- (flat_map_seq_div_mod (fun i k => cmul (f i) (g k))).
  apply flat_map_ext. intros i. apply map_map.
Qed.

(** The Kronecker product, entry by entry. *)
Lemma kron2_mk_mat (f g : nat -> nat -> cnum) (r1 k1 r2 k2 : nat) :
  kron2 (mk_mat r1 k1 f) (mk_mat r2 k2 g)
  = mk_mat (r1 * r2) (k1 * k2)
      (fun i j => cmul (f (i / r2) (j / k2))%nat (g (i mod r2) (j mod k2))%nat).
Proof.
  unfold kron2, mk_mat. rewrite flat_map_of_map.
  rewrite <- (flat_map_seq_div_mod
                (fun i k => map (fun j => cmul (f i (j / k2)%nat) (g k (j mod k2)%nat))
                              (seq 0 (k1 * k2)))).
  apply flat_map_ext. intros i. rewrite map_map.
  apply map_ext. intros k. apply kron1_entries.
Qed.

Lemma mk_mat_ext (r c : nat) (f g : nat -> nat -> cnum) :
  (forall i j, (i < r)%nat -> (j < c)%nat -> f i j = g i j) ->
  mk_mat r c f = mk_mat r c g.
Proof.
  intros H. unfold mk_mat.
  apply map_ext_in. intros i Hi. apply in_seq in Hi.
  apply map_ext_in. intros j Hj. apply in_seq in Hj.
  apply H; lia.
Qed.

Lemma get_mk_mat (r c : nat) (f : nat -> nat -> cnum) (i j : nat) :
  (i < r)%nat -> (j < c)%nat -> get (mk_mat r c f) i j = f i j.
Proof.
  intros Hi Hj. unfold get, mk_mat.
  rewrite (nth_indep _ [] (map (fun j => f 0%nat j) (seq 0 c)))
    by (rewrite length_map, length_seq; exact Hi).
  rewrite (map_nth (fun i => map (fun j => f i j) (seq 0 c)) (seq 0 r) 0%nat i).
  rewrite seq_nth by exact Hi. simpl.
  rewrite (nth_indep _ c0 (f i 0%nat))
    by (rewrite length_map, length_seq; exact Hj).
  rewrite (map_nth (fun j => f i j) (seq 0 c) 0%nat j).
  rewrite seq_nth by exact Hj. reflexivity.
Qed.

Lemma shape_mk_mat (r c : nat) (f : nat -> nat -> cnum) :
  (0 < r)%nat -> shape (Arr2 (mk_mat r c f)) = [r; c].
Proof.
  intros Hr. unfold shape, nrows, ncols, mk_mat.
  rewrite length_map, length_seq.
  destruct r as [|r]; [lia|]. simpl. rewrite length_map, length_seq. reflexivity.
Qed.

Lemma map_map_mk_mat (h : cnum -> cnum) (r c : nat) (f : nat -> nat -> cnum) :
  map (map h) (mk_mat r c f) = mk_mat r c (fun i j => h (f i j)).
Proof.
  unfold mk_mat. rewrite map_map. apply map_ext. intros i. apply map_map.
Qed.

Lemma zip_with_maps (h : cnum -> cnum -> cnum) (f g : nat -> cnum) (l : list nat) :
  zip_with h (map f l) (map g l) = map (fun j => h (f j) (g j)) l.
Proof.
  induction l as [|x l IH]; simpl; [reflexivity | now rewrite IH].
Qed.

Lemma zip_rows_mk_mat (h : cnum -> cnum -> cnum) (r c : nat)
  (f g : nat -> nat -> cnum) :
  zip_rows h (mk_mat r c f) (mk_mat r c g) = mk_mat r c (fun i j => h (f i j) (g i j)).
Proof.
  unfold mk_mat. generalize (seq 0 r) as l.
  induction l as [|x l IH]; simpl; [reflexivity|].
  rewrite IH, zip_with_maps. reflexivity.
Qed.

Lemma shape_eqb_refl (s : list nat) : shape_eqb s s = true.
Proof.
  unfold shape_eqb. destruct (list_eq_dec Nat.eq_dec s s); congruence.
Qed.

(** Adding two matrices of one shape, entry by entry. *)
Lemma add_mk_mat (r c : nat) (f g : nat -> nat -> cnum) :
  (0 < r)%nat ->
  add (Arr2 (mk_mat r c f)) (Arr2 (mk_mat r c g))
  = Ok (Arr2 (mk_mat r c (fun i j => cadd (f i j) (g i j)))).
Proof.
  intros Hr. unfold add, elementwise.
  rewrite !shape_mk_mat by exact Hr. rewrite shape_eqb_refl.
  rewrite zip_rows_mk_mat. reflexivity.
Qed.

Lemma pow2_nat (n : nat) : Z.to_nat (qubits_to_bits n) = (2 ^ n)%nat.
Proof.
  unfold qubits_to_bits.
  rewrite <- (Nat2Z.id (2 ^ n)). f_equal.
  rewrite Nat2Z.inj_pow. reflexivity.
Qed.

Lemma pow2_pos (n : nat) : (0 < 2 ^ n)%nat.
Proof. induction n; simpl; lia. Qed.

(** ** The identity gate *)

Lemma div2_mod2 (i : nat) : (i = 2 * (i / 2) + i mod 2 /\ i mod 2 < 2)%nat.
Proof.
  split; [apply Nat.div_mod_eq | apply Nat.mod_upper_bound; lia].
Qed.

Ltac bool_cases :=
  repeat match goal with
         | |- context [Nat.eqb ?a ?b] => destruct (Nat.eqb_spec a b)
         | |- context [Nat.ltb ?a ?b] => destruct (Nat.ltb_spec a b)
         end;
  simpl andb; cbv iota;
  try reflexivity; try (exfalso; lia).

Lemma kron_unit_zero_prod (d k : nat) :
  kron (unit_mat d k) (unit_mat 2 0) = unit_mat (d * 2) (2 * k).
Proof.
  unfold unit_mat, kron. rewrite kron2_mk_mat. f_equal.
  apply mk_mat_ext. intros i j _ _.
  destruct (div2_mod2 i) as [Hi Hi'], (div2_mod2 j) as [Hj Hj'].
  bool_cases.
Qed.

Lemma kron_unit_one_prod (d k : nat) :
  kron (unit_mat d k) (unit_mat 2 1) = unit_mat (d * 2) (2 * k + 1).
Proof.
  unfold unit_mat, kron. rewrite kron2_mk_mat. f_equal.
  apply mk_mat_ext. intros i j _ _.
  destruct (div2_mod2 i) as [Hi Hi'], (div2_mod2 j) as [Hj Hj'].
  bool_cases.
Qed.

Lemma helper_step (n : nat) :
  identity_gate_helper (S (S n))
  = (l <- identity_gate_helper (S n) ;;
     Ok (flat_map (fun q => [kron q (unit_mat 2 0); kron q (unit_mat 2 1)]) l)).
Proof. reflexivity. Qed.

(** [identity_gate_helper(n)] is the list [|0><0|, |1><1|, ...] of all
    [2^n] projectors, in order. *)
Lemma identity_gate_helper_units (n : nat) :
  identity_gate_helper (S n)
  = Ok (map (unit_mat (2 ^ S n)) (seq 0 (2 ^ S n))).
Proof.
  induction n as [|n IH].
  - vm_compute. reflexivity.
  - rewrite helper_step, IH. cbn [rbind]. f_equal.
    rewrite flat_map_of_map.
    set (d := (2 ^ S n)%nat).
    replace (2 ^ S (S n))%nat with (d * 2)%nat by (unfold d; simpl; lia).
    rewrite <- (map_ext (fun t => unit_mat (d * 2) (2 * (t / 2) + t mod 2))
                        (unit_mat (d * 2)))
      by (intros t; f_equal; symmetry; apply Nat.div_mod_eq).
    rewrite <- (flat_map_seq_div_mod (fun i r => unit_mat (d * 2) (2 * i + r)) d 2).
    apply flat_map_ext. intros k. simpl map.
    rewrite kron_unit_zero_prod, kron_unit_one_prod, Nat.add_0_r. reflexivity.
Qed.

Lemma add_diag_unit (d t : nat) :
  (0 < d)%nat ->
  add (diag_upto d t) (unit_mat d t) = Ok (diag_upto d (S t)).
Proof.
  intros Hd. unfold diag_upto, unit_mat.
  rewrite add_mk_mat by exact Hd. do 2 f_equal.
  apply mk_mat_ext. intros i j _ _. bool_cases.
Qed.

Lemma py_sum_from_units (d k t : nat) :
  (0 < d)%nat -> (t + k = d)%nat ->
  py_sum_from (PArr (diag_upto d t)) (map (unit_mat d) (seq t k))
  = Ok (PArr (diag_upto d d)).
Proof.
  intros Hd. revert t. induction k as [|k IH]; intros t Ht;
    cbn [seq map py_sum_from add_py].
  - replace t with d by lia. reflexivity.
  - rewrite add_diag_unit by exact Hd. cbn [rbind]. apply IH. lia.
Qed.

(** C8: for every [numQubits >= 1], [identity_gate(numQubits)], the sum of
    the [2^numQubits] outer products of the recursive helper, is the
    identity matrix [identityGate(numQubits)]. *)
Theorem identity_gate_is_identity (numQubits : nat) :
  (1 <= numQubits)%nat ->
  identity_gate numQubits = Ok (PArr (identityGate numQubits)).
Proof.
  intros Hn. destruct numQubits as [|n]; [lia|].
  unfold identity_gate, identityGate. rewrite pow2_nat.
  rewrite identity_gate_helper_units. cbn [rbind].
  set (d := (2 ^ S n)%nat).
  assert (Hd : (0 < d)%nat) by apply pow2_pos.
  unfold py_sum.
  destruct d as [|d'] eqn:E; [lia|].
  rewrite <- cons_seq. cbn [map py_sum_from].
  assert (H0 : add_py (PInt 0) (unit_mat (S d') 0) = Ok (diag_upto (S d') 1)).
  { unfold add_py, unit_mat, diag_upto. rewrite map_map_mk_mat. do 2 f_equal.
    apply mk_mat_ext. intros i j _ _. bool_cases. }
  rewrite H0. cbn [rbind].
  rewrite (py_sum_from_units (S d') d' 1) by lia.
  do 2 f_equal. unfold diag_upto, identity, identity_rows. f_equal.
  apply mk_mat_ext. intros i j Hi _. bool_cases.
Qed.

Lemma identity_gate_is_identity_witness :
  identity_gate 2 = Ok (PArr (identityGate 2)).
Proof.
  apply (identity_gate_is_identity 2). lia.
Defined.

(** ** The n-qubit NOT gates *)

Lemma qnot_step (m : nat) :
  quantum_not_gate_matrix (S (S (S m)))
  = (rec <- quantum_not_gate_matrix (S (S m)) ;;
     add (kron (diag (Arr1 [c1; c0])) (identityGate (S (S m))))
         (kron (diag (Arr1 [c0; c1])) rec)).
Proof. reflexivity. Qed.

Lemma reverse_step (m : nat) :
  reverse_quantum_not_gate_matrix (S (S (S m)))
  = (fwd <- quantum_not_gate_matrix (S (S m)) ;;
     add (kron (diag (Arr1 [c0; c1])) (identityGate (S (S m))))
         (kron (diag (Arr1 [c1; c0])) fwd)).
Proof. reflexivity. Qed.

Lemma last_index_split (d : nat) :
  (0 < d)%nat ->
  ((2 * d - 1) / d = 1 /\ (2 * d - 1) mod d = d - 1)%nat.
Proof.
  intros Hd.
  assert (H : (2 * d - 1 = (d - 1) + 1 * d)%nat) by lia.
  rewrite H. rewrite Nat.div_add, Nat.Div0.mod_add by lia.
  rewrite Nat.div_small, Nat.mod_small by lia. lia.
Qed.

(** A controlled block matrix [diag(p, q) (x) I + diag(q', p') (x) B], entry
    by entry. *)
Lemma controlled_block (u v : list cnum) (d : nat) (f : nat -> nat -> cnum) :
  (0 < d)%nat -> length u = 2%nat -> length v = 2%nat ->
  add (kron (diag (Arr1 u)) (identity d)) (kron (diag (Arr1 v)) (Arr2 (mk_mat d d f)))
  = Ok (Arr2 (mk_mat (2 * d) (2 * d)
          (fun i j =>
             cadd (cmul (if Nat.eqb (i / d) (j / d) then nth (i / d) u c0 else c0)
                        (if Nat.eqb (i mod d) (j mod d) then c1 else c0))
                  (cmul (if Nat.eqb (i / d) (j / d) then nth (i / d) v c0 else c0)
                        (f (i mod d) (j mod d)))%nat))).
Proof.
  intros Hd Hu Hv.
  unfold diag, diag1, identity, identity_rows, kron.
  rewrite Hu, Hv, !kron2_mk_mat.
  apply add_mk_mat. lia.
Qed.

(** The forward gate has a 0 in its last diagonal entry (the controlled
    block ends in the Pauli-X block). *)
Lemma quantum_not_entries (n : nat) :
  exists f,
    quantum_not_gate_matrix (S n) = Ok (Arr2 (mk_mat (2 ^ S n) (2 ^ S n) f))
    /\ f (2 ^ S n - 1)%nat (2 ^ S n - 1)%nat = c0.
Proof.
  induction n as [|n IH].
  - exists (fun i j => if Nat.eqb i j then c0 else c1).
    split; vm_compute; reflexivity.
  - destruct n as [|m].
    + exists (fun i j => if Nat.eqb i j
                         then (if Nat.ltb i 2 then c1 else c0)
                         else (if Nat.eqb (i + j) 5 then c1 else c0)).
      split; vm_compute; reflexivity.
    + destruct IH as [f [Hf Hlast]].
      set (d := (2 ^ S (S m))%nat) in *.
      assert (Hd : (0 < d)%nat) by apply pow2_pos.
      rewrite qnot_step, Hf. cbn [rbind].
      unfold identityGate. rewrite pow2_nat. fold d.
      rewrite (controlled_block [c1; c0] [c0; c1] d f Hd eq_refl eq_refl).
      replace (2 ^ S (S (S m)))%nat with (2 * d)%nat by (unfold d; simpl; lia).
      eexists. split; [reflexivity|].
      cbv beta.
      destruct (last_index_split d Hd) as [-> ->].
      rewrite !Nat.eqb_refl, Hlast. vm_compute. reflexivity.
Qed.

(** The reverse gate has a 1 there (the controlled block ends in the
    identity block). *)
Lemma reverse_quantum_not_entries (m : nat) :
  exists g,
    reverse_quantum_not_gate_matrix (S (S m))
    = Ok (Arr2 (mk_mat (2 ^ S (S m)) (2 ^ S (S m)) g))
    /\ g (2 ^ S (S m) - 1)%nat (2 ^ S (S m) - 1)%nat = c1.
Proof.
  destruct m as [|m].
  - exists (fun i j => if Nat.eqb i j
                       then (if Nat.ltb i 2 then c0 else c1)
                       else (if Nat.eqb (i + j) 1 then c1 else c0)).
    split; vm_compute; reflexivity.
  - destruct (quantum_not_entries (S m)) as [f [Hf Hlast]].
    set (d := (2 ^ S (S m))%nat) in *.
    assert (Hd : (0 < d)%nat) by apply pow2_pos.
    rewrite reverse_step, Hf. cbn [rbind].
    unfold identityGate. rewrite pow2_nat. fold d.
    rewrite (controlled_block [c0; c1] [c1; c0] d f Hd eq_refl eq_refl).
    replace (2 ^ S (S (S m)))%nat with (2 * d)%nat by (unfold d; simpl; lia).
    eexists. split; [reflexivity|].
    cbv beta.
    destruct (last_index_split d Hd) as [-> ->].
    rewrite !Nat.eqb_refl, Hlast. vm_compute. reflexivity.
Qed.

Lemma reverse_differs_from_forward (m : nat) :
  reverse_quantum_not_gate_matrix (S (S m)) <> quantum_not_gate_matrix (S (S m)).
Proof.
  destruct (quantum_not_entries (S m)) as [f [Hf Hlast]].
  destruct (reverse_quantum_not_entries m) as [g [Hg Hglast]].
  rewrite Hf, Hg.
  pose proof (pow2_pos (S (S m))) as Hpos.
  set (d := (2 ^ S (S m))%nat) in *.
  intros H.
  assert (H' : mk_mat d d g = mk_mat d d f) by congruence.
  assert (E : get (mk_mat d d g) (d - 1) (d - 1)
              = get (mk_mat d d f) (d - 1) (d - 1))
    by (rewrite H'; reflexivity).
  rewrite !get_mk_mat in E by lia.
  rewrite Hlast, Hglast in E. discriminate E.
Qed.

(** C9: for [numQubits >= 3], [reverse_quantum_not_gate_matrix(numQubits)]
    is [diag(0,1) (x) I + diag(1,0) (x) quantum_not_gate_matrix(numQubits-1)]:
    the controlled block is the forward gate, which is not the reverse gate
    on [numQubits - 1] qubits. *)
Theorem reverse_not_embeds_forward_not (numQubits : nat) :
  (3 <= numQubits)%nat ->
  exists fwd r,
    quantum_not_gate_matrix (numQubits - 1) = Ok fwd
    /\ add (kron (diag (Arr1 [c0; c1])) (identity (2 ^ (numQubits - 1))))
           (kron (diag (Arr1 [c1; c0])) fwd) = Ok r
    /\ reverse_quantum_not_gate_matrix numQubits = Ok r
    /\ reverse_quantum_not_gate_matrix (numQubits - 1) <> Ok fwd.
Proof.
  intros Hn.
  destruct numQubits as [|[|[|m]]]; try lia.
  replace (S (S (S m)) - 1)%nat with (S (S m)) by lia.
  destruct (quantum_not_entries (S m)) as [f [Hf Hlast]].
  destruct (reverse_quantum_not_entries (S m)) as [g [Hg _]].
  rewrite reverse_step, Hf in Hg. cbn [rbind] in Hg.
  unfold identityGate in Hg. rewrite pow2_nat in Hg.
  eexists. eexists. split; [exact Hf|]. split; [exact Hg|]. split.
  - rewrite reverse_step, Hf. cbn [rbind].
    unfold identityGate. rewrite pow2_nat. exact Hg.
  - rewrite <- Hf. apply reverse_differs_from_forward.
Qed.

Lemma reverse_not_embeds_forward_not_witness :
  exists fwd r,
    quantum_not_gate_matrix 2 = Ok fwd
    /\ add (kron (diag (Arr1 [c0; c1])) (identity 4))
           (kron (diag (Arr1 [c1; c0])) fwd) = Ok r
    /\ reverse_quantum_not_gate_matrix 3 = Ok r
    /\ reverse_quantum_not_gate_matrix 2 <> Ok fwd.
Proof.
  apply (reverse_not_embeds_forward_not 3). lia.
Defined.

(** ** Shapes *)

Lemma length_upd {A : Type} (l : list A) (i : nat) (v : A) :
  length (upd l i v) = length l.
Proof.
  revert i. induction l as [|x l IH]; intros [|i]; simpl; auto.
Qed.

Lemma Forall_upd {A : Type} (P : A -> Prop) (l : list A) (i : nat) (v : A) :
  Forall P l -> P v -> Forall P (upd l i v).
Proof.
  intros H Hv. revert i.
  induction H as [|x l Hx Hl IH]; intros [|i]; simpl; constructor; auto.
Qed.

Lemma wf_nth (r c : nat) (m : list (list cnum)) (i : nat) :
  wf r c m -> (i < r)%nat -> length (nth i m []) = c.
Proof.
  intros [Hr Hc] Hi. rewrite Forall_forall in Hc.
  apply Hc, nth_In. lia.
Qed.

Lemma wf_ncols (r c : nat) (m : list (list cnum)) :
  wf r c m -> (0 < r)%nat -> ncols m = c.
Proof.
  intros H Hr. unfold ncols. rewrite <- (wf_nth r c m 0 H Hr).
  destruct m; reflexivity.
Qed.

Lemma wf_mk_mat (r c : nat) (f : nat -> nat -> cnum) : wf r c (mk_mat r c f).
Proof.
  unfold wf, mk_mat. split.
  - rewrite length_map, length_seq. reflexivity.
  - apply Forall_forall. intros row Hrow. apply in_map_iff in Hrow.
    destruct Hrow as [i [<- _]]. rewrite length_map, length_seq. reflexivity.
Qed.

Lemma py_index_ok (n : nat) (i : Z) :
  0 <= i < Z.of_nat n -> py_index n i = Ok (Z.to_nat i).
Proof.
  intros H. unfold py_index.
  replace (0 <=? i) with true by (symmetry; apply Z.leb_le; lia).
  replace (i <? Z.of_nat n) with true by (symmetry; apply Z.ltb_lt; lia).
  reflexivity.
Qed.

Lemma getitem_ok (r c : nat) (m : list (list cnum)) (i j : Z) :
  wf r c m -> 0 <= i < Z.of_nat r -> 0 <= j < Z.of_nat c ->
  getitem m i j = Ok (get m (Z.to_nat i) (Z.to_nat j)).
Proof.
  intros H Hi Hj. unfold getitem, nrows.
  rewrite (proj1 H), (py_index_ok r i Hi). cbn [rbind].
  rewrite (wf_nth r c m (Z.to_nat i) H) by lia.
  rewrite (py_index_ok c j Hj). reflexivity.
Qed.

Lemma setitem_ok (r c : nat) (m : list (list cnum)) (i j : Z) (f : cnum -> cnum) :
  wf r c m -> 0 <= i < Z.of_nat r -> 0 <= j < Z.of_nat c ->
  exists m', setitem m i j f = Ok m' /\ wf r c m'.
Proof.
  intros H Hi Hj. unfold setitem, nrows.
  rewrite (proj1 H), (py_index_ok r i Hi). cbn [rbind].
  rewrite (wf_nth r c m (Z.to_nat i) H) by lia.
  rewrite (py_index_ok c j Hj). cbn [rbind].
  eexists. split; [reflexivity|].
  destruct H as [Hr Hc]. split.
  - rewrite length_upd. exact Hr.
  - apply Forall_upd; [exact Hc|].
    rewrite length_upd. apply (wf_nth r c m); [split; assumption | lia].
Qed.







(** *** Integers that are not a power of two *)

Lemma wf_zeros2 (r c : nat) : wf r c (zeros2 r c).
Proof.
  unfold wf, zeros2. split; [apply repeat_length|].
  apply Forall_forall. intros row Hrow.
  apply repeat_spec in Hrow. subst row. apply repeat_length.
Qed.

(** Away from the powers of two the vector holds the index, and its size
    is the one of the least [r] with [argv < 2^r]. *)
Lemma from_int_not_power_of_two (zero one : ndarray) (argv : Z) (acc : pyval) :
  2 < argv ->
  let r := grow_qubits (Z.to_nat argv) 1 argv in
  argv <> 2 ^ Z.of_nat r ->
  2 ^ (Z.of_nat r - 1) < argv < 2 ^ Z.of_nat r
  /\ exists vec,
       get_qubit_vector r [argv] = Ok vec
       /\ from_int zero one argv acc = Ok (kron_py (PArr vec) acc).
Proof.
  intros Hv r Hne.
  destruct (grow_qubits_exits argv) as [Hr [Hhi Hlo]]. fold r in Hr, Hhi, Hlo.
  assert (Hlo' : 2 ^ (Z.of_nat r - 1) < argv).
  { destruct Hlo as [E | Hlo]; [|exact Hlo].
    rewrite E. change (2 ^ (Z.of_nat 1 - 1)) with 1. lia. }
  split; [lia|].
  assert (Hvec : exists vec, get_qubit_vector r [argv] = Ok vec).
  { unfold get_qubit_vector, set_row0, qubits_to_bits.
    destruct (setitem_ok 1 (Z.to_nat (2 ^ Z.of_nat r))
                (zeros2 1 (Z.to_nat (2 ^ Z.of_nat r))) 0 argv (fun _ => c1)
                (wf_zeros2 _ _)) as [m [Em _]]; try lia.
    rewrite Em. cbn [rbind List.length Nat.eqb]. eauto. }
  destruct Hvec as [vec Hvec]. exists vec. split; [exact Hvec|].
  unfold from_int.
  replace (argv =? 0) with false by (symmetry; apply Z.eqb_neq; lia).
  replace (argv =? 1) with false by (symmetry; apply Z.eqb_neq; lia).
  fold r. rewrite Hvec. reflexivity.
Qed.

(** ** The controlled modular-multiplication gates *)

Import ShorFactoringAlgorithm.



















(** In the whitelist the gate is built, with matrix work. *)
Example c_amod15_builds :
  exists m n', c_amod15 7 2 0%nat = (Ok m, n') /\ (0 < n')%nat.
Proof. eexists. eexists. split; [vm_compute; reflexivity | lia]. Qed.

(** ** The factorization orchestrator *)

(** *** Lists of factors *)

Lemma product_app (l1 l2 : list Z) : product (l1 ++ l2) = product l1 * product l2.
Proof.
  unfold product. induction l1 as [|x l1 IH]; simpl.
  - destruct (fold_right Z.mul 1 l2); reflexivity.
  - rewrite IH. ring.
Qed.

Lemma product_perm (l1 l2 : list Z) : Permutation l1 l2 -> product l1 = product l2.
Proof.
  unfold product. induction 1; simpl; lia.
Qed.

Lemma insert_sorted_perm (x : Z) (l : list Z) : Permutation (insert_sorted x l) (x :: l).
Proof.
  induction l as [|y l IH]; simpl.
  - apply Permutation_refl.
  - destruct (x <=? y).
    + apply Permutation_refl.
    + apply perm_trans with (y :: x :: l).
      * apply perm_skip, IH.
      * apply perm_swap.
Qed.

Lemma sorted_perm (l : list Z) : Permutation (sorted l) l.
Proof.
  induction l as [|x l IH]; simpl.
  - apply perm_nil.
  - apply perm_trans with (x :: sorted l).
    + apply insert_sorted_perm.
    + apply perm_skip, IH.
Qed.

Lemma insert_sorted_Sorted (x : Z) (l : list Z) :
  Sorted Z.le l -> Sorted Z.le (insert_sorted x l).
Proof.
  induction 1 as [|y l Hs IH Hhd]; simpl.
  - repeat constructor.
  - destruct (Z.leb_spec x y) as [Hle | Hgt].
    + constructor; [constructor; assumption | constructor; exact Hle].
    + constructor; [exact IH|].
      destruct l as [|z l]; simpl.
      * constructor. lia.
      * inversion Hhd; subst.
        destruct (x <=? z); constructor; lia.
Qed.

Lemma sorted_Sorted (l : list Z) : Sorted Z.le (sorted l).
Proof.
  induction l as [|x l IH]; simpl.
  - constructor.
  - apply insert_sorted_Sorted, IH.
Qed.

Lemma remove_first_length (l : list Z) :
  existsb (Z.eqb 1) l = true -> S (length (remove_first 1 l)) = length l.
Proof.
  induction l as [|y l IH]; cbn [existsb remove_first length]; [discriminate|].
  rewrite (Z.eqb_sym 1 y).
  destruct (y =? 1); cbn [orb length]; [reflexivity|]. intros H. now rewrite IH.
Qed.

Lemma remove_first_filter (l : list Z) :
  filter (fun x => negb (x =? 1)) (remove_first 1 l)
  = filter (fun x => negb (x =? 1)) l.
Proof.
  induction l as [|y l IH]; cbn [remove_first filter]; [reflexivity|].
  destruct (y =? 1) eqn:E; cbn [negb filter]; [reflexivity|].
  rewrite E. cbn [negb]. now rewrite IH.
Qed.

Lemma no_ones_filter (l : list Z) :
  existsb (Z.eqb 1) l = false -> filter (fun x => negb (x =? 1)) l = l.
Proof.
  induction l as [|y l IH]; cbn [existsb filter]; [reflexivity|].
  rewrite (Z.eqb_sym 1 y).
  destruct (y =? 1); cbn [orb negb]; [discriminate|]. intros H. now rewrite IH.
Qed.

(** The loop [while 1 in factorization: factorization.remove(1)] exits
    within [len(factorization)] passes, with every 1 removed. *)
Lemma remove_ones_filter (fuel : nat) (l : list Z) :
  (length l <= fuel)%nat ->
  remove_ones fuel l = filter (fun x => negb (x =? 1)) l.
Proof.
  revert l. induction fuel as [|fuel IH]; intros l Hl.
  - destruct l; [reflexivity | simpl in Hl; lia].
  - cbn [remove_ones]. destruct (existsb (Z.eqb 1) l) eqn:E.
    + rewrite IH, remove_first_filter; [reflexivity|].
      pose proof (remove_first_length l E). lia.
    + symmetry. apply no_ones_filter, E.
Qed.

Lemma product_filter_ones (l : list Z) :
  product (filter (fun x => negb (x =? 1)) l) = product l.
Proof.
  unfold product. induction l as [|y l IH]; cbn [filter fold_right]; [reflexivity|].
  destruct (Z.eqb_spec y 1) as [-> | Hy]; cbn [negb fold_right]; rewrite IH; lia.
Qed.

Lemma finish_spec (s : acc) :
  finish s
  = (Ok (sorted (filter (fun x => negb (x =? 1)) (factorization s))),
     mkAcc (num s) (filter (fun x => negb (x =? 1)) (factorization s)) (passes s)).
Proof.
  unfold finish. rewrite remove_ones_filter by lia. reflexivity.
Qed.

(** Whatever [finish] returns is a sorted list without 1 whose product is
    that of the accumulated factors. *)
Lemma finished_factor_list (N : Z) (l : list Z) :
  product l = N ->
  factor_list N (sorted (filter (fun x => negb (x =? 1)) l)).
Proof.
  intros H. split; [apply sorted_Sorted|]. split.
  - intros Hin.
    apply (Permutation_in _ (sorted_perm _)) in Hin.
    apply filter_In in Hin. destruct Hin as [_ Hin]. discriminate Hin.
  - rewrite (product_perm _ _ (sorted_perm _)), product_filter_ones. exact H.
Qed.

(** *** Arithmetic of one extraction *)

Lemma odd_factor (n d : Z) : Z.odd n = true -> (d | n) -> Z.odd d = true.
Proof.
  intros Hodd [k ->]. rewrite Z.odd_mul in Hodd.
  apply andb_true_iff in Hodd. tauto.
Qed.

Lemma gcd_pos_r (a n : Z) : 1 <= n -> 0 < Z.gcd a n.
Proof.
  intros Hn. pose proof (Z.gcd_nonneg a n) as H0.
  destruct (Z.eq_dec (Z.gcd a n) 0) as [E | E]; [|lia].
  apply Z.gcd_eq_0_r in E. lia.
Qed.

Lemma exact_quotient (n d : Z) : 1 <= n -> 0 < d -> (d | n) -> 1 <= n / d /\ n = d * (n / d).
Proof.
  intros Hn Hd [k Hk]. subst n.
  rewrite Z.div_mul by lia. split; [nia | ring].
Qed.

(** With [n] odd, [gcd(a, n)] and [gcd(b, n)] are coprime when [a - b = 2],
    so dividing [n] by the first does not change the second. *)
Lemma gcd_after_division (a b n : Z) :
  1 <= n -> Z.odd n = true ->
  a - b = 2 \/ (a = 1 /\ b = 0) ->
  Z.gcd b (n / Z.gcd a n) = Z.gcd b n.
Proof.
  intros Hn Hodd [Hab | [-> ->]].
  2:{ rewrite Z.gcd_1_l, Z.div_1_r. reflexivity. }
  pose proof (gcd_pos_r a n Hn) as Hd1.
  pose proof (Z.gcd_divide_l a n) as Hd1a.
  pose proof (Z.gcd_divide_r a n) as Hd1n.
  pose proof (Z.gcd_divide_l b n) as Hd2b.
  pose proof (Z.gcd_divide_r b n) as Hd2n.
  destruct (exact_quotient n (Z.gcd a n) Hn Hd1 Hd1n) as [Hq Hnq].
  set (d1 := Z.gcd a n) in *. set (d2 := Z.gcd b n) in *.
  set (q := n / d1) in *.
  apply Z.gcd_unique.
  - apply Z.gcd_nonneg.
  - exact Hd2b.
  - (* d2 divides q: Gauss, d2 and d1 being coprime *)
    apply (Z.gauss d2 d1 q).
    + rewrite <- Hnq. exact Hd2n.
    + pose proof (Z.gcd_nonneg d2 d1) as Hc0.
      pose proof (Z.gcd_divide_l d2 d1) as Hc2.
      pose proof (Z.gcd_divide_r d2 d1) as Hc1.
      assert (Hc : (Z.gcd d2 d1 | 2)).
      { replace 2 with (a - b) by lia.
        apply Z.divide_sub_r.
        - apply Z.divide_trans with d1; assumption.
        - apply Z.divide_trans with d2; assumption. }
      assert (Hcn : (Z.gcd d2 d1 | n))
        by (apply Z.divide_trans with d1; assumption).
      pose proof (odd_factor n _ Hodd Hcn) as Hco.
      assert (Hle : Z.gcd d2 d1 <= 2) by (apply Z.divide_pos_le; [lia | exact Hc]).
      destruct (Z.eq_dec (Z.gcd d2 d1) 0) as [E0 | E0].
      { rewrite E0 in Hc. destruct Hc as [k Hk]. lia. }
      destruct (Z.eq_dec (Z.gcd d2 d1) 2) as [E2 | E2].
      { rewrite E2 in Hco. discriminate Hco. }
      lia.
  - intros c Hcb Hcq. apply Z.gcd_greatest; [exact Hcb|].
    rewrite Hnq. apply Z.divide_mul_r. exact Hcq.
Qed.

Lemma quot_one_plus (P : positive) :
  (Z.quot (1 + Zpos P) (Zpos P) - Z.quot (1 - Zpos P) (Zpos P) = 2)
  \/ (Z.quot (1 + Zpos P) (Zpos P) = 1 /\ Z.quot (1 - Zpos P) (Zpos P) = 0).
Proof.
  assert (Hm : Z.quot (1 - Zpos P) (Zpos P) = 0).
  { replace (1 - Zpos P) with (- (Zpos P - 1)) by lia.
    rewrite Z.quot_opp_l by lia. rewrite Z.quot_small by lia. reflexivity. }
  destruct (Pos.eq_dec P 1) as [-> | HP].
  - left. reflexivity.
  - right. split; [|exact Hm].
    rewrite Z.quot_div_nonneg by lia.
    symmetry. apply (Z.div_unique _ _ 1 1); lia.
Qed.

(** What the orchestrator reads off [x = guessFactor ** (period / 2)]:
    [int(x + 1)] and [int(x - 1)] differ by 2, or are 1 and 0 (for a
    fractional [x]). *)
Lemma py_pow_ints (g e : Z) (x : Q) :
  py_pow g e = Ok x ->
  py_int (x + 1) - py_int (x - 1) = 2
  \/ (py_int (x + 1) = 1 /\ py_int (x - 1) = 0).
Proof.
  unfold py_pow. destruct (e <? 0).
  - intros H. injection H as <-.
    unfold py_int, Qminus, Qplus, Qopp. cbn [Qnum Qden].
    rewrite !Pos.mul_1_r.
    replace (1 * 1 + 1 * Zpos (Z.to_pos (g ^ (- e))))
      with (1 + Zpos (Z.to_pos (g ^ (- e)))) by lia.
    replace (1 * 1 + -1 * Zpos (Z.to_pos (g ^ (- e))))
      with (1 - Zpos (Z.to_pos (g ^ (- e)))) by lia.
    apply quot_one_plus.
  - destruct (FLOAT_LIMIT <=? g ^ e); [discriminate|].
    intros H. injection H as <-. left.
    unfold py_int, Qminus, Qplus, Qopp, inject_Z. cbn [Qnum Qden].
    change (Zpos (1 * 1)) with 1. rewrite !Z.quot_1_r. lia.
Qed.

Lemma py_pow_raises (g e : Z) (ex : exn) :
  py_pow g e = Raise ex -> ex = OverflowError.
Proof.
  unfold py_pow. destruct (e <? 0); [discriminate|].
  destruct (FLOAT_LIMIT <=? g ^ e); [|discriminate].
  intros H. injection H as <-. reflexivity.
Qed.

(** Moving a divisor of the cofactor into the factor list keeps the
    invariant. *)
Lemma inv_move_divisor (N d : Z) (n : Z) (l : list Z) (k k' : nat) :
  inv N (mkAcc n l k) -> 0 < d -> (d | n) ->
  inv N (mkAcc (n / d) (l ++ [d]) k').
Proof.
  unfold inv. cbn [num factorization].
  intros [Hn [Hodd Hprod]] Hd Hdn.
  destruct (exact_quotient n d Hn Hd Hdn) as [Hq Hnq].
  split; [exact Hq|]. split.
  - apply (odd_factor n); [exact Hodd|].
    exists d. exact Hnq.
  - rewrite product_app. unfold product at 2. cbn [fold_right].
    rewrite <- Hprod. rewrite Hnq at 2. ring.
Qed.

(** *** One pass of the main loop *)

Section OrchestratorFacts.

Variable func : Z -> Z -> result Z.
Variable quick_compute : bool.

Lemma inv_started (N : Z) (s : acc) : inv N s -> inv N (started s).
Proof. intros H. exact H. Qed.

Lemma product_snoc (l : list Z) (x : Z) : product (l ++ [x]) = product l * x.
Proof.
  rewrite product_app. unfold product at 2. cbn [fold_right]. ring.
Qed.

(** The extraction keeps the invariant, returns a factor list of the input
    when it returns, and raises nothing but the overflow of its first
    power, before it has changed anything. *)
Lemma extract_spec (N g p : Z) (s : acc) :
  inv N s ->
  match extract quick_compute g p s with
  | (Ok Next, s') => inv N s' /\ passes s' = passes s
  | (Ok (Return l), s') => factor_list N l /\ passes s' = passes s
  | (Raise e, s') => e = OverflowError /\ s' = s
  end.
Proof.
  intros Hinv. destruct s as [n l k].
  unfold extract, mbind, lift, get_num, append, div_num, mret.
  destruct (py_pow g (p / 2)) as [x | e] eqn:Hpow.
  2:{ split; [exact (py_pow_raises _ _ _ Hpow) | reflexivity]. }
  cbn [num factorization passes]. unfold FactorFuncs.gcd.
  pose proof (py_pow_ints g (p / 2) x Hpow) as Hab.
  set (a := py_int (x + 1)) in *. set (b := py_int (x - 1)) in *.
  assert (Hn : 1 <= n) by exact (proj1 Hinv).
  assert (Hodd : Z.odd n = true) by exact (proj1 (proj2 Hinv)).
  rewrite (gcd_after_division a b n Hn Hodd Hab).
  assert (H1 : inv N (mkAcc (n / Z.gcd a n) (l ++ [Z.gcd a n]) k)).
  { apply inv_move_divisor with (k := k);
      [exact Hinv | apply gcd_pos_r; exact Hn | apply Z.gcd_divide_r]. }
  assert (H2 : inv N (mkAcc (n / Z.gcd a n / Z.gcd b n)
                        ((l ++ [Z.gcd a n]) ++ [Z.gcd b n]) k)).
  { rewrite <- (gcd_after_division a b n Hn Hodd Hab).
    apply inv_move_divisor with (k := k);
      [exact H1 | apply gcd_pos_r; exact (proj1 H1) | apply Z.gcd_divide_r]. }
  set (s2 := mkAcc (n / Z.gcd a n / Z.gcd b n)
               ((l ++ [Z.gcd a n]) ++ [Z.gcd b n]) k) in *.
  assert (K2 : passes s2 = k) by reflexivity.
  clearbody s2. clear H1. destruct s2 as [n2 l2 k2].
  cbn [passes] in K2. subst k2.
  assert (H21 : inv N (mkAcc (n2 / Z.gcd g n2) (l2 ++ [Z.gcd g n2]) k)).
  { apply inv_move_divisor with (k := k);
      [exact H2 | apply gcd_pos_r; exact (proj1 H2) | apply Z.gcd_divide_r]. }
  assert (H22 : inv N (mkAcc (n2 / Z.gcd g n2 / Z.gcd g (n2 / Z.gcd g n2))
                         ((l2 ++ [Z.gcd g n2]) ++ [Z.gcd g (n2 / Z.gcd g n2)]) k)).
  { apply inv_move_divisor with (k := k);
      [exact H21 | apply gcd_pos_r; exact (proj1 H21) | apply Z.gcd_divide_r]. }
  destruct (p =? 2), quick_compute; cbv beta; cbn [num factorization passes];
    try rewrite finish_spec; cbn [num factorization passes];
    (split; [|reflexivity]);
    try (apply finished_factor_list; rewrite product_snoc);
    try apply H22; try apply H2; try exact H22; try exact H2.
Qed.

(** The statements under [try ... except OverflowError]: an exception
    leaves the accumulator as it was. *)
Lemma attempt_spec (N g : Z) (s : acc) :
  inv N s ->
  match attempt func quick_compute g s with
  | (Ok Next, s') => inv N s' /\ passes s' = passes s
  | (Ok (Return l), s') => factor_list N l /\ passes s' = passes s
  | (Raise e, s') =>
      s' = s /\ e <> ValueError
      /\ (e = OverflowError \/ func (num s) g = Raise e)
  end.
Proof.
  intros Hinv.
  unfold attempt, mbind, get_num, try_except, lift, mret.
  destruct (negb (g =? num s) && negb (g mod num s =? 0)); [|auto].
  destruct (func (num s) g) as [p | e] eqn:Hf.
  2:{ destruct e; cbn [exn_eqb]; auto;
      (split; [reflexivity | split; [discriminate | right; reflexivity]]). }
  destruct (negb (p mod 2 =? 1)); [|auto].
  destruct (py_pow g (p / 2)) as [x | e] eqn:Hpow.
  2:{ pose proof (py_pow_raises _ _ _ Hpow) as ->.
      split; [reflexivity | split; [discriminate | left; reflexivity]]. }
  destruct (mod_nonzero (x + 1) (num s)); [|auto].
  destruct (mod_nonzero (x - 1) (num s)); [|auto].
  pose proof (extract_spec N g p s Hinv) as He.
  destruct (extract quick_compute g p s) as [[[l' |] | e] s'].
  - exact He.
  - exact He.
  - destruct He as [-> ->].
    split; [reflexivity | split; [discriminate | left; reflexivity]].
Qed.

Lemma sqrt_square_quotient (n : Z) :
  1 <= n -> Z.sqrt n ^ 2 = n -> Z.sqrt n * Z.sqrt n * (n / Z.sqrt n ^ 2) = n.
Proof.
  intros Hn Hsq. rewrite Hsq, Z.div_same by lia. rewrite <- Hsq at 3. ring.
Qed.

(** One pass: it is counted, it keeps the invariant, what it returns is a
    factor list of the input, and the only exception that leaves it is one
    of the period function that is neither [ValueError] nor
    [OverflowError]. *)
Lemma pass_spec (N r : Z) (s : acc) :
  inv N s ->
  match pass func quick_compute r s with
  | (Ok Next, s') => inv N s' /\ passes s' = S (passes s)
  | (Ok (Return l), s') => factor_list N l /\ passes s' = S (passes s)
  | (Raise e, s') =>
      s' = started s /\ e <> ValueError /\ e <> OverflowError
      /\ exists g, func (num s) g = Raise e
  end.
Proof.
  intros Hinv. pose proof (inv_started N s Hinv) as Hinv'.
  unfold pass, mbind at 1. unfold start_pass. fold (started s).
  unfold mbind at 1. unfold get_num at 1.
  change (num (started s)) with (num s).
  destruct (num s =? 1) eqn:E1.
  - unfold mbind, append, mret. rewrite finish_spec.
    cbn [num factorization passes started]. split; [|reflexivity].
    apply finished_factor_list. rewrite product_snoc. apply Hinv.
  - destruct (FactorFuncs.isqrt (num s) ^ 2 =? num s) eqn:E2.
    + apply Z.eqb_eq in E2. unfold FactorFuncs.isqrt in E2.
      unfold mbind, append, div_num, get_num, mret. rewrite finish_spec.
      cbn [num factorization passes started]. split; [|reflexivity].
      apply finished_factor_list. rewrite !product_snoc.
      pose proof (sqrt_square_quotient (num s) (proj1 Hinv) E2) as Hq.
      pose proof (proj2 (proj2 Hinv)) as Hp.
      transitivity (product (factorization s)
                    * (Z.sqrt (num s) * Z.sqrt (num s)
                       * (num s / Z.sqrt (num s) ^ 2))); [ring|].
      rewrite Hq. exact Hp.
    + unfold mbind at 1. unfold try_except at 1.
      unfold mbind at 1. unfold get_num at 1. unfold mbind at 1. unfold lift at 1.
      change (num (started s)) with (num s).
      destruct (randint 3 (num s - 1) r) as [g | e] eqn:Hr.
      * unfold mret at 1. unfold try_except.
        pose proof (attempt_spec N g (started s) Hinv') as Ha.
        destruct (attempt func quick_compute g (started s)) as [[[l' |] | e] s'].
        -- exact Ha.
        -- exact Ha.
        -- destruct Ha as [-> [Hv Ho]].
           destruct e; cbn [exn_eqb]; try (exfalso; apply Hv; reflexivity);
             try (unfold mret; split; [exact Hinv' | reflexivity]);
             (split; [reflexivity|]; split; [discriminate|]; split; [discriminate|];
              destruct Ho as [Ho | Ho]; [discriminate Ho | exists g; exact Ho]).
      * assert (e = ValueError) as ->.
        { unfold randint in Hr. destruct (num s - 1 <? 3); [|discriminate].
          injection Hr as <-. reflexivity. }
        cbn [exn_eqb]. unfold mret. split; [exact Hinv' | reflexivity].
Qed.

End OrchestratorFacts.

(** *** The loops *)

Section LoopFacts.

Variable func : Z -> Z -> result Z.
Variable quick_compute : bool.

(** The main loop makes at most [limit] passes ([limit] exactly when it
    runs out of them). *)
Lemma main_loop_spec (N : Z) (rnd : nat -> Z) (limit i : nat) (s : acc) :
  inv N s ->
  match main_loop func quick_compute rnd limit i s with
  | (Ok Next, s') => inv N s' /\ passes s' = (passes s + limit)%nat
  | (Ok (Return l), s') => factor_list N l /\ (passes s' <= passes s + limit)%nat
  | (Raise e, s') =>
      (passes s' <= passes s + limit)%nat
      /\ e <> ValueError /\ e <> OverflowError
      /\ exists n g, func n g = Raise e
  end.
Proof.
  revert i s. induction limit as [|limit IH]; intros i s Hinv; cbn [main_loop].
  - unfold mret. split; [exact Hinv | lia].
  - unfold mbind.
    pose proof (pass_spec func quick_compute N (rnd i) s Hinv) as Hp.
    destruct (pass func quick_compute (rnd i) s) as [[[l |] | e] s1].
    + unfold mret. destruct Hp as [Hl Hk]. split; [exact Hl | lia].
    + destruct Hp as [Hinv1 Hk].
      specialize (IH (S i) s1 Hinv1).
      destruct (main_loop func quick_compute rnd limit (S i) s1) as [[[l |] | e] s2].
      * destruct IH as [Hl Hk2]. split; [exact Hl | lia].
      * destruct IH as [Hinv2 Hk2]. split; [exact Hinv2 | lia].
      * destruct IH as [Hk2 Hrest]. split; [lia | exact Hrest].
    + destruct Hp as [-> [Hv [Ho [g Hg]]]].
      unfold started. cbn [passes].
      split; [lia|]. split; [exact Hv|]. split; [exact Ho|].
      exists (num s), g. exact Hg.
Qed.

(** A stripping loop on a positive cofactor exits, having moved copies of
    [d] from the cofactor to the factor list. *)
Lemma strip_spec (d : Z) (fuel : nat) (s : acc) :
  2 <= d -> 1 <= num s -> (Z.to_nat (num s) <= fuel)%nat ->
  exists s',
    strip fuel d s = Some s'
    /\ 1 <= num s' <= num s
    /\ (num s' | num s)
    /\ num s' mod d <> 0
    /\ product (factorization s') * num s' = product (factorization s) * num s
    /\ passes s' = passes s.
Proof.
  intros Hd. revert s. induction fuel as [|fuel IH]; intros s Hn Hf.
  - lia.
  - cbn [strip]. destruct (Z.eqb_spec (num s mod d) 0) as [E | E].
    + assert (Hdiv : (d | num s)) by (apply Z.mod_divide; [lia | exact E]).
      destruct (exact_quotient (num s) d Hn ltac:(lia) Hdiv) as [Hq Hnq].
      assert (Hlt : num s / d < num s) by nia.
      destruct (IH (mkAcc (num s / d) (factorization s ++ [d]) (passes s)))
        as [s' [Es [Hb [Hdv [Hm [Hp Hk]]]]]]; cbn [num factorization passes] in *;
        try lia.
      exists s'. split; [exact Es|]. split; [lia|]. split.
      { apply Z.divide_trans with (num s / d); [exact Hdv|].
        exists d. exact Hnq. }
      split; [exact Hm|]. split; [|exact Hk].
      rewrite Hp, product_snoc. rewrite Hnq at 2. ring.
    + exists s. repeat split; auto; try lia. apply Z.divide_refl.
Qed.


(** The whole call on [n >= 1], with a period function that raises nothing
    but what the loop catches. *)
Lemma run_spec (fuel : nat) (rnd : nat -> Z) (n : Z) (limit : nat) :
  1 <= n -> caught_only func -> (Z.to_nat n <= fuel)%nat ->
  exists s2 s5 l s,
    strip fuel 2 (mkAcc n [] 0) = Some s2
    /\ strip fuel 5 s2 = Some s5
    /\ inv n s5
    /\ run func quick_compute fuel rnd n limit = Some (Ok l, s)
    /\ factor_list n l
    /\ (passes s <= limit)%nat
    /\ (forall s', main_loop func quick_compute rnd limit 0 s5 = (Ok Next, s') ->
          passes s' = limit
          /\ l = sorted (filter (fun x => negb (x =? 1))
                           (factorization s' ++ [num s']))).
Proof.
  intros Hn Hfunc Hfuel.
  destruct (strip_spec 2 fuel (mkAcc n [] 0)) as [s2 [E2 [B2 [D2 [M2 [P2 K2]]]]]];
    cbn [num factorization passes] in *; try lia.
  destruct (strip_spec 5 fuel s2) as [s5 [E5 [B5 [D5 [M5 [P5 K5]]]]]]; try lia.
  assert (Hinv : inv n s5).
  { split; [lia|]. split.
    - apply (odd_factor (num s2)); [|exact D5].
      pose proof (Zmod_odd (num s2)) as Ho.
      destruct (Z.odd (num s2)); [reflexivity | contradiction].
    - rewrite P5, P2. unfold product. cbn [fold_right]. lia. }
  exists s2, s5.
  unfold run. rewrite E2, E5. unfold after_strip, mbind.
  pose proof (main_loop_spec n rnd limit 0 s5 Hinv) as Hm.
  destruct (main_loop func quick_compute rnd limit 0 s5) as [[[l |] | e] s'].
  - destruct Hm as [Hl Hk]. exists l, s'. unfold mret.
    split; [reflexivity|]. split; [reflexivity|]. split; [exact Hinv|].
    split; [reflexivity|]. split; [exact Hl|]. split; [lia|].
    intros s'' H. discriminate H.
  - destruct Hm as [Hinv' Hk].
    unfold get_num, append. rewrite finish_spec. cbn [num factorization passes].
    eexists. eexists. split; [reflexivity|]. split; [reflexivity|].
    split; [exact Hinv|]. split; [reflexivity|]. split.
    + apply finished_factor_list. rewrite product_snoc. apply Hinv'.
    + cbn [passes]. split; [lia|].
      intros s'' H. injection H as <-. split; [lia | reflexivity].
  - destruct Hm as [_ [Hv [Ho [m [g Hg]]]]].
    destruct (Hfunc m g e Hg); contradiction.
Qed.

End LoopFacts.

Lemma period_search_caught (fuel : nat) (modulus base a r : Z) (e : exn) :
  FactorFuncs.period_search fuel modulus base a r = Raise e -> e = ValueError.
Proof.
  revert a r. induction fuel as [|fuel IH]; intros a r; cbn [FactorFuncs.period_search].
  - intros H. injection H as <-. reflexivity.
  - destruct (a =? 1); [discriminate | apply IH].
Qed.

Lemma period_caught_only : caught_only FactorFuncs.period.
Proof.
  intros n g e H. left. exact (period_search_caught _ _ _ _ _ _ H).
Qed.


(** *** The statements about the orchestrator *)



(** The numbers the specification lists, with the classical period
    function. *)
Example shor_on_listed_numbers :
  ShorFactoringAlgorithmClassical FactorFuncs.period false 100 (fun _ => 0) 15 5
  = Some (Ok [3; 5])
  /\ ShorFactoringAlgorithmClassical FactorFuncs.period false 100 (fun _ => 5) 21 5
     = Some (Ok [3; 7])
  /\ ShorFactoringAlgorithmClassical FactorFuncs.period false 100 (fun _ => 0) 35 5
     = Some (Ok [5; 7])
  /\ ShorFactoringAlgorithmClassical FactorFuncs.period false 100 (fun _ => 0) 100 5
     = Some (Ok [2; 2; 5; 5]).
Proof. repeat split; vm_compute; reflexivity. Qed.

Example shor_on_9973_times_17 (rnd : nat -> Z) (limit : nat) :
  exists l s,
    run FactorFuncs.period false (Z.to_nat 169541) rnd 169541 limit = Some (Ok l, s)
    /\ factor_list (9973 * 17) l.
Proof.
  destruct (run_spec FactorFuncs.period false (Z.to_nat 169541) rnd 169541 limit
              ltac:(lia) period_caught_only (le_n _))
    as [s2 [s5 [l [s [_ [_ [_ [Hrun [Hl _]]]]]]]]].
  exists l, s. split; [exact Hrun | exact Hl].
Qed.



(** With a limit of 3 and unlucky draws, 77 comes back unfactored after
    exactly 3 passes. *)
Example shor_exhausted_on_77 :
  run FactorFuncs.period false 77 (fun _ => 1) 77 3
  = Some (Ok [77], mkAcc 77 [77] 3).
Proof. vm_compute. reflexivity. Qed.

Section CaughtErrors.

Variable func : Z -> Z -> result Z.
Variable quick_compute : bool.




End CaughtErrors.



(** A period function that always fails validation, and one whose periods
    make the power overflow: the runs still return. *)
Example period_errors_do_not_escape :
  ShorFactoringAlgorithmClassical (fun _ _ => Raise ValueError) false 21
    (fun _ => 0) 21 4 = Some (Ok [21])
  /\ ShorFactoringAlgorithmClassical (fun _ _ => Ok 2000) false 21
       (fun _ => 0) 21 4 = Some (Ok [21])
  /\ py_pow 3 (2000 / 2) = Raise OverflowError.
Proof. repeat split; vm_compute; reflexivity. Qed.



(* ================================================================= *)
(** * Further properties of the code *)

(** ** Numbers in lowest terms *)

Lemma cnorm_idem (x : cnum) : cnorm (cnorm x) = cnorm x.
Proof.
  unfold cnorm. cbn [re1 re2 im1 im2].
  now rewrite !(Qred_complete _ _ (Qred_correct _)).
Qed.

Lemma cnorm_eq (a b c d a' b' c' d' : Q) :
  (a == a')%Q -> (b == b')%Q -> (c == c')%Q -> (d == d')%Q ->
  cnorm (mkC a b c d) = cnorm (mkC a' b' c' d').
Proof.
  intros Ha Hb Hc Hd. unfold cnorm. cbn [re1 re2 im1 im2].
  now rewrite (Qred_complete _ _ Ha), (Qred_complete _ _ Hb),
    (Qred_complete _ _ Hc), (Qred_complete _ _ Hd).
Qed.

Lemma cadd_c0_r (x : cnum) : cadd x c0 = cnorm x.
Proof.
  destruct x as [a b c d]. unfold cadd, c0, of_Z. cbn [re1 re2 im1 im2].
  apply cnorm_eq; unfold inject_Z; ring.
Qed.

Lemma cadd_c0_l (x : cnum) : cadd c0 x = cnorm x.
Proof.
  destruct x as [a b c d]. unfold cadd, c0, of_Z. cbn [re1 re2 im1 im2].
  apply cnorm_eq; unfold inject_Z; ring.
Qed.

Lemma cmul_c1_r (x : cnum) : cmul x c1 = cnorm x.
Proof.
  destruct x as [a b c d]. unfold cmul, c1, of_Z.
  apply cnorm_eq; unfold inject_Z; ring.
Qed.

Lemma cmul_c1_l (x : cnum) : cmul c1 x = cnorm x.
Proof.
  destruct x as [a b c d]. unfold cmul, c1, of_Z.
  apply cnorm_eq; unfold inject_Z; ring.
Qed.

Lemma cmul_c0_r (x : cnum) : cmul x c0 = c0.
Proof.
  destruct x as [a b c d]. unfold cmul, c0, of_Z.
  change (mkC (inject_Z 0) 0 0 0) with (cnorm (mkC 0 0 0 0)).
  apply cnorm_eq; unfold inject_Z; ring.
Qed.

Lemma cmul_c0_l (x : cnum) : cmul c0 x = c0.
Proof.
  destruct x as [a b c d]. unfold cmul, c0, of_Z.
  change (mkC (inject_Z 0) 0 0 0) with (cnorm (mkC 0 0 0 0)).
  apply cnorm_eq; unfold inject_Z; ring.
Qed.

Lemma canon_cnorm (x : cnum) : canon (cnorm x).
Proof. apply cnorm_idem. Qed.

Lemma canon_cadd (x y : cnum) : canon (cadd x y).
Proof. unfold cadd. apply canon_cnorm. Qed.

Lemma canon_cmul (x y : cnum) : canon (cmul x y).
Proof. destruct x, y. unfold cmul. apply canon_cnorm. Qed.

Lemma canon_c0 : canon c0.
Proof. reflexivity. Qed.

Lemma canon_c1 : canon c1.
Proof. reflexivity. Qed.

Lemma cmul_c1_r_canon (x : cnum) : canon x -> cmul x c1 = x.
Proof. intros H. rewrite cmul_c1_r. exact H. Qed.

Lemma cadd_c0_r_canon (x : cnum) : canon x -> cadd x c0 = x.
Proof. intros H. rewrite cadd_c0_r. exact H. Qed.

Lemma cadd_c0_l_canon (x : cnum) : canon x -> cadd c0 x = x.
Proof. intros H. rewrite cadd_c0_l. exact H. Qed.

(** ** More on the basis vectors *)

Lemma args_loop_app (zero one : ndarray) (rec : string -> result ndarray)
  (a b : list pyarg) (acc : pyval) :
  args_loop zero one rec (a ++ b) acc
  = (acc' <- args_loop zero one rec a acc ;; args_loop zero one rec b acc').
Proof.
  revert acc. induction a as [|x a IH]; intros acc; cbn [app args_loop].
  - reflexivity.
  - destruct x as [z | arr | s | [z | e]].
    + destruct (from_int zero one z acc); cbn [rbind]; [apply IH | reflexivity].
    + apply IH.
    + destruct (rec s); cbn [rbind]; [apply IH | reflexivity].
    + destruct (from_int zero one z acc); cbn [rbind]; [apply IH | reflexivity].
    + destruct e; try reflexivity. apply IH.
Qed.

Lemma get_body_skips (zero one : ndarray) (rec : string -> result ndarray)
  (l1 l2 : list pyarg) (qs : string) :
  get_body zero one rec (l1 ++ AOther (Raise TypeError) :: l2) qs
  = get_body zero one rec (l1 ++ l2) qs.
Proof.
  unfold get_body.
  destruct (add _ _) as [plus|]; [|reflexivity]. cbn [rbind].
  destruct (sub _ _) as [minus|]; [|reflexivity]. cbn [rbind].
  assert (E : (if negb (Nat.eqb (List.length (l1 ++ AOther (Raise TypeError) :: l2)) 0)
               then args_loop zero one rec
                      (rev (l1 ++ AOther (Raise TypeError) :: l2)) (PInt 1)
               else Ok (PInt 1))
              = (if negb (Nat.eqb (List.length (l1 ++ l2)) 0)
                 then args_loop zero one rec (rev (l1 ++ l2)) (PInt 1)
                 else Ok (PInt 1))).
  { assert (Hl : negb (Nat.eqb (List.length (l1 ++ AOther (Raise TypeError) :: l2)) 0)
                 = true).
    { rewrite length_app. cbn [List.length].
      destruct (Nat.eqb_spec (List.length l1 + S (List.length l2)) 0); [lia | reflexivity]. }
    rewrite Hl.
    assert (Hloop : args_loop zero one rec
                      (rev (l1 ++ AOther (Raise TypeError) :: l2)) (PInt 1)
                    = args_loop zero one rec (rev (l1 ++ l2)) (PInt 1)).
    { rewrite !rev_app_distr. cbn [rev]. rewrite <- app_assoc.
      rewrite !args_loop_app.
      destruct (args_loop zero one rec (rev l2) (PInt 1)); reflexivity. }
    rewrite Hloop.
    destruct (l1 ++ l2) as [|x l]; reflexivity. }
  rewrite E. reflexivity.
Qed.

(** X1: a positional argument that is neither an array, a [str] nor an
    [int], and whose [int(argv)] raises [TypeError], is skipped: the result
    is the one without it, wherever it stands among the arguments. *)
Theorem get_vec_skips_unconvertible_argument
  (l1 l2 : list pyarg) (qs : string) :
  get_ket (l1 ++ AOther (Raise TypeError) :: l2) qs = get_ket (l1 ++ l2) qs
  /\ get_bra (l1 ++ AOther (Raise TypeError) :: l2) qs = get_bra (l1 ++ l2) qs.
Proof.
  split; apply get_body_skips.
Qed.

Section SymbolFacts.

Variables zero one plus minus : ndarray.
Hypothesis Hplus : add (div_scalar zero sqrt2) (div_scalar one sqrt2) = Ok plus.
Hypothesis Hminus : sub (div_scalar zero sqrt2) (div_scalar one sqrt2) = Ok minus.

Lemma is_symbol_dec (c : ascii) :
  {is_symbol c} + {Ascii.eqb c "0" = false /\ Ascii.eqb c "1" = false
                   /\ Ascii.eqb c "+" = false /\ Ascii.eqb c "-" = false}.
Proof.
  unfold is_symbol.
  destruct (Ascii.eqb_spec c "0"); [left; auto|].
  destruct (Ascii.eqb_spec c "1"); [left; auto|].
  destruct (Ascii.eqb_spec c "+"); [left; auto|].
  destruct (Ascii.eqb_spec c "-"); [left; auto|].
  right. auto.
Qed.

(** The loop over the characters stops at the first one it does not
    know. *)
Lemma string_loop_unsupported (qs : string) (tmp : pyval) :
  (exists c, In c (list_ascii_of_string qs) /\ ~ is_symbol c) ->
  string_loop zero one plus minus qs tmp = Raise ValueError.
Proof.
  revert tmp. induction qs as [|c qs IH]; intros tmp [b [Hin Hb]].
  - destruct Hin.
  - cbn [string_loop].
    destruct (is_symbol_dec c) as [Hc | [E0 [E1 [E2 E3]]]].
    + assert (Hrest : exists c', In c' (list_ascii_of_string qs) /\ ~ is_symbol c').
      { exists b. split; [|exact Hb].
        destruct Hin as [<- | Hin]; [contradiction | exact Hin]. }
      destruct Hc as [-> | [-> | [-> | ->]]]; cbn [Ascii.eqb rbind];
        apply IH; exact Hrest.
    + rewrite E0, E1, E2, E3. reflexivity.
Qed.

Lemma string_nonempty_of_char (qs : string) (c : ascii) :
  In c (list_ascii_of_string qs) ->
  negb (Nat.eqb (String.length qs) 0) = true.
Proof.
  destruct qs; [intros [] | reflexivity].
Qed.

Lemma get_vec_unsupported (xs : list Z) (qs : string) :
  Forall is_bit xs ->
  (exists c, In c (list_ascii_of_string qs) /\ ~ is_symbol c) ->
  get_vec zero one (map AInt xs) qs = Raise ValueError.
Proof.
  intros Hxs Hbad. unfold get_vec, get_body.
  rewrite Hplus, Hminus. cbn [rbind].
  assert (Hargs : exists acc,
             (if negb (Nat.eqb (List.length (map AInt xs)) 0)
              then args_loop zero one (get_string zero one) (rev (map AInt xs)) (PInt 1)
              else Ok (PInt 1)) = Ok acc).
  { destruct (negb _); [|eauto].
    rewrite (args_loop_rev_bits zero one _ xs Hxs). eauto. }
  destruct Hargs as [acc ->]. cbn [rbind].
  destruct Hbad as [c [Hin Hc]].
  rewrite (string_nonempty_of_char qs c Hin).
  rewrite string_loop_unsupported by eauto. reflexivity.
Qed.

Lemma get_vec_unsupported_str (args : list pyarg) (s qs : string) :
  (exists c, In c (list_ascii_of_string s) /\ ~ is_symbol c) ->
  get_vec zero one (args ++ [AStr s]) qs = Raise ValueError.
Proof.
  intros Hbad. unfold get_vec. unfold get_body at 1.
  rewrite Hplus, Hminus. cbn [rbind].
  rewrite length_app, rev_app_distr. cbn [List.length rev app].
  replace (negb (Nat.eqb (List.length args + 1) 0)) with true
    by (destruct (Nat.eqb_spec (List.length args + 1) 0); [lia | reflexivity]).
  cbn [args_loop].
  assert (E : get_string zero one s = Raise ValueError).
  { unfold get_string, get_body. rewrite Hplus, Hminus.
    cbn [rbind List.length Nat.eqb negb].
    destruct Hbad as [c [Hin Hc]].
    rewrite (string_nonempty_of_char s c Hin).
    rewrite string_loop_unsupported by eauto. reflexivity. }
  rewrite E. reflexivity.
Qed.

End SymbolFacts.

(** X2: a character outside [0], [1], [+], [-] makes [get_ket] and
    [get_bra] raise [ValueError], whether it stands in the [qubit_string]
    (the positional arguments being bits) or in a [str] passed as the last
    positional argument (whatever the other arguments). *)
Theorem get_vec_unsupported_symbol
  (xs : list Z) (args : list pyarg) (s qs : string) :
  Forall is_bit xs ->
  (exists c, In c (list_ascii_of_string s) /\ ~ is_symbol c) ->
  get_ket (map AInt xs) s = Raise ValueError
  /\ get_bra (map AInt xs) s = Raise ValueError
  /\ get_ket (args ++ [AStr s]) qs = Raise ValueError
  /\ get_bra (args ++ [AStr s]) qs = Raise ValueError.
Proof.
  intros Hxs Hbad. repeat split.
  - exact (get_vec_unsupported zero_ket one_ket plus_ket minus_ket
             ket_plus_ok ket_minus_ok xs s Hxs Hbad).
  - exact (get_vec_unsupported zero_bra one_bra plus_bra minus_bra
             bra_plus_ok bra_minus_ok xs s Hxs Hbad).
  - exact (get_vec_unsupported_str zero_ket one_ket plus_ket minus_ket
             ket_plus_ok ket_minus_ok args s qs Hbad).
  - exact (get_vec_unsupported_str zero_bra one_bra plus_bra minus_bra
             bra_plus_ok bra_minus_ok args s qs Hbad).
Qed.

Lemma get_vec_unsupported_symbol_witness :
  get_ket [AInt 1] "0x1" = Raise ValueError
  /\ get_ket [AInt 2; AStr "0x1"] "01" = Raise ValueError.
Proof.
  assert (Hbad : exists c, In c (list_ascii_of_string "0x1") /\ ~ is_symbol c).
  { exists "x"%char. split; [simpl; auto|].
    unfold is_symbol. intros [H | [H | [H | H]]]; discriminate H. }
  pose proof (get_vec_unsupported_symbol [1] [AInt 2] "0x1" "01"
                (Forall_cons 1 (or_intror eq_refl) (Forall_nil _)) Hbad) as H.
  split; [exact (proj1 H) | exact (proj1 (proj2 (proj2 H)))].
Defined.

(** ** Indexing matrices given by their entries *)

Lemma repeat_as_map {A : Type} (x : A) (n a : nat) :
  repeat x n = map (fun _ => x) (seq a n).
Proof.
  revert a. induction n as [|n IH]; intros a; simpl; [reflexivity|].
  f_equal. apply IH.
Qed.

Lemma zeros2_mk_mat (r c : nat) : zeros2 r c = mk_mat r c (fun _ _ => c0).
Proof.
  unfold zeros2, mk_mat.
  rewrite (repeat_as_map (repeat c0 c) r 0).
  apply map_ext. intros _. apply repeat_as_map.
Qed.

Lemma upd_map_seq {A : Type} (F : nat -> A) (y : A) (i a N : nat) :
  (i < N)%nat ->
  upd (map F (seq a N)) i y
  = map (fun r => if Nat.eqb r (a + i) then y else F r) (seq a N).
Proof.
  revert i a. induction N as [|N IH]; intros i a Hi; [lia|].
  cbn [seq map]. destruct i as [|i]; cbn [upd].
  - rewrite Nat.add_0_r, Nat.eqb_refl. f_equal.
    apply map_ext_in. intros r Hr. apply in_seq in Hr.
    destruct (Nat.eqb_spec r a); [lia | reflexivity].
  - destruct (Nat.eqb_spec a (a + S i)); [lia|]. f_equal.
    rewrite IH by lia.
    apply map_ext. intros r. replace (S a + i)%nat with (a + S i)%nat by lia.
    reflexivity.
Qed.

Lemma nth_map_seq {A : Type} (F : nat -> A) (d : A) (i N : nat) :
  (i < N)%nat -> nth i (map F (seq 0 N)) d = F i.
Proof.
  intros Hi.
  rewrite (nth_indep _ d (F 0%nat)) by (rewrite length_map, length_seq; exact Hi).
  rewrite (map_nth F (seq 0 N) 0%nat i), seq_nth by exact Hi. reflexivity.
Qed.

Lemma nrows_mk_mat (r c : nat) (f : nat -> nat -> cnum) : nrows (mk_mat r c f) = r.
Proof. unfold nrows, mk_mat. rewrite length_map, length_seq. reflexivity. Qed.

Lemma ncols_mk_mat (r c : nat) (f : nat -> nat -> cnum) :
  (0 < r)%nat -> ncols (mk_mat r c f) = c.
Proof. intros Hr. exact (wf_ncols r c _ (wf_mk_mat r c f) Hr). Qed.

Lemma row_mk_mat (r c : nat) (f : nat -> nat -> cnum) (i : nat) :
  (i < r)%nat -> nth i (mk_mat r c f) [] = map (fun j => f i j) (seq 0 c).
Proof.
  intros Hi. unfold mk_mat.
  exact (nth_map_seq (fun i => map (fun j => f i j) (seq 0 c)) [] i r Hi).
Qed.

(** A rectangular matrix is the matrix of its entries. *)
Lemma list_as_map_seq {A : Type} (l : list A) (d : A) :
  l = map (fun i => nth i l d) (seq 0 (length l)).
Proof.
  induction l as [|x l IH]; [reflexivity|].
  cbn [length seq map nth]. f_equal.
  rewrite (map_seq_shift _ 1). exact IH.
Qed.

Lemma wf_as_mk_mat (r c : nat) (m : list (list cnum)) :
  wf r c m -> m = mk_mat r c (get m).
Proof.
  intros [Hr Hc]. unfold mk_mat, get.
  rewrite (list_as_map_seq m []) at 1. rewrite Hr.
  apply map_ext_in. intros i Hi. apply in_seq in Hi.
  assert (Hlen : length (nth i m []) = c)
    by (apply (wf_nth r c m); [split; assumption | lia]).
  rewrite (list_as_map_seq (nth i m []) c0) at 1. rewrite Hlen. reflexivity.
Qed.

(** Reading and writing an entry in range. *)
Lemma getitem_mk_mat (r c : nat) (f : nat -> nat -> cnum) (i j : Z) (i' j' : nat) :
  py_index r i = Ok i' -> py_index c j = Ok j' -> (i' < r)%nat -> (j' < c)%nat ->
  getitem (mk_mat r c f) i j = Ok (f i' j').
Proof.
  intros Ei Ej Hi Hj. unfold getitem.
  rewrite nrows_mk_mat, Ei. cbn [rbind].
  rewrite row_mk_mat, length_map, length_seq, Ej by exact Hi. cbn [rbind].
  rewrite get_mk_mat by assumption. reflexivity.
Qed.

Lemma setitem_mk_mat (r c : nat) (f : nat -> nat -> cnum) (i j : Z) (i' j' : nat)
  (h : cnum -> cnum) :
  py_index r i = Ok i' -> py_index c j = Ok j' -> (i' < r)%nat -> (j' < c)%nat ->
  setitem (mk_mat r c f) i j h
  = Ok (mk_mat r c (fun x y => if Nat.eqb x i' && Nat.eqb y j'
                               then h (f i' j') else f x y)).
Proof.
  intros Ei Ej Hi Hj. unfold setitem.
  rewrite nrows_mk_mat, Ei. cbn [rbind].
  rewrite row_mk_mat, length_map, length_seq, Ej by exact Hi. cbn [rbind].
  rewrite get_mk_mat by assumption. f_equal.
  unfold mk_mat at 1. rewrite upd_map_seq by exact Hi.
  unfold mk_mat. apply map_ext_in. intros x Hx.
  cbn [Nat.add]. destruct (Nat.eqb_spec x i') as [-> | Hne]; cbn [andb].
  - rewrite upd_map_seq by exact Hj. reflexivity.
  - reflexivity.
Qed.

Lemma py_index_lt (n : nat) (i : Z) (i' : nat) :
  py_index n i = Ok i' -> (i' < n)%nat.
Proof.
  unfold py_index.
  destruct (0 <=? i) eqn:E1; destruct (i <? Z.of_nat n) eqn:E2; cbn [andb];
    [intros H; injection H as <-; apply Z.ltb_lt in E2; lia | | |];
    (destruct (- Z.of_nat n <=? i) eqn:E3; destruct (i <? 0) eqn:E4; cbn [andb];
     [intros H; injection H as <-;
      apply Z.leb_le in E3; apply Z.ltb_lt in E4; lia
     | discriminate | discriminate | discriminate]).
Qed.

Lemma py_index_raises (n : nat) (i : Z) (e : exn) :
  py_index n i = Raise e -> e = IndexError.
Proof.
  unfold py_index.
  destruct ((0 <=? i) && (i <? Z.of_nat n)); [discriminate|].
  destruct ((- Z.of_nat n <=? i) && (i <? 0)); [discriminate|].
  congruence.
Qed.

Lemma transpose_rows_maps (r c a : nat) (f : nat -> nat -> cnum) :
  transpose_rows c (map (fun i => map (fun j => f i j) (seq a c)) (seq 0 r))
  = map (fun j => map (fun i => f i j) (seq 0 r)) (seq a c).
Proof.
  revert a. induction c as [|c IH]; intros a; [reflexivity|].
  cbn [transpose_rows seq map]. f_equal.
  - rewrite map_map. reflexivity.
  - rewrite map_map. cbn [tl]. apply IH.
Qed.

(** The transpose, entry by entry. *)
Lemma transpose_rows_mk_mat (r c : nat) (f : nat -> nat -> cnum) :
  transpose_rows c (mk_mat r c f) = mk_mat c r (fun i j => f j i).
Proof.
  unfold mk_mat. apply transpose_rows_maps.
Qed.

(** A sum with at most one term that is not zero. *)
Lemma fold_cadd_single (g : nat -> cnum) (k a n : nat) (acc : cnum) :
  canon acc ->
  (forall i, (a <= i < a + n)%nat -> i <> k -> g i = c0) ->
  fold_left cadd (map g (seq a n)) acc
  = if Nat.leb a k && Nat.ltb k (a + n) then cadd acc (g k) else acc.
Proof.
  revert a acc. induction n as [|n IH]; intros a acc Hacc Hg.
  - cbn [seq map fold_left].
    destruct (Nat.leb_spec a k); destruct (Nat.ltb_spec k (a + 0));
      cbn [andb]; try reflexivity; lia.
  - cbn [seq map fold_left].
    destruct (Nat.eq_dec a k) as [-> | Hne].
    + rewrite IH; [| apply canon_cadd | intros i Hi Hik; apply Hg; lia].
      destruct (Nat.leb_spec (S k) k); [lia|]. cbn [andb].
      destruct (Nat.leb_spec k k); [|lia].
      destruct (Nat.ltb_spec k (k + S n)); [|lia]. reflexivity.
    + rewrite (Hg a) by lia. rewrite cadd_c0_r_canon by exact Hacc.
      rewrite IH; [| exact Hacc | intros i Hi Hik; apply Hg; lia].
      destruct (Nat.leb_spec (S a) k); destruct (Nat.leb_spec a k);
        destruct (Nat.ltb_spec k (S a + n)); destruct (Nat.ltb_spec k (a + S n));
        cbn [andb]; try reflexivity; lia.
Qed.

Lemma sum_single (g : nat -> cnum) (k n : nat) :
  (k < n)%nat -> (forall i, (i < n)%nat -> i <> k -> g i = c0) ->
  fold_left cadd (map g (seq 0 n)) c0 = cnorm (g k).
Proof.
  intros Hk Hg.
  rewrite (fold_cadd_single g k 0 n c0 canon_c0) by (intros i Hi; apply Hg; lia).
  destruct (Nat.ltb_spec k (0 + n)); [|lia]. cbn [Nat.leb andb].
  apply cadd_c0_l.
Qed.

(** ** Qubit vectors and qubit matrices *)

Lemma diag_of_ext (N : nat) (g g' : nat -> cnum) :
  (forall r, (r < N)%nat -> g r = g' r) -> diag_of N g = diag_of N g'.
Proof.
  intros H. apply mk_mat_ext. intros i j Hi _.
  rewrite (H i Hi). reflexivity.
Qed.

Lemma row_of_ext (N : nat) (g g' : nat -> cnum) :
  (forall r, (r < N)%nat -> g r = g' r) -> row_of N g = row_of N g'.
Proof.
  intros H. apply mk_mat_ext. intros i j _ Hj. exact (H j Hj).
Qed.

Lemma col_of_ext (N : nat) (g g' : nat -> cnum) :
  (forall r, (r < N)%nat -> g r = g' r) -> col_of N g = col_of N g'.
Proof.
  intros H. apply mk_mat_ext. intros i j Hi _. exact (H i Hi).
Qed.

Lemma zeros2_diag_of (N : nat) : zeros2 N N = diag_of N (fun _ => c0).
Proof.
  rewrite zeros2_mk_mat. apply mk_mat_ext. intros i j _ _.
  destruct (Nat.eqb i j); reflexivity.
Qed.

Lemma zeros2_row_of (N : nat) : zeros2 1 N = row_of N (fun _ => c0).
Proof. apply zeros2_mk_mat. Qed.

Lemma transpose_row_of (N : nat) (g : nat -> cnum) :
  transpose (Arr2 (row_of N g)) = Arr2 (col_of N g).
Proof.
  unfold transpose, row_of, col_of.
  rewrite ncols_mk_mat by lia. rewrite transpose_rows_mk_mat. reflexivity.
Qed.

Lemma py_index_one_zero : py_index 1 0 = Ok 0%nat.
Proof. reflexivity. Qed.

Lemma setitem_diag_of (N : nat) (g : nat -> cnum) (a : Z) (h : cnum -> cnum) :
  setitem (diag_of N g) a a h
  = (k <- py_index N a ;;
     Ok (diag_of N (fun r => if Nat.eqb r k then h (g k) else g r))).
Proof.
  destruct (py_index N a) as [k|e] eqn:E; cbn [rbind].
  - pose proof (py_index_lt N a k E) as Hk.
    unfold diag_of. rewrite (setitem_mk_mat N N _ a a k k h E E Hk Hk).
    f_equal. apply mk_mat_ext. intros i j _ _.
    rewrite Nat.eqb_refl.
    destruct (Nat.eqb_spec i k) as [-> | Hik]; cbn [andb].
    + destruct (Nat.eqb_spec j k) as [-> | Hjk].
      * rewrite Nat.eqb_refl. reflexivity.
      * destruct (Nat.eqb_spec k j); [congruence | reflexivity].
    + reflexivity.
  - unfold setitem, diag_of. rewrite nrows_mk_mat, E. reflexivity.
Qed.

Lemma setitem_row_of (N : nat) (g : nat -> cnum) (a : Z) (h : cnum -> cnum) :
  setitem (row_of N g) 0 a h
  = (k <- py_index N a ;;
     Ok (row_of N (fun r => if Nat.eqb r k then h (g k) else g r))).
Proof.
  destruct (py_index N a) as [k|e] eqn:E; cbn [rbind].
  - pose proof (py_index_lt N a k E) as Hk.
    unfold row_of.
    rewrite (setitem_mk_mat 1 N _ 0 a 0 k h py_index_one_zero E) by lia.
    reflexivity.
  - unfold setitem, row_of. rewrite nrows_mk_mat.
    rewrite py_index_one_zero. cbn [rbind].
    rewrite row_mk_mat by lia. rewrite length_map, length_seq, E. reflexivity.
Qed.

Lemma getitem_diag_of (N : nat) (g : nat -> cnum) (a : Z) :
  getitem (diag_of N g) a a = (k <- py_index N a ;; Ok (g k)).
Proof.
  destruct (py_index N a) as [k|e] eqn:E; cbn [rbind].
  - pose proof (py_index_lt N a k E) as Hk.
    unfold diag_of. rewrite (getitem_mk_mat N N _ a a k k E E Hk Hk).
    rewrite Nat.eqb_refl. reflexivity.
  - unfold getitem, diag_of. rewrite nrows_mk_mat, E. reflexivity.
Qed.

Lemma getitem_row_of (N : nat) (g : nat -> cnum) (a : Z) :
  getitem (row_of N g) 0 a = (k <- py_index N a ;; Ok (g k)).
Proof.
  destruct (py_index N a) as [k|e] eqn:E; cbn [rbind].
  - pose proof (py_index_lt N a k E) as Hk.
    unfold row_of.
    rewrite (getitem_mk_mat 1 N _ 0 a 0 k py_index_one_zero E) by lia.
    reflexivity.
  - unfold getitem, row_of. rewrite nrows_mk_mat, py_index_one_zero. cbn [rbind].
    rewrite row_mk_mat by lia. rewrite length_map, length_seq, E. reflexivity.
Qed.

(** The loops over the arguments set the named positions, whatever their
    order and however often one is named. *)
Lemma set_row0_indices (N : nat) (args : list Z) (g : nat -> cnum) :
  set_row0 (row_of N g) args
  = (ks <- indices N args ;;
     Ok (row_of N (fun r => if existsb (Nat.eqb r) ks then c1 else g r))).
Proof.
  revert g. induction args as [|a args IH]; intros g; cbn [set_row0 indices rbind].
  - reflexivity.
  - rewrite setitem_row_of.
    destruct (py_index N a) as [k|e]; cbn [rbind]; [|reflexivity].
    rewrite IH. destruct (indices N args) as [ks|e]; cbn [rbind]; [|reflexivity].
    f_equal. apply row_of_ext. intros r _. cbn [existsb].
    destruct (Nat.eqb r k), (existsb (Nat.eqb r) ks); reflexivity.
Qed.

Lemma set_diag_indices (N : nat) (args : list Z) (g : nat -> cnum) :
  set_diag (diag_of N g) args
  = (ks <- indices N args ;;
     Ok (diag_of N (fun r => if existsb (Nat.eqb r) ks then c1 else g r))).
Proof.
  revert g. induction args as [|a args IH]; intros g; cbn [set_diag indices rbind].
  - reflexivity.
  - rewrite setitem_diag_of.
    destruct (py_index N a) as [k|e]; cbn [rbind]; [|reflexivity].
    rewrite IH. destruct (indices N args) as [ks|e]; cbn [rbind]; [|reflexivity].
    f_equal. apply diag_of_ext. intros r _. cbn [existsb].
    destruct (Nat.eqb r k), (existsb (Nat.eqb r) ks); reflexivity.
Qed.

Lemma py_index_zero (N : nat) : (0 < N)%nat -> py_index N 0 = Ok 0%nat.
Proof. intros H. apply (py_index_ok N 0). lia. Qed.

Lemma get_qubit_vector_indices (n : nat) (args : list Z) :
  get_qubit_vector n args
  = (ks <- indices (2 ^ n) (default_args args) ;;
     Ok (Arr2 (col_of (2 ^ n) (indicator ks)))).
Proof.
  unfold get_qubit_vector. rewrite pow2_nat.
  pose proof (pow2_pos n) as Hpos.
  rewrite zeros2_row_of, set_row0_indices.
  destruct args as [|a args].
  - cbn [indices rbind List.length Nat.eqb default_args].
    rewrite setitem_row_of, (py_index_zero _ Hpos). cbn [rbind].
    rewrite transpose_row_of. f_equal. f_equal. apply col_of_ext.
    intros r _. unfold indicator. cbn [existsb].
    destruct (Nat.eqb r 0); reflexivity.
  - cbn [default_args].
    destruct (indices (2 ^ n) (a :: args)) as [ks|e]; [|reflexivity].
    cbn [rbind List.length Nat.eqb]. rewrite transpose_row_of. reflexivity.
Qed.

Lemma get_qubit_matrix_indices (n : nat) (args : list Z) :
  get_qubit_matrix n args
  = (ks <- indices (2 ^ n) (default_args args) ;;
     Ok (Arr2 (diag_of (2 ^ n) (indicator ks)))).
Proof.
  unfold get_qubit_matrix. rewrite pow2_nat.
  pose proof (pow2_pos n) as Hpos.
  rewrite zeros2_diag_of, set_diag_indices.
  destruct args as [|a args].
  - cbn [indices rbind List.length Nat.eqb default_args].
    rewrite setitem_diag_of, (py_index_zero _ Hpos). cbn [rbind].
    f_equal. f_equal. apply diag_of_ext.
    intros r _. unfold indicator. cbn [existsb].
    destruct (Nat.eqb r 0); reflexivity.
  - cbn [default_args].
    destruct (indices (2 ^ n) (a :: args)) as [ks|e]; reflexivity.
Qed.

(** X3: [get_qubit_vector] and [get_qubit_matrix] return the column, and
    the diagonal matrix, with a 1 exactly at the positions the arguments
    name, read as Python indices on an axis of length [2**numQubits]
    (negative ones count from the end), index 0 when no argument is given;
    an argument out of range raises [IndexError].  The result depends
    neither on the order of the arguments nor on repetitions. *)
Theorem get_qubit_sets_named_positions (numQubits : nat) (args : list Z) :
  get_qubit_vector numQubits args
  = (ks <- indices (2 ^ numQubits) (default_args args) ;;
     Ok (Arr2 (col_of (2 ^ numQubits) (indicator ks))))
  /\ get_qubit_matrix numQubits args
     = (ks <- indices (2 ^ numQubits) (default_args args) ;;
        Ok (Arr2 (diag_of (2 ^ numQubits) (indicator ks))))
  /\ match indices (2 ^ numQubits) (default_args args) with
     | Ok _ => True
     | Raise e => e = IndexError
     end.
Proof.
  split; [apply get_qubit_vector_indices|].
  split; [apply get_qubit_matrix_indices|].
  generalize (default_args args) as l.
  induction l as [|a l IH]; cbn [indices].
  - exact I.
  - destruct (py_index (2 ^ numQubits) a) as [k|e'] eqn:E; cbn [rbind].
    + destruct (indices (2 ^ numQubits) l) as [ks|e'']; cbn [rbind].
      * exact I.
      * exact IH.
    + exact (py_index_raises _ _ _ E).
Qed.

(** ** Converting between the two representations *)

Lemma sum_axis1_diag_of (N : nat) (g : nat -> cnum) :
  (forall r, (r < N)%nat -> canon (g r)) ->
  sum_axis1 (diag_of N g) = map g (seq 0 N).
Proof.
  intros Hg. unfold sum_axis1, diag_of, mk_mat. rewrite map_map.
  apply map_ext_in. intros i Hi. apply in_seq in Hi.
  rewrite (sum_single (fun j => if Nat.eqb i j then g i else c0) i N).
  - rewrite Nat.eqb_refl. apply Hg. lia.
  - lia.
  - intros j _ Hj. destruct (Nat.eqb_spec i j); [congruence | reflexivity].
Qed.

Lemma convert_diag_to_col (N : nat) (g : nat -> cnum) :
  (0 < N)%nat -> (forall r, (r < N)%nat -> canon (g r)) ->
  convert_matrix_to_vector (Arr2 (diag_of N g)) = Ok (Arr2 (col_of N g)).
Proof.
  intros HN Hg. unfold convert_matrix_to_vector.
  unfold diag_of at 1. rewrite ncols_mk_mat by exact HN.
  destruct (Nat.eqb_spec N 1) as [-> | Hne].
  - reflexivity.
  - rewrite sum_axis1_diag_of by exact Hg.
    change [map g (seq 0 N)] with (row_of N g).
    rewrite transpose_row_of. reflexivity.
Qed.

Lemma py_index_nat (N a : nat) : (a < N)%nat -> py_index N (Z.of_nat a) = Ok a.
Proof.
  intros H. rewrite py_index_ok by lia. rewrite Nat2Z.id. reflexivity.
Qed.

Lemma vector_to_diag_seq (N : nat) (g : nat -> cnum) (len a : nat) (u : nat -> cnum) :
  (a + len <= N)%nat ->
  vector_to_diag (col_of N g) (diag_of N u) (seq a len)
  = Ok (diag_of N (fun r => if Nat.leb a r && Nat.ltb r (a + len)
                            then cadd (u r) (g r) else u r)).
Proof.
  revert a u. induction len as [|len IH]; intros a u Hlen.
  - cbn [seq vector_to_diag]. f_equal. apply diag_of_ext. intros r _.
    destruct (Nat.leb_spec a r); destruct (Nat.ltb_spec r (a + 0));
      cbn [andb]; try reflexivity; lia.
  - cbn [seq vector_to_diag].
    unfold col_of at 1.
    rewrite (getitem_mk_mat N 1 _ (Z.of_nat a) 0 a 0
               (py_index_nat N a ltac:(lia)) py_index_one_zero) by lia.
    cbn [rbind]. rewrite setitem_diag_of, py_index_nat by lia. cbn [rbind].
    rewrite IH by lia. f_equal. apply diag_of_ext. intros r _.
    destruct (Nat.eqb_spec r a) as [-> | Hne].
    + destruct (Nat.leb_spec (S a) a); [lia|]. cbn [andb].
      destruct (Nat.leb_spec a a); [|lia].
      destruct (Nat.ltb_spec a (a + S len)); [|lia]. reflexivity.
    + destruct (Nat.leb_spec (S a) r); destruct (Nat.leb_spec a r);
        destruct (Nat.ltb_spec r (S a + len)); destruct (Nat.ltb_spec r (a + S len));
        cbn [andb]; try reflexivity; lia.
Qed.

Lemma convert_col_to_diag (N : nat) (g : nat -> cnum) :
  (0 < N)%nat -> (forall r, (r < N)%nat -> canon (g r)) ->
  convert_vector_to_matrix (Arr2 (col_of N g)) = Ok (Arr2 (diag_of N g)).
Proof.
  intros HN Hg. unfold convert_vector_to_matrix.
  assert (Hr : nrows (col_of N g) = N) by apply nrows_mk_mat.
  assert (Hc : ncols (col_of N g) = 1%nat) by (apply ncols_mk_mat; exact HN).
  rewrite Hr, Hc.
  destruct (Nat.eqb_spec N 1) as [-> | Hne].
  - reflexivity.
  - rewrite zeros2_diag_of.
    rewrite (vector_to_diag_seq N g N 0 (fun _ => c0)) by lia.
    cbn [rbind]. f_equal. f_equal. apply diag_of_ext. intros r Hlt.
    destruct (Nat.ltb_spec r (0 + N)); [|lia]. cbn [Nat.leb andb].
    rewrite cadd_c0_l. apply Hg. exact Hlt.
Qed.

Lemma canon_indicator (ks : list nat) (r : nat) : canon (indicator ks r).
Proof.
  unfold indicator. destruct (existsb _ _); [apply canon_c1 | apply canon_c0].
Qed.

(** X4: the two representations of a register agree under the two
    conversions, errors included: converting what [get_qubit_matrix]
    returns with [convert_matrix_to_vector] gives what [get_qubit_vector]
    returns on the same arguments, and converting what [get_qubit_vector]
    returns with [convert_vector_to_matrix] gives what [get_qubit_matrix]
    returns. *)
Theorem qubit_matrix_and_vector_agree (numQubits : nat) (args : list Z) :
  (m <- get_qubit_matrix numQubits args ;; convert_matrix_to_vector m)
  = get_qubit_vector numQubits args
  /\ (v <- get_qubit_vector numQubits args ;; convert_vector_to_matrix v)
     = get_qubit_matrix numQubits args.
Proof.
  rewrite get_qubit_matrix_indices, get_qubit_vector_indices.
  pose proof (pow2_pos numQubits) as Hpos.
  destruct (indices (2 ^ numQubits) (default_args args)) as [ks|e]; cbn [rbind].
  - split.
    + apply convert_diag_to_col; [exact Hpos | intros r _; apply canon_indicator].
    + apply convert_col_to_diag; [exact Hpos | intros r _; apply canon_indicator].
  - split; reflexivity.
Qed.

Lemma column_as_col_of (v : list cnum) :
  column v = Arr2 (col_of (length v) (fun i => nth i v c0)).
Proof.
  unfold column, col_of, mk_mat. f_equal.
  rewrite (list_as_map_seq v c0) at 1. rewrite map_map. reflexivity.
Qed.

Lemma canon_nth (v : list cnum) (i : nat) : Forall canon v -> canon (nth i v c0).
Proof.
  intros H. revert i. induction H as [|x v Hx _ IH]; intros [|i]; cbn [nth];
    try apply canon_c0; auto.
Qed.

(** X5: on real numbers in lowest terms the two conversions are inverse
    to each other: [convert_vector_to_matrix] turns the column with the
    entries [v] into the diagonal matrix [np.diag(v)], and
    [convert_matrix_to_vector] turns that matrix back into the column. *)
Theorem conversions_are_inverse (v : list cnum) :
  v <> [] -> Forall real_canon v ->
  convert_vector_to_matrix (column v) = Ok (diag (Arr1 v))
  /\ convert_matrix_to_vector (diag (Arr1 v)) = Ok (column v).
Proof.
  intros Hne Hreal.
  assert (Hv : Forall canon v)
    by (apply (Forall_impl canon (fun x H => proj1 H) Hreal)).
  assert (HN : (0 < length v)%nat) by (destruct v; [congruence | simpl; lia]).
  rewrite column_as_col_of.
  change (diag (Arr1 v)) with (Arr2 (diag_of (length v) (fun i => nth i v c0))).
  split.
  - apply convert_col_to_diag; [exact HN | intros r _; apply canon_nth; exact Hv].
  - apply convert_diag_to_col; [exact HN | intros r _; apply canon_nth; exact Hv].
Qed.

Lemma conversions_are_inverse_witness :
  convert_vector_to_matrix (column [c1; of_Z 3; cdiv c1 sqrt2])
  = Ok (diag (Arr1 [c1; of_Z 3; cdiv c1 sqrt2]))
  /\ convert_matrix_to_vector (diag (Arr1 [c1; of_Z 3; cdiv c1 sqrt2]))
     = Ok (column [c1; of_Z 3; cdiv c1 sqrt2]).
Proof.
  apply (conversions_are_inverse [c1; of_Z 3; cdiv c1 sqrt2]).
  - discriminate.
  - repeat (apply Forall_cons; [split; [reflexivity | split; reflexivity]|]).
    apply Forall_nil.
Defined.

(** ** Two entries per qubit *)

Ltac nat_cases :=
  repeat match goal with
         | |- context [Nat.eqb ?a ?b] => destruct (Nat.eqb_spec a b)
         | |- context [Nat.ltb ?a ?b] => destruct (Nat.ltb_spec a b)
         | |- context [Nat.leb ?a ?b] => destruct (Nat.leb_spec a b)
         end;
  cbn [andb orb negb]; try reflexivity; try (exfalso; lia).

Lemma odd_index (i : nat) : 2 * Z.of_nat i + 1 = Z.of_nat (2 * i + 1).
Proof. lia. Qed.

Lemma even_index (i : nat) : 2 * Z.of_nat i = Z.of_nat (2 * i).
Proof. lia. Qed.

(** What the loop over the qubits leaves: it reads odd positions only and
    writes even ones only. *)
Lemma fill_step (a len : nat) (g : nat -> cnum) (r : nat) :
  let g1 := fun x => if ceqb (g (2 * a + 1)%nat) c0
                     then (if Nat.eqb x (2 * a) then c1 else g x) else g x in
  (if Nat.even r && Nat.leb (2 * S a) r && Nat.ltb r (2 * (S a + len))
      && ceqb (g1 (S r)) c0 then c1 else g1 r)
  = (if Nat.even r && Nat.leb (2 * a) r && Nat.ltb r (2 * (a + S len))
        && ceqb (g (S r)) c0 then c1 else g r).
Proof.
  intros g1. subst g1.
  destruct (Nat.even r) eqn:Ev.
  - apply Nat.even_spec in Ev. destruct Ev as [m ->].
    destruct (Nat.eqb_spec (S (2 * m)) (2 * a)); [lia|].
    replace (if ceqb (g (2 * a + 1)%nat) c0 then g (S (2 * m)) else g (S (2 * m)))
      with (g (S (2 * m))) by (destruct (ceqb _ _); reflexivity).
    destruct (Nat.eq_dec m a) as [-> | Hne].
    + replace (S (2 * a)) with (2 * a + 1)%nat by lia.
      rewrite Nat.eqb_refl.
      destruct (ceqb (g (2 * a + 1)%nat) c0); nat_cases.
    + destruct (Nat.eqb_spec (2 * m) (2 * a)); [lia|].
      replace (if ceqb (g (2 * a + 1)%nat) c0 then g (2 * m)%nat else g (2 * m)%nat)
        with (g (2 * m)%nat) by (destruct (ceqb _ _); reflexivity).
      destruct (ceqb (g (S (2 * m))) c0); nat_cases.
  - cbn [andb].
    destruct (Nat.eqb_spec r (2 * a)) as [-> | Hne].
    + rewrite Nat.even_mul in Ev. discriminate Ev.
    + destruct (ceqb _ _); reflexivity.
Qed.

Lemma fill_zero_row_seq (N len a : nat) (g : nat -> cnum) :
  (2 * (a + len) <= N)%nat ->
  fill_zero_row (row_of N g) (seq a len)
  = Ok (row_of N (fun r => if Nat.even r && Nat.leb (2 * a) r
                              && Nat.ltb r (2 * (a + len)) && ceqb (g (S r)) c0
                           then c1 else g r)).
Proof.
  revert a g. induction len as [|len IH]; intros a g Hlen.
  - cbn [seq fill_zero_row]. f_equal. apply row_of_ext. intros r _.
    destruct (Nat.even r); nat_cases.
  - cbn [seq fill_zero_row].
    rewrite odd_index, even_index, getitem_row_of, py_index_nat by lia.
    cbn [rbind].
    destruct (ceqb (g (2 * a + 1)%nat) c0) eqn:E.
    + rewrite setitem_row_of, py_index_nat by lia. cbn [rbind].
      rewrite IH by lia. f_equal. apply row_of_ext. intros r _.
      pose proof (fill_step a len g r) as H. cbv zeta in H. rewrite E in H.
      exact H.
    + cbn [rbind]. rewrite IH by lia. f_equal. apply row_of_ext. intros r _.
      pose proof (fill_step a len g r) as H. cbv zeta in H. rewrite E in H.
      exact H.
Qed.

Lemma fill_zero_diag_seq (N len a : nat) (g : nat -> cnum) :
  (2 * (a + len) <= N)%nat ->
  fill_zero_diag (diag_of N g) (seq a len)
  = Ok (diag_of N (fun r => if Nat.even r && Nat.leb (2 * a) r
                               && Nat.ltb r (2 * (a + len)) && ceqb (g (S r)) c0
                            then c1 else g r)).
Proof.
  revert a g. induction len as [|len IH]; intros a g Hlen.
  - cbn [seq fill_zero_diag]. f_equal. apply diag_of_ext. intros r _.
    destruct (Nat.even r); nat_cases.
  - cbn [seq fill_zero_diag].
    rewrite odd_index, even_index, getitem_diag_of, py_index_nat by lia.
    cbn [rbind].
    destruct (ceqb (g (2 * a + 1)%nat) c0) eqn:E.
    + rewrite setitem_diag_of, py_index_nat by lia. cbn [rbind].
      rewrite IH by lia. f_equal. apply diag_of_ext. intros r _.
      pose proof (fill_step a len g r) as H. cbv zeta in H. rewrite E in H.
      exact H.
    + cbn [rbind]. rewrite IH by lia. f_equal. apply diag_of_ext. intros r _.
      pose proof (fill_step a len g r) as H. cbv zeta in H. rewrite E in H.
      exact H.
Qed.

Lemma filled_is_zero_default (n : nat) (ks : list nat) (r : nat) :
  (r < 2 * n)%nat ->
  (if Nat.even r && Nat.leb (2 * 0) r && Nat.ltb r (2 * (0 + n))
      && ceqb (if existsb (Nat.eqb (S r)) ks then c1 else c0) c0
   then c1 else if existsb (Nat.eqb r) ks then c1 else c0)
  = zero_default ks r.
Proof.
  intros Hr. unfold zero_default.
  destruct (Nat.ltb_spec r (2 * (0 + n))); [|lia].
  cbn [Nat.mul Nat.leb].
  destruct (Nat.even r), (existsb (Nat.eqb r) ks), (existsb (Nat.eqb (S r)) ks);
    reflexivity.
Qed.

Lemma zero_default_at_0 (r : nat) :
  (if Nat.eqb r 0 then c1 else zero_default [] r) = zero_default [] r.
Proof.
  destruct (Nat.eqb_spec r 0) as [-> |]; reflexivity.
Qed.

Lemma get_zero_qubit_vector_indices (n : nat) (args : list Z) :
  (0 < n)%nat ->
  get_zero_qubit_vector n args
  = (ks <- indices (2 * n) args ;; Ok (Arr2 (col_of (2 * n) (zero_default ks)))).
Proof.
  intros Hn. unfold get_zero_qubit_vector.
  replace (n * 2)%nat with (2 * n)%nat by lia.
  rewrite zeros2_row_of, set_row0_indices.
  destruct (indices (2 * n) args) as [ks|e] eqn:E; cbn [rbind]; [|reflexivity].
  rewrite fill_zero_row_seq by lia. cbn [rbind].
  rewrite (row_of_ext (2 * n) _ (zero_default ks))
    by (intros r Hr; apply filled_is_zero_default; exact Hr).
  destruct args as [|a args]; cbn [List.length Nat.eqb].
  - cbn [indices] in E. injection E as <-.
    rewrite setitem_row_of, py_index_zero by lia. cbn [rbind].
    rewrite transpose_row_of. f_equal. f_equal. apply col_of_ext.
    intros r _. apply zero_default_at_0.
  - cbn [rbind]. rewrite transpose_row_of. reflexivity.
Qed.

Lemma get_zero_qubit_matrix_indices (n : nat) (args : list Z) :
  (0 < n)%nat ->
  get_zero_qubit_matrix n args
  = (ks <- indices (2 * n) args ;; Ok (Arr2 (diag_of (2 * n) (zero_default ks)))).
Proof.
  intros Hn. unfold get_zero_qubit_matrix.
  replace (n * 2)%nat with (2 * n)%nat by lia.
  rewrite zeros2_diag_of, set_diag_indices.
  destruct (indices (2 * n) args) as [ks|e] eqn:E; cbn [rbind]; [|reflexivity].
  rewrite fill_zero_diag_seq by lia. cbn [rbind].
  rewrite (diag_of_ext (2 * n) _ (zero_default ks))
    by (intros r Hr; apply filled_is_zero_default; exact Hr).
  destruct args as [|a args]; cbn [List.length Nat.eqb].
  - cbn [indices] in E. injection E as <-.
    rewrite setitem_diag_of, py_index_zero by lia. cbn [rbind].
    f_equal. f_equal. apply diag_of_ext.
    intros r _. apply zero_default_at_0.
  - reflexivity.
Qed.

Lemma get_zero_ket_qubit_vector_indices (n : nat) (args : list Z) :
  (0 < n)%nat ->
  get_zero_ket_qubit_vector n args
  = (ks <- indices (2 * n) (default_args args) ;;
     Ok (Arr2 (col_of (2 * n) (indicator ks)))).
Proof.
  intros Hn. unfold get_zero_ket_qubit_vector.
  replace (n * 2)%nat with (2 * n)%nat by lia.
  rewrite zeros2_row_of, set_row0_indices.
  destruct args as [|a args].
  - cbn [indices rbind List.length Nat.eqb default_args].
    rewrite setitem_row_of, py_index_zero by lia. cbn [rbind].
    rewrite transpose_row_of. f_equal. f_equal. apply col_of_ext.
    intros r _. unfold indicator. cbn [existsb].
    destruct (Nat.eqb r 0); reflexivity.
  - cbn [default_args].
    destruct (indices (2 * n) (a :: args)) as [ks|e]; [|reflexivity].
    cbn [rbind List.length Nat.eqb]. rewrite transpose_row_of. reflexivity.
Qed.

Lemma indices_empty_axis (args : list Z) :
  args <> [] -> indices 0 args = Raise IndexError.
Proof.
  destruct args as [|a args]; [congruence|]. intros _. cbn [indices].
  unfold py_index. cbn [Z.of_nat Z.opp].
  destruct (Z.leb_spec 0 a); destruct (Z.ltb_spec a 0); cbn [andb rbind];
    try reflexivity; lia.
Qed.

(** X6: with at least one qubit, [get_zero_qubit_vector] and
    [get_zero_qubit_matrix] work on two entries per qubit: the column, and
    the diagonal, hold a 1 at the positions the arguments name and at
    every even position [2*i] whose partner [2*i + 1] is not named, so that
    without arguments every qubit reads (1, 0); an argument outside the
    [2 * numQubits] entries raises [IndexError].
    [get_zero_ket_qubit_vector] has no such default: it holds a 1 at the
    named positions only, index 0 when none is given. *)
Theorem get_zero_qubit_two_entries_per_qubit (numQubits : nat) (args : list Z) :
  (0 < numQubits)%nat ->
  get_zero_qubit_vector numQubits args
  = (ks <- indices (2 * numQubits) args ;;
     Ok (Arr2 (col_of (2 * numQubits) (zero_default ks))))
  /\ get_zero_qubit_matrix numQubits args
     = (ks <- indices (2 * numQubits) args ;;
        Ok (Arr2 (diag_of (2 * numQubits) (zero_default ks))))
  /\ get_zero_ket_qubit_vector numQubits args
     = (ks <- indices (2 * numQubits) (default_args args) ;;
        Ok (Arr2 (col_of (2 * numQubits) (indicator ks)))).
Proof.
  intros Hn.
  split; [apply get_zero_qubit_vector_indices; exact Hn|].
  split; [apply get_zero_qubit_matrix_indices; exact Hn|].
  apply get_zero_ket_qubit_vector_indices; exact Hn.
Qed.

Lemma get_zero_qubit_two_entries_per_qubit_witness :
  get_zero_qubit_vector 2 [3]
  = (ks <- indices (2 * 2) [3] ;; Ok (Arr2 (col_of (2 * 2) (zero_default ks)))).
Proof.
  apply (proj1 (get_zero_qubit_two_entries_per_qubit 2 [3] ltac:(lia))).
Defined.

(** X7: without a qubit there is no entry to set: [get_zero_qubit_vector],
    [get_zero_qubit_matrix] and [get_zero_ket_qubit_vector] called with
    [numQubits = 0] raise [IndexError] whatever the arguments, also with
    none, where the default [qubit_matrix[0, 0] = 1] fails. *)
Theorem get_zero_qubit_without_qubits_raises (args : list Z) :
  get_zero_qubit_vector 0 args = Raise IndexError
  /\ get_zero_qubit_matrix 0 args = Raise IndexError
  /\ get_zero_ket_qubit_vector 0 args = Raise IndexError.
Proof.
  unfold get_zero_qubit_vector, get_zero_qubit_matrix, get_zero_ket_qubit_vector.
  cbn [Nat.mul]. rewrite zeros2_row_of, zeros2_diag_of.
  rewrite set_row0_indices, set_diag_indices.
  destruct args as [|a args].
  - repeat split; reflexivity.
  - rewrite indices_empty_axis by discriminate. repeat split; reflexivity.
Qed.

(** ** Basis vectors from strings and from indices *)

Lemma canon_kron1 (a b : list cnum) : Forall canon (kron1 a b).
Proof.
  unfold kron1. apply Forall_forall. intros x Hx.
  apply in_flat_map in Hx. destruct Hx as [y [_ Hx]].
  apply in_map_iff in Hx. destruct Hx as [z [<- _]]. apply canon_cmul.
Qed.

Lemma canon_kron2 (a b : list (list cnum)) : Forall (Forall canon) (kron2 a b).
Proof.
  unfold kron2. apply Forall_forall. intros row Hrow.
  apply in_flat_map in Hrow. destruct Hrow as [ra [_ Hrow]].
  apply in_map_iff in Hrow. destruct Hrow as [rb [<- _]]. apply canon_kron1.
Qed.

Lemma canon_kron (a b : ndarray) : canon_array (kron a b).
Proof.
  destruct a, b; cbn [kron canon_array];
    first [apply canon_kron1 | apply canon_kron2].
Qed.

Lemma canon_scale_r (a : ndarray) (s : cnum) : canon_array (scale_r a s).
Proof.
  destruct a as [v | m]; cbn [scale_r canon_array].
  - apply Forall_forall. intros x Hx. apply in_map_iff in Hx.
    destruct Hx as [y [<- _]]. apply canon_cmul.
  - apply Forall_forall. intros row Hrow. apply in_map_iff in Hrow.
    destruct Hrow as [r [<- _]].
    apply Forall_forall. intros x Hx. apply in_map_iff in Hx.
    destruct Hx as [y [<- _]]. apply canon_cmul.
Qed.

Lemma kron_py_canon (a : ndarray) (b : pyval) (k : ndarray) :
  kron_py (PArr a) b = PArr k -> canon_array k.
Proof.
  destruct b as [z | y]; cbn [kron_py]; intros H; injection H as <-.
  - apply canon_scale_r.
  - apply canon_kron.
Qed.

Lemma map_canon_id (h : cnum -> cnum) (v : list cnum) :
  (forall x, canon x -> h x = x) -> Forall canon v -> map h v = v.
Proof.
  intros Hh H. induction H as [|x v Hx _ IH]; cbn [map]; [reflexivity|].
  rewrite (Hh x Hx), IH. reflexivity.
Qed.

Lemma scale_r_c1_canon (a : ndarray) : canon_array a -> scale_r a c1 = a.
Proof.
  destruct a as [v | m]; cbn [scale_r canon_array]; intros H; f_equal.
  - apply map_canon_id; [exact cmul_c1_r_canon | exact H].
  - induction H as [|row m Hrow _ IH]; cbn [map]; [reflexivity|].
    rewrite IH. f_equal. apply map_canon_id; [exact cmul_c1_r_canon | exact Hrow].
Qed.

Lemma canon_mk_mat (r c : nat) (f : nat -> nat -> cnum) :
  (forall i j, canon (f i j)) -> Forall (Forall canon) (mk_mat r c f).
Proof.
  intros Hf. unfold mk_mat. apply Forall_forall. intros row Hrow.
  apply in_map_iff in Hrow. destruct Hrow as [i [<- _]].
  apply Forall_forall. intros x Hx. apply in_map_iff in Hx.
  destruct Hx as [j [<- _]]. apply Hf.
Qed.

Lemma symbols_or_not (l : list ascii) :
  Forall is_symbol l \/ exists c, In c l /\ ~ is_symbol c.
Proof.
  induction l as [|c l [IH | [b [Hin Hb]]]].
  - left. constructor.
  - destruct (is_symbol_dec c) as [Hc | [E0 [E1 [E2 E3]]]].
    + left. constructor; assumption.
    + right. exists c. split; [left; reflexivity|].
      intros [-> | [-> | [-> | ->]]]; discriminate.
  - right. exists b. split; [right; exact Hin | exact Hb].
Qed.

Section StringFacts.

Variables zero one plus minus : ndarray.
Hypothesis Hplus : add (div_scalar zero sqrt2) (div_scalar one sqrt2) = Ok plus.
Hypothesis Hminus : sub (div_scalar zero sqrt2) (div_scalar one sqrt2) = Ok minus.
Hypothesis Hzero : canon_array zero.

Lemma string_loop_canon (qs : string) (tmp : pyval) (S : ndarray) :
  qs <> EmptyString ->
  string_loop zero one plus minus qs tmp = Ok (PArr S) -> canon_array S.
Proof.
  revert tmp. induction qs as [|c qs IH]; intros tmp Hne; [congruence|].
  cbn [string_loop].
  destruct (if Ascii.eqb c "0" then Ok zero
            else if Ascii.eqb c "1" then Ok one
            else if Ascii.eqb c "+" then Ok plus
            else if Ascii.eqb c "-" then Ok minus
            else Raise ValueError) as [q|e]; cbn [rbind]; [|discriminate].
  destruct qs as [|d qs].
  - cbn [string_loop]. intros H. injection H as H.
    exact (kron_py_canon q tmp S H).
  - apply IH. discriminate.
Qed.

Lemma get_string_canon (s : string) (S : ndarray) :
  get_string zero one s = Ok S -> canon_array S.
Proof.
  unfold get_string, get_body. rewrite Hplus, Hminus.
  cbn [rbind List.length Nat.eqb negb].
  destruct s as [|c s].
  - cbn [String.length Nat.eqb negb rbind]. intros H. injection H as <-. exact Hzero.
  - cbn [String.length Nat.eqb negb].
    destruct (string_loop zero one plus minus (String c s) (PInt 1))
      as [[z | a] | e] eqn:E; cbn [rbind is_int_one Z.eqb Pos.eqb].
    + intros H. injection H as <-. exact Hzero.
    + intros H. injection H as <-.
      apply (string_loop_canon (String c s) (PInt 1)); [discriminate | exact E].
    + discriminate.
Qed.

(** A [str] passed alone as positional argument is read as a
    [qubit_string]. *)
Lemma get_vec_of_str (s : string) :
  get_vec zero one [AStr s] "" = get_vec zero one [] s.
Proof.
  change (get_vec zero one [] s) with (get_string zero one s).
  unfold get_vec. unfold get_body at 1. rewrite Hplus, Hminus.
  cbn [rbind List.length Nat.eqb negb rev app args_loop].
  destruct (get_string zero one s) as [S|e] eqn:E; cbn [rbind]; [|reflexivity].
  cbn [String.length Nat.eqb negb kron_py rbind]. f_equal.
  change (of_Z 1) with c1. apply scale_r_c1_canon.
  exact (get_string_canon s S E).
Qed.

(** The [qubit_string] lists the qubits the other way round. *)
Lemma get_vec_bit_string (xs : list Z) :
  Forall is_bit xs ->
  get_vec zero one [] (bit_string xs) = get_vec zero one (map AInt (rev xs)) "".
Proof.
  intros Hxs. destruct xs as [|x xs]; [reflexivity|].
  set (ys := x :: xs) in *.
  assert (Hchars : list_ascii_of_string (bit_string ys) = map bit_char ys)
    by apply list_ascii_of_string_of_list_ascii.
  assert (Hsym : Forall is_symbol (list_ascii_of_string (bit_string ys))).
  { rewrite Hchars. apply Forall_forall. intros c Hc.
    apply in_map_iff in Hc. destruct Hc as [y [<- Hy]].
    rewrite Forall_forall in Hxs. unfold is_symbol.
    destruct (Hxs y Hy) as [-> | ->]; cbn; auto. }
  assert (Hne : bit_string ys <> EmptyString) by (subst ys; discriminate).
  destruct (get_vec_string zero one plus minus Hplus Hminus (bit_string ys) Hsym Hne)
    as [S [HS Hloop]].
  assert (Hrev : Forall is_bit (rev ys)) by (apply Forall_rev; exact Hxs).
  assert (Hne' : rev ys <> []).
  { subst ys. cbn [rev]. destruct (rev xs); discriminate. }
  destruct (get_vec_bits zero one plus minus Hplus Hminus (rev ys) Hrev Hne')
    as [k [Hk Hchain]].
  rewrite HS, Hk. f_equal.
  rewrite (string_loop_symbols zero one plus minus (bit_string ys) (PInt 1) Hsym)
    in Hloop.
  rewrite fold_left_as_chain, Hchars in Hloop.
  rewrite <- map_rev, map_map in Hloop.
  assert (Hmap : map (fun x => symbol_vec zero one plus minus (bit_char x)) (rev ys)
                 = map (bit_vec zero one) (rev ys)).
  { apply map_ext_in. intros y Hy. rewrite Forall_forall in Hrev.
    destruct (Hrev y Hy) as [-> | ->]; reflexivity. }
  rewrite Hmap in Hloop. unfold tensor_chain in Hchain.
  rewrite Hchain in Hloop. congruence.
Qed.

End StringFacts.

(** X8: a [str] passed alone as positional argument gives what the same
    string gives as [qubit_string], also when that is an error:
    [get_ket(s)] is [get_ket(qubit_string=s)], and the same for
    [get_bra]. *)
Theorem get_vec_str_argument_is_qubit_string (s : string) :
  get_ket [AStr s] "" = get_ket [] s /\ get_bra [AStr s] "" = get_bra [] s.
Proof.
  split.
  - apply (get_vec_of_str zero_ket one_ket plus_ket minus_ket
             ket_plus_ok ket_minus_ok).
    repeat constructor.
  - apply (get_vec_of_str zero_bra one_bra plus_bra minus_bra
             bra_plus_ok bra_minus_ok).
    repeat constructor.
Qed.

(** X9: a [qubit_string] of bits is read from right to left: its last
    character is the most significant qubit, so it gives the vector of the
    same bits passed as positional arguments in the opposite order. *)
Theorem get_vec_qubit_string_is_reversed (xs : list Z) :
  Forall is_bit xs ->
  get_ket [] (bit_string xs) = get_ket (map AInt (rev xs)) ""
  /\ get_bra [] (bit_string xs) = get_bra (map AInt (rev xs)) "".
Proof.
  intros Hxs. split.
  - exact (get_vec_bit_string zero_ket one_ket plus_ket minus_ket
             ket_plus_ok ket_minus_ok xs Hxs).
  - exact (get_vec_bit_string zero_bra one_bra plus_bra minus_bra
             bra_plus_ok bra_minus_ok xs Hxs).
Qed.

Lemma get_vec_qubit_string_is_reversed_witness :
  get_ket [] "011" = get_ket [AInt 1; AInt 1; AInt 0] ""
  /\ get_bra [] "011" = get_bra [AInt 1; AInt 1; AInt 0] "".
Proof.
  apply (get_vec_qubit_string_is_reversed [0; 1; 1]).
  apply Forall_cons; [left; reflexivity|].
  apply Forall_cons; [right; reflexivity|].
  apply Forall_cons; [right; reflexivity|].
  apply Forall_nil.
Defined.

Lemma get_vec_index (zero one : ndarray) (plus minus : ndarray) (argv : Z) :
  add (div_scalar zero sqrt2) (div_scalar one sqrt2) = Ok plus ->
  sub (div_scalar zero sqrt2) (div_scalar one sqrt2) = Ok minus ->
  2 < argv -> (forall k : nat, argv <> 2 ^ Z.of_nat k) ->
  exists r : nat,
    2 ^ (Z.of_nat r - 1) < argv < 2 ^ Z.of_nat r
    /\ get_vec zero one [AInt argv] ""
       = Ok (Arr2 (col_of (2 ^ r) (indicator [Z.to_nat argv]))).
Proof.
  intros Hplus Hminus Hv Hpow.
  destruct (from_int_not_power_of_two zero one argv (PInt 1) Hv (Hpow _))
    as [Hr [vec [Hvec Hfrom]]].
  exists (grow_qubits (Z.to_nat argv) 1 argv). split; [exact Hr|].
  set (r := grow_qubits (Z.to_nat argv) 1 argv) in *.
  rewrite get_qubit_vector_indices in Hvec.
  cbn [default_args indices] in Hvec.
  rewrite py_index_ok in Hvec
    by (rewrite Nat2Z.inj_pow; change (Z.of_nat 2) with 2; lia).
  cbn [rbind] in Hvec. injection Hvec as <-.
  unfold get_vec, get_body. rewrite Hplus, Hminus.
  cbn [rbind List.length Nat.eqb negb rev app args_loop].
  rewrite Hfrom. cbn [rbind String.length Nat.eqb negb kron_py].
  f_equal. change (of_Z 1) with c1. apply scale_r_c1_canon.
  apply canon_mk_mat. intros i j. apply canon_indicator.
Qed.

(** X10: an [int] argument above 2 that is no power of two selects a basis
    state: with [r] the least number of qubits such that [argv < 2**r],
    [get_ket(argv)] is the column of length [2**r] with its only 1 at
    position [argv]; [get_bra(argv)] is that same column, not a row. *)
Theorem get_vec_int_argument_is_basis_state (argv : Z) :
  2 < argv -> (forall k : nat, argv <> 2 ^ Z.of_nat k) ->
  exists r : nat,
    2 ^ (Z.of_nat r - 1) < argv < 2 ^ Z.of_nat r
    /\ get_ket [AInt argv] "" = Ok (Arr2 (col_of (2 ^ r) (indicator [Z.to_nat argv])))
    /\ get_bra [AInt argv] "" = Ok (Arr2 (col_of (2 ^ r) (indicator [Z.to_nat argv]))).
Proof.
  intros Hv Hpow.
  destruct (get_vec_index zero_ket one_ket plus_ket minus_ket argv
              ket_plus_ok ket_minus_ok Hv Hpow) as [r [Hr Hket]].
  destruct (get_vec_index zero_bra one_bra plus_bra minus_bra argv
              bra_plus_ok bra_minus_ok Hv Hpow) as [r' [Hr' Hbra]].
  assert (E : r' = r).
  { destruct (Nat.lt_trichotomy r r') as [Hlt | [Heq | Hgt]]; [| auto |].
    - assert (2 ^ Z.of_nat r <= 2 ^ (Z.of_nat r' - 1))
        by (apply Z.pow_le_mono_r; lia). lia.
    - assert (2 ^ Z.of_nat r' <= 2 ^ (Z.of_nat r - 1))
        by (apply Z.pow_le_mono_r; lia). lia. }
  subst r'. exists r. auto.
Qed.

Lemma not_a_power_of_two_5 (k : nat) : 5 <> 2 ^ Z.of_nat k.
Proof.
  destruct k as [|[|[|k]]]; try (cbn; lia).
  assert (2 ^ 3 <= 2 ^ Z.of_nat (S (S (S k)))) by (apply Z.pow_le_mono_r; lia).
  change (2 ^ 3) with 8 in H. lia.
Qed.

Lemma get_vec_int_argument_is_basis_state_witness :
  exists r : nat,
    2 ^ (Z.of_nat r - 1) < 5 < 2 ^ Z.of_nat r
    /\ get_ket [AInt 5] "" = Ok (Arr2 (col_of (2 ^ r) (indicator [Z.to_nat 5])))
    /\ get_bra [AInt 5] "" = Ok (Arr2 (col_of (2 ^ r) (indicator [Z.to_nat 5]))).
Proof.
  apply (get_vec_int_argument_is_basis_state 5); [lia | exact not_a_power_of_two_5].
Defined.

(** ** Controlled gates *)

Ltac nat_split :=
  match goal with
  | |- context [Nat.eqb ?a ?b] => destruct (Nat.eqb_spec a b)
  | |- context [Nat.ltb ?a ?b] => destruct (Nat.ltb_spec a b)
  | |- context [Nat.leb ?a ?b] => destruct (Nat.leb_spec a b)
  end;
  try (exfalso; lia).

Lemma split_index (d i : nat) :
  (0 < d)%nat -> (i < 2 * d)%nat ->
  ((i < d)%nat /\ (i / d = 0)%nat /\ (i mod d = i)%nat)
  \/ ((d <= i)%nat /\ (i / d = 1)%nat /\ (i mod d = i - d)%nat).
Proof.
  intros Hd Hi. destruct (Nat.lt_ge_cases i d) as [Hlt | Hge].
  - left. rewrite Nat.div_small, Nat.mod_small by exact Hlt. auto.
  - right. replace i with ((i - d) + 1 * d)%nat at 2 3 by lia.
    rewrite Nat.div_add, Nat.Div0.mod_add by lia.
    rewrite Nat.div_small, Nat.mod_small by lia. auto.
Qed.

(** Controlling on the first qubit being 1 moves the exchanged pair to the
    second half of the basis. *)
Lemma controlled_transposition_hi (d a b : nat) :
  (0 < d)%nat -> (a < d)%nat -> (b < d)%nat -> a <> b ->
  add (kron (diag (Arr1 [c1; c0])) (identity d))
      (kron (diag (Arr1 [c0; c1])) (transposition d a b))
  = Ok (transposition (2 * d) (d + a) (d + b)).
Proof.
  intros Hd Ha Hb Hab. unfold transposition.
  rewrite (controlled_block [c1; c0] [c0; c1] d _ Hd eq_refl eq_refl).
  f_equal. f_equal. apply mk_mat_ext. intros i j Hi Hj.
  destruct (split_index d i Hd Hi) as [[Hi' [-> ->]] | [Hi' [-> ->]]];
    destruct (split_index d j Hd Hj) as [[Hj' [-> ->]] | [Hj' [-> ->]]];
    cbn [Nat.eqb nth]; repeat nat_split; reflexivity.
Qed.

(** Controlling on the first qubit being 0 leaves it in the first half. *)
Lemma controlled_transposition_lo (d a b : nat) :
  (0 < d)%nat -> (a < d)%nat -> (b < d)%nat -> a <> b ->
  add (kron (diag (Arr1 [c0; c1])) (identity d))
      (kron (diag (Arr1 [c1; c0])) (transposition d a b))
  = Ok (transposition (2 * d) a b).
Proof.
  intros Hd Ha Hb Hab. unfold transposition.
  rewrite (controlled_block [c0; c1] [c1; c0] d _ Hd eq_refl eq_refl).
  f_equal. f_equal. apply mk_mat_ext. intros i j Hi Hj.
  destruct (split_index d i Hd Hi) as [[Hi' [-> ->]] | [Hi' [-> ->]]];
    destruct (split_index d j Hd Hj) as [[Hj' [-> ->]] | [Hj' [-> ->]]];
    cbn [Nat.eqb nth]; repeat nat_split; reflexivity.
Qed.

Lemma pow2_ge_2 (n : nat) : (2 <= 2 ^ S n)%nat.
Proof. pose proof (pow2_pos n). cbn [Nat.pow]. lia. Qed.

Lemma quantum_not_is_transposition (n : nat) :
  quantum_not_gate_matrix (S n)
  = Ok (transposition (2 ^ S n) (2 ^ S n - 2) (2 ^ S n - 1)).
Proof.
  induction n as [|n IH].
  - vm_compute. reflexivity.
  - destruct n as [|m].
    + vm_compute. reflexivity.
    + rewrite qnot_step, IH. cbn [rbind].
      unfold identityGate. rewrite pow2_nat.
      pose proof (pow2_ge_2 (S m)) as Hd.
      set (d := (2 ^ S (S m))%nat) in *.
      rewrite controlled_transposition_hi by lia.
      replace (2 ^ S (S (S m)))%nat with (2 * d)%nat by (unfold d; cbn [Nat.pow]; lia).
      replace (d + (d - 2))%nat with (2 * d - 2)%nat by lia.
      replace (d + (d - 1))%nat with (2 * d - 1)%nat by lia.
      reflexivity.
Qed.

(** X11: for at least one qubit, [quantum_not_gate_matrix] is the
    permutation matrix that exchanges the last two basis states and fixes
    every other one: the last qubit is flipped exactly when all the others
    are 1. *)
Theorem quantum_not_exchanges_last_two_states (numQubits : nat) :
  (1 <= numQubits)%nat ->
  quantum_not_gate_matrix numQubits
  = Ok (transposition (2 ^ numQubits) (2 ^ numQubits - 2) (2 ^ numQubits - 1)).
Proof.
  intros Hn. destruct numQubits as [|n]; [lia|].
  apply quantum_not_is_transposition.
Qed.

Lemma quantum_not_exchanges_last_two_states_witness :
  quantum_not_gate_matrix 3 = Ok (transposition (2 ^ 3) (2 ^ 3 - 2) (2 ^ 3 - 1)).
Proof.
  apply (quantum_not_exchanges_last_two_states 3). lia.
Defined.

(** X12: for at least three qubits, [reverse_quantum_not_gate_matrix] is
    the permutation matrix that exchanges the last two basis states of the
    first half of the basis: it flips the last qubit exactly when the first
    qubit is 0 and all the qubits between are 1. *)
Theorem reverse_quantum_not_exchanges_in_first_half (numQubits : nat) :
  (3 <= numQubits)%nat ->
  reverse_quantum_not_gate_matrix numQubits
  = Ok (transposition (2 ^ numQubits)
          (2 ^ (numQubits - 1) - 2) (2 ^ (numQubits - 1) - 1)).
Proof.
  intros Hn. destruct numQubits as [|[|[|m]]]; try lia.
  replace (S (S (S m)) - 1)%nat with (S (S m)) by lia.
  rewrite reverse_step, quantum_not_is_transposition. cbn [rbind].
  unfold identityGate. rewrite pow2_nat.
  pose proof (pow2_ge_2 (S m)) as Hd.
  set (d := (2 ^ S (S m))%nat) in *.
  rewrite controlled_transposition_lo by lia.
  replace (2 ^ S (S (S m)))%nat with (2 * d)%nat by (unfold d; cbn [Nat.pow]; lia).
  reflexivity.
Qed.

Lemma reverse_quantum_not_exchanges_in_first_half_witness :
  reverse_quantum_not_gate_matrix 3
  = Ok (transposition (2 ^ 3) (2 ^ (3 - 1) - 2) (2 ^ (3 - 1) - 1)).
Proof.
  apply (reverse_quantum_not_exchanges_in_first_half 3). lia.
Defined.

Lemma canon_get (m : list (list cnum)) (i j : nat) :
  Forall (Forall canon) m -> canon (get m i j).
Proof.
  intros H. unfold get. apply canon_nth.
  revert i. induction H as [|row m Hrow _ IH]; intros [|i]; cbn [nth];
    try constructor; auto.
Qed.

(** The part of [CU_Gate] that does not depend on [U]. *)
Lemma CU_Gate_unfold (U : ndarray) :
  CU_Gate U
  = add (Arr2 (mk_mat 4 4 (fun i j => if Nat.eqb i j && Nat.ltb i 2 then c1 else c0)))
        (kron (Arr2 (mk_mat 2 2 (fun i j => if Nat.eqb i 1 && Nat.eqb j 1
                                            then c1 else c0))) U).
Proof.
  unfold CU_Gate.
  replace (get_bra [AInt 0] "") with (Ok zero_bra) by (vm_compute; reflexivity).
  replace (get_ket [AInt 0] "") with (Ok zero_ket) by (vm_compute; reflexivity).
  replace (get_bra [AInt 1] "") with (Ok one_bra) by (vm_compute; reflexivity).
  replace (get_ket [AInt 1] "") with (Ok one_ket) by (vm_compute; reflexivity).
  cbn [rbind].
  replace (add (kron (kron zero_bra zero_ket) (kron zero_bra zero_ket))
               (kron (kron zero_bra zero_ket) (kron one_bra one_ket)))
    with (Ok (Arr2 (mk_mat 4 4 (fun i j => if Nat.eqb i j && Nat.ltb i 2
                                           then c1 else c0))))
    by (vm_compute; reflexivity).
  cbn [rbind].
  replace (kron one_bra one_ket)
    with (Arr2 (mk_mat 2 2 (fun i j => if Nat.eqb i 1 && Nat.eqb j 1 then c1 else c0)))
    by (vm_compute; reflexivity).
  reflexivity.
Qed.

(** X13: for a 2 x 2 array [U] of numbers in lowest terms, [CU_Gate(U)] is
    the 4 x 4 block matrix with the identity in its upper left block, [U]
    in its lower right block and zeros elsewhere: [U] is applied to the
    second qubit exactly when the first one is 1. *)
Theorem CU_Gate_is_block_diagonal (u : list (list cnum)) :
  wf 2 2 u -> canon_array (Arr2 u) ->
  CU_Gate (Arr2 u) = Ok (controlled u).
Proof.
  intros Hwf Hcanon. rewrite CU_Gate_unfold.
  rewrite (wf_as_mk_mat 2 2 u Hwf) at 1.
  cbn [kron]. rewrite kron2_mk_mat.
  change (2 * 2)%nat with 4%nat. rewrite add_mk_mat by lia.
  unfold controlled. f_equal. f_equal. apply mk_mat_ext. intros i j Hi Hj.
  assert (Hc : forall a b, cnorm (get u a b) = get u a b)
    by (intros a b; apply (canon_get u a b Hcanon)).
  destruct i as [|[|[|[|i]]]]; try lia;
    destruct j as [|[|[|[|j]]]]; try lia;
    cbn [Nat.eqb Nat.ltb Nat.leb andb Nat.div Nat.modulo Nat.divmod fst snd Nat.sub];
    rewrite ?cmul_c0_l, ?cmul_c1_l, ?cadd_c0_l, ?cadd_c0_r, ?cnorm_idem, ?Hc;
    reflexivity.
Qed.

Lemma CU_Gate_is_block_diagonal_witness :
  CU_Gate (Arr2 [[c0; copp cj]; [cj; c0]])
  = Ok (controlled [[c0; copp cj]; [cj; c0]]).
Proof.
  apply (CU_Gate_is_block_diagonal [[c0; copp cj]; [cj; c0]]).
  - split; [reflexivity | repeat constructor].
  - repeat constructor.
Defined.

Lemma add_shape_mismatch (r c r' c' : nat) (f g : nat -> nat -> cnum) :
  (0 < r)%nat -> (r <> r' \/ c <> c') ->
  add (Arr2 (mk_mat r c f)) (Arr2 (mk_mat r' c' g)) = Raise ValueError.
Proof.
  intros Hr Hne. unfold add, elementwise.
  rewrite (shape_mk_mat r c f Hr).
  destruct r' as [|r'].
  - unfold shape_eqb. cbn [mk_mat seq map shape nrows ncols List.length hd].
    destruct (list_eq_dec Nat.eq_dec [r; c] [0%nat; 0%nat]) as [E|]; [|reflexivity].
    injection E as E1 E2. lia.
  - rewrite (shape_mk_mat (S r') c' g) by lia. unfold shape_eqb.
    destruct (list_eq_dec Nat.eq_dec [r; c] [S r'; c']) as [E|]; [|reflexivity].
    injection E as E1 E2. lia.
Qed.

(** X14: [CU_Gate] accepts 2 x 2 arrays only: for a 1-D array, and for a
    rectangular 2-D array of any other shape, the final sum of a 4 x 4
    array and the Kronecker product with [U] raises [ValueError]. *)
Theorem CU_Gate_rejects_other_shapes (r c : nat) (u : list (list cnum)) (v : list cnum) :
  wf r c u -> r <> 2%nat \/ c <> 2%nat ->
  CU_Gate (Arr2 u) = Raise ValueError /\ CU_Gate (Arr1 v) = Raise ValueError.
Proof.
  intros Hwf Hne. split.
  - rewrite CU_Gate_unfold. rewrite (wf_as_mk_mat r c u Hwf).
    cbn [kron]. rewrite kron2_mk_mat.
    apply add_shape_mismatch; lia.
  - rewrite CU_Gate_unfold. cbn [kron].
    assert (E : [v] = mk_mat 1 (length v) (fun _ j => nth j v c0)).
    { unfold mk_mat. cbn [seq map]. f_equal. apply list_as_map_seq. }
    rewrite E, kron2_mk_mat.
    apply add_shape_mismatch; lia.
Qed.

Lemma CU_Gate_rejects_other_shapes_witness :
  CU_Gate (identity 4) = Raise ValueError /\ CU_Gate (Arr1 [c1; c0]) = Raise ValueError.
Proof.
  apply (CU_Gate_rejects_other_shapes 4 4 (identity_rows 4) [c1; c0]).
  - apply wf_mk_mat.
  - left. lia.
Defined.

(** ** The applied swap gate *)

(** The loop reads [args[argv]] and [args[argv + 1]] only. *)
Lemma swap_loop_reads (args args' : list Z) (idx : list nat)
  (sgm : list (list cnum)) (swapped : ndarray) :
  (forall i, In i idx ->
     nth_error args i = nth_error args' i
     /\ nth_error args (i + 1) = nth_error args' (i + 1)) ->
  swap_loop args idx sgm swapped = swap_loop args' idx sgm swapped.
Proof.
  revert sgm swapped. induction idx as [|i idx IH]; intros sgm swapped H.
  - reflexivity.
  - cbn [swap_loop]. unfold arg_at.
    destruct (H i (or_introl eq_refl)) as [-> ->].
    assert (IH' : forall m s, swap_loop args idx m s = swap_loop args' idx m s).
    { intros m s. apply IH. intros k Hk. apply H. right. exact Hk. }
    destruct (nth_error args' i) as [q0|]; cbn [rbind]; [|reflexivity].
    destruct (nth_error args' (i + 1)) as [q1|]; cbn [rbind]; [|reflexivity].
    destruct (getitem sgm (q0 * 2 + 1) (q0 * 2 + 1)) as [x|]; cbn [rbind];
      [|reflexivity].
    destruct (negb (ceqb x c0)); [|apply IH'].
    destruct (getitem sgm (q1 * 2) (q1 * 2)) as [y|]; cbn [rbind]; [|reflexivity].
    destruct (negb (ceqb y c0)); [|apply IH'].
    destruct (setitem sgm _ _ _) as [m1|]; cbn [rbind]; [|reflexivity].
    destruct (setitem m1 _ _ _) as [m2|]; cbn [rbind]; [|reflexivity].
    destruct (setitem m2 _ _ _) as [m3|]; cbn [rbind]; [|reflexivity].
    destruct (setitem m3 _ _ _) as [m4|]; cbn [rbind]; [|reflexivity].
    destruct (dot swapped m4) as [s|]; cbn [rbind]; [|reflexivity].
    apply IH'.
Qed.

Lemma nth_error_firstn {A : Type} (l : list A) (k i : nat) :
  (i < k)%nat -> nth_error (firstn k l) i = nth_error l i.
Proof.
  revert k i. induction l as [|x l IH]; intros k i Hi.
  - rewrite firstn_nil. reflexivity.
  - destruct k as [|k]; [lia|]. destruct i as [|i]; [reflexivity|].
    cbn [firstn nth_error]. apply IH. lia.
Qed.

(** X15: [applied_swap_gate] pairs its arguments as [(args[0], args[1])],
    [(args[1], args[2])], ... and runs [len(args) / 2] pairs: of [2 * k]
    arguments only the first [k + 1] are read, so two calls that differ in
    the later arguments only give the same result. *)
Theorem applied_swap_gate_reads_first_arguments
  (qubits : ndarray) (args args' : list Z) :
  length args = length args' ->
  firstn (length args / 2 + 1) args = firstn (length args / 2 + 1) args' ->
  applied_swap_gate qubits args = applied_swap_gate qubits args'.
Proof.
  intros Hlen Hfirst. unfold applied_swap_gate.
  destruct qubits as [v | q]; [reflexivity|].
  rewrite <- Hlen.
  destruct (Nat.eqb (length args) 0) eqn:E; [reflexivity|].
  assert (Hloop : forall sw,
             swap_loop args (seq 0 (length args / 2)) (identity_rows (nrows q)) sw
             = swap_loop args' (seq 0 (length args / 2)) (identity_rows (nrows q)) sw).
  { intros sw. apply swap_loop_reads. intros i Hi. apply in_seq in Hi.
    rewrite <- (nth_error_firstn args (length args / 2 + 1) i) by lia.
    rewrite <- (nth_error_firstn args (length args / 2 + 1) (i + 1)) by lia.
    rewrite Hfirst.
    rewrite !nth_error_firstn by lia. auto. }
  destruct (Nat.eqb (ncols q) 1); cbn [rbind].
  - rewrite Hloop. reflexivity.
  - destruct (diag_loop q (seq 0 (nrows q)) (repeat c0 (nrows q))); cbn [rbind];
      [|reflexivity].
    rewrite Hloop. reflexivity.
Qed.

Lemma applied_swap_gate_reads_first_arguments_witness :
  applied_swap_gate (identity 16) [0; 1; 2; 3]
  = applied_swap_gate (identity 16) [0; 1; 2; 7].
Proof.
  apply (applied_swap_gate_reads_first_arguments (identity 16)
           [0; 1; 2; 3] [0; 1; 2; 7]); reflexivity.
Defined.

(** One pair in range: the identity matrix is turned into the permutation
    matrix that exchanges the positions [2 * q0 + 1] and [2 * q1], and the
    state is multiplied by it. *)
Lemma swap_loop_one_pair (n : nat) (q0 q1 : Z) (swapped : ndarray) :
  0 <= q0 * 2 + 1 < Z.of_nat n -> 0 <= q1 * 2 < Z.of_nat n ->
  swap_loop [q0; q1] [0%nat] (identity_rows n) swapped
  = dot swapped
      (rows2 (transposition n (Z.to_nat (q0 * 2 + 1)) (Z.to_nat (q1 * 2)))).
Proof.
  intros H0 H1.
  pose proof (py_index_ok n _ H0) as Ea. pose proof (py_index_ok n _ H1) as Eb.
  set (a := Z.to_nat (q0 * 2 + 1)) in *. set (b := Z.to_nat (q1 * 2)) in *.
  assert (Ha : (a < n)%nat) by lia. assert (Hb : (b < n)%nat) by lia.
  assert (Hab : a <> b) by lia.
  cbn [swap_loop arg_at nth_error Nat.add rbind]. unfold identity_rows.
  rewrite (getitem_mk_mat n n _ _ _ a a Ea Ea Ha Ha). cbn [rbind].
  rewrite Nat.eqb_refl. change (negb (ceqb c1 c0)) with true. cbv iota.
  rewrite (getitem_mk_mat n n _ _ _ b b Eb Eb Hb Hb). cbn [rbind].
  rewrite Nat.eqb_refl. change (negb (ceqb c1 c0)) with true. cbv iota.
  rewrite (setitem_mk_mat n n _ _ _ a a _ Ea Ea Ha Ha). cbn [rbind].
  rewrite (setitem_mk_mat n n _ _ _ b b _ Eb Eb Hb Hb). cbn [rbind].
  rewrite (setitem_mk_mat n n _ _ _ a b _ Ea Eb Ha Hb). cbn [rbind].
  rewrite (setitem_mk_mat n n _ _ _ b a _ Eb Ea Hb Ha). cbn [rbind].
  cbn [transposition rows2].
  match goal with
  | |- (s <- dot swapped ?m ;; Ok s) = dot swapped ?m' =>
      assert (Em : m = m')
  end.
  { apply mk_mat_ext. intros x y _ _. repeat nat_split; reflexivity. }
  rewrite Em. destruct (dot swapped _); reflexivity.
Qed.

Lemma dot_vm_transposition (n a b : nat) (w : nat -> cnum) :
  (a < n)%nat -> (b < n)%nat -> a <> b ->
  dot_vm (map w (seq 0 n)) (rows2 (transposition n a b))
  = Ok (map (fun r => cnorm (w (exchange a b r))) (seq 0 n)).
Proof.
  intros Ha Hb Hab. cbn [transposition rows2]. unfold dot_vm.
  rewrite length_map, length_seq, nrows_mk_mat, Nat.eqb_refl.
  rewrite ncols_mk_mat by lia. rewrite transpose_rows_mk_mat.
  f_equal. unfold mk_mat. rewrite map_map.
  apply map_ext_in. intros i Hi. apply in_seq in Hi.
  unfold inner. rewrite zip_with_maps.
  rewrite (sum_single _ (exchange a b i) n).
  - unfold exchange. repeat nat_split; rewrite cmul_c1_r; apply cnorm_idem.
  - unfold exchange. repeat nat_split; lia.
  - intros j Hj Hne. unfold exchange in Hne. revert Hne.
    repeat nat_split; intros Hne; try (exfalso; lia); apply cmul_c0_r.
Qed.

Lemma diag_loop_seq (n : nat) (q : list (list cnum)) (len a : nat) (u : nat -> cnum) :
  wf n n q -> (a + len <= n)%nat ->
  diag_loop q (seq a len) (map u (seq 0 n))
  = Ok (map (fun r => if Nat.leb a r && Nat.ltb r (a + len)
                      then cadd (u r) (get q r r) else u r) (seq 0 n)).
Proof.
  intros Hq. revert a u. induction len as [|len IH]; intros a u Hlen.
  - cbn [seq diag_loop]. f_equal. apply map_ext. intros r.
    repeat nat_split; reflexivity.
  - cbn [seq diag_loop].
    rewrite (getitem_ok n n q _ _ Hq) by lia. cbn [rbind].
    rewrite Nat2Z.id, nth_map_seq by lia.
    rewrite upd_map_seq by lia. rewrite IH by lia.
    f_equal. apply map_ext. intros r. cbn [Nat.add].
    repeat nat_split; try reflexivity; subst; reflexivity.
Qed.

(** X16: on a square matrix of real numbers with more than one column and
    one pair of qubits in range, [applied_swap_gate] keeps the diagonal
    only and exchanges its entries [2 * q0 + 1] and [2 * q1]: the result is
    the diagonal matrix of the diagonal of [qubits] with these two entries
    in each other's place, every other entry being 0. *)
Theorem applied_swap_gate_exchanges_diagonal
  (n : nat) (q : list (list cnum)) (q0 q1 : Z) :
  wf n n q -> Forall (Forall is_real) q ->
  0 <= q0 * 2 + 1 < Z.of_nat n -> 0 <= q1 * 2 < Z.of_nat n ->
  applied_swap_gate (Arr2 q) [q0; q1]
  = Ok (Arr2 (diag_of n (fun r =>
          cnorm (get q (exchange (Z.to_nat (q0 * 2 + 1)) (Z.to_nat (q1 * 2)) r)
                       (exchange (Z.to_nat (q0 * 2 + 1)) (Z.to_nat (q1 * 2)) r))))).
Proof.
  intros Hq _ H0 H1. unfold applied_swap_gate.
  rewrite (wf_ncols n n q Hq) by lia. unfold nrows. rewrite (proj1 Hq).
  destruct (Nat.eqb_spec n 1) as [-> | Hn]; [lia|].
  rewrite (repeat_as_map c0 n 0).
  rewrite (diag_loop_seq n q n 0 (fun _ => c0) Hq) by lia. cbn [rbind].
  change (Nat.eqb (length [q0; q1]) 0) with false. cbv iota.
  change (seq 0 (length [q0; q1] / 2)) with [0%nat].
  rewrite (swap_loop_one_pair n q0 q1 _ H0 H1). cbn [dot].
  rewrite dot_vm_transposition by lia. cbn [rbind diag]. f_equal. f_equal.
  unfold diag1, diag_of. rewrite length_map, length_seq.
  apply mk_mat_ext. intros i j Hi Hj.
  destruct (Nat.eqb i j); [|reflexivity].
  rewrite nth_map_seq by exact Hi.
  set (k := exchange _ _ i).
  assert (Hk : (k < n)%nat) by (unfold k, exchange; repeat nat_split; lia).
  destruct (Nat.ltb_spec k (0 + n)); [|lia]. cbn [Nat.leb andb].
  rewrite cadd_c0_l. apply cnorm_idem.
Qed.

Lemma applied_swap_gate_exchanges_diagonal_witness :
  applied_swap_gate (Arr2 (diag1 [c1; of_Z 2; of_Z 3; c0])) [0; 1]
  = Ok (Arr2 (diag_of 4 (fun r =>
          cnorm (get (diag1 [c1; of_Z 2; of_Z 3; c0])
                   (exchange (Z.to_nat (0 * 2 + 1)) (Z.to_nat (1 * 2)) r)
                   (exchange (Z.to_nat (0 * 2 + 1)) (Z.to_nat (1 * 2)) r))))).
Proof.
  apply (applied_swap_gate_exchanges_diagonal 4
           (diag1 [c1; of_Z 2; of_Z 3; c0]) 0 1).
  - apply wf_mk_mat.
  - repeat (apply Forall_cons;
            [repeat (apply Forall_cons; [split; reflexivity|]); apply Forall_nil|]).
    apply Forall_nil.
  - lia.
  - lia.
Defined.

Lemma swap_gate_rows_mk_mat :
  rows2 swap_gate = mk_mat 4 4 (get (rows2 swap_gate)).
Proof. reflexivity. Qed.

(** X17: on a column vector (an array with a single column)
    [applied_swap_gate] cannot swap: without arguments, and with a pair of
    qubits in range, the product [np.dot(vector, gate)] of an [n] x 1 array
    with a square gate raises [ValueError]. *)
Theorem applied_swap_gate_on_column_raises
  (n : nat) (q : list (list cnum)) (q0 q1 : Z) :
  wf n 1 q ->
  0 <= q0 * 2 + 1 < Z.of_nat n -> 0 <= q1 * 2 < Z.of_nat n ->
  applied_swap_gate (Arr2 q) [q0; q1] = Raise ValueError
  /\ applied_swap_gate (Arr2 q) [] = Raise ValueError.
Proof.
  intros Hq H0 H1. unfold applied_swap_gate.
  assert (Hn : nrows q = n) by exact (proj1 Hq).
  rewrite (wf_ncols n 1 q Hq) by lia. cbv zeta. rewrite !Hn.
  cbn [Nat.eqb rbind List.length]. split.
  - change (seq 0 (2 / 2)) with [0%nat].
    rewrite (swap_loop_one_pair n q0 q1 _ H0 H1).
    cbn [dot transposition rows2]. unfold dot_mm.
    rewrite (wf_ncols n 1 q Hq) by lia. rewrite nrows_mk_mat.
    destruct (Nat.eqb_spec 1 n); [lia | reflexivity].
  - rewrite swap_gate_rows_mk_mat. unfold identity_rows.
    rewrite kron2_mk_mat. cbn [dot]. unfold dot_mm.
    rewrite (wf_ncols n 1 q Hq) by lia. rewrite nrows_mk_mat.
    destruct (Nat.eqb_spec 1 (4 * (n / nrows (mk_mat 4 4 (get (rows2 swap_gate))))));
      [lia | reflexivity].
Qed.

Lemma applied_swap_gate_on_column_raises_witness :
  applied_swap_gate (Arr2 [[c1]; [c0]; [c0]; [c0]]) [0; 1] = Raise ValueError
  /\ applied_swap_gate (Arr2 [[c1]; [c0]; [c0]; [c0]]) [] = Raise ValueError.
Proof.
  apply (applied_swap_gate_on_column_raises 4 [[c1]; [c0]; [c0]; [c0]] 0 1).
  - split; [reflexivity | repeat constructor].
  - lia.
  - lia.
Defined.

(** ** What the modular-multiplication gates compute *)

Lemma qeq_int (a : Z) (q : Q) (k : Z) :
  (q == inject_Z k)%Q -> Qeq_bool (inject_Z a) q = (a =? k).
Proof.
  intros Hq.
  destruct (Z.eqb_spec a k) as [-> | Hne].
  - apply Qeq_bool_iff. symmetry. exact Hq.
  - destruct (Qeq_bool (inject_Z a) q) eqn:E; [|reflexivity].
    apply Qeq_bool_iff in E. rewrite Hq in E.
    unfold Qeq, inject_Z in E. cbn [Qnum Qden] in E. lia.
Qed.

Lemma in_nums_ints (a : Z) (qs : list Q) (ks : list Z) :
  Forall2 (fun q k => (q == inject_Z k)%Q) qs ks ->
  in_nums a qs = in_ints a ks.
Proof.
  intros H. unfold in_nums, in_ints.
  induction H as [|q k qs ks Hq _ IH]; cbn [existsb]; [reflexivity|].
  rewrite (qeq_int a q k Hq), IH. reflexivity.
Qed.

Lemma c_amodb_step_15 (a : Z) (m : ndarray) (n : nat) :
  c_amodb_step a 15 m n = c_amod15_step a m n.
Proof.
  unfold c_amodb_step, c_amod15_step.
  change (15 - 2) with 13. change (15 - 4) with 11.
  rewrite (in_nums_ints a [half_below 15; (half_below 15 + 1)%Q] [7; 8])
    by (repeat constructor).
  rewrite (in_nums_ints a [half_below 15; inject_Z 11; inject_Z 13] [7; 11; 13])
    by (repeat constructor).
  reflexivity.
Qed.

Lemma repeat_step_ext (s1 s2 : ndarray -> W ndarray) (power : nat) :
  (forall m n, s1 m n = s2 m n) ->
  forall m n, repeat_step s1 power m n = repeat_step s2 power m n.
Proof.
  intros H. induction power as [|p IH]; intros m n; cbn [repeat_step].
  - reflexivity.
  - unfold wbind. rewrite H. destruct (s2 m n) as [[m' | e] n']; [apply IH | reflexivity].
Qed.

(** X18: at the modulus 15 the general gate is the special one:
    [c_amodb(a, power, 15)] does what [c_amod15(a, power)] does, for every
    [a] and [power]: the same exception or the same array, after the same
    matrix operations. *)
Theorem c_amodb_at_15_is_c_amod15 (a power : Z) (n0 : nat) :
  c_amodb a power 15 n0 = c_amod15 a power n0.
Proof.
  unfold c_amodb, c_amod15.
  change (15 - 2) with 13. change (15 - 4) with 11.
  rewrite (in_nums_ints a
             [inject_Z 2; half_below 15; (half_below 15 + 1)%Q; inject_Z 11; inject_Z 13]
             [2; 7; 8; 11; 13]) by (repeat constructor).
  destruct (negb (in_ints a [2; 7; 8; 11; 13])); [reflexivity|].
  unfold wbind. destruct (work (qcm.get_qubit_matrix 4 []) n0) as [[m | e] n'];
    [|reflexivity].
  apply repeat_step_ext. intros m' n. apply c_amodb_step_15.
Qed.

Lemma repeat_step_fixed (step : ndarray -> W ndarray) (m : ndarray) :
  (forall n, fst (step m n) = Ok m) ->
  forall power n, fst (repeat_step step power m n) = Ok m.
Proof.
  intros H. induction power as [|p IH]; intros n; cbn [repeat_step].
  - reflexivity.
  - unfold wbind. specialize (H n).
    destruct (step m n) as [[m' | e] n']; cbn [fst] in H.
    + injection H as ->. apply IH.
    + discriminate.
Qed.

Lemma initial_register_value :
  qcm.get_qubit_matrix 4 [] = Ok (Arr2 (diag_of 16 (indicator [0%nat]))).
Proof. vm_compute. reflexivity. Qed.

Lemma c_amod15_step_keeps_initial (a : Z) (n : nat) :
  a = 2 \/ a = 8 ->
  fst (c_amod15_step a (Arr2 (diag_of 16 (indicator [0%nat]))) n)
  = Ok (Arr2 (diag_of 16 (indicator [0%nat]))).
Proof.
  intros [-> | ->]; vm_compute; reflexivity.
Qed.

(** X19: for [a] = 2 and [a] = 8, which apply swaps only, [c_amod15]
    returns the initial register [get_qubit_matrix(4)] unchanged for every
    [power]: the swaps exchange diagonal entries at positions 1 to 6, and
    the only 1 of the register stands at position 0. *)
Theorem c_amod15_swaps_leave_register (a power : Z) (n0 : nat) :
  a = 2 \/ a = 8 ->
  fst (c_amod15 a power n0) = qcm.get_qubit_matrix 4 [].
Proof.
  intros Ha. unfold c_amod15.
  replace (negb (in_ints a [2; 7; 8; 11; 13])) with false
    by (destruct Ha as [-> | ->]; reflexivity).
  unfold wbind, work. rewrite initial_register_value.
  apply repeat_step_fixed. intros n. apply c_amod15_step_keeps_initial. exact Ha.
Qed.

Lemma c_amod15_swaps_leave_register_witness :
  fst (c_amod15 8 5 0%nat) = qcm.get_qubit_matrix 4 [].
Proof.
  apply (c_amod15_swaps_leave_register 8 5 0%nat). right. reflexivity.
Defined.

Lemma c_amod15_step_X (a : Z) (n : nat) :
  a = 7 \/ a = 11 \/ a = 13 ->
  fst (c_amod15_step a (Arr2 (diag_of 16 (indicator [0%nat]))) n)
  = Ok (Arr2 (mk_mat 16 16 (fun i j => if Nat.eqb i 8 && Nat.eqb j 0 then c1 else c0)))
  /\ fst (c_amod15_step a
            (Arr2 (mk_mat 16 16 (fun i j => if Nat.eqb i 8 && Nat.eqb j 0
                                            then c1 else c0))) n)
     = Ok (Arr2 (zeros2 16 16))
  /\ fst (c_amod15_step a (Arr2 (zeros2 16 16)) n) = Ok (Arr2 (zeros2 16 16)).
Proof.
  intros [-> | [-> | ->]]; repeat split; vm_compute; reflexivity.
Qed.

(** X20: for [a] = 7, 11 and 13, which multiply by the Pauli-X gate on
    the left after the swaps, [c_amod15] returns the zero matrix for every
    [power] of at least 2: the first pass moves the only 1 of the register
    off the diagonal, and the swaps of the next pass keep the diagonal
    only. *)
Theorem c_amod15_with_X_vanishes (a power : Z) (n0 : nat) :
  a = 7 \/ a = 11 \/ a = 13 -> 2 <= power ->
  fst (c_amod15 a power n0) = Ok (Arr2 (zeros2 16 16)).
Proof.
  intros Ha Hp. unfold c_amod15.
  replace (negb (in_ints a [2; 7; 8; 11; 13])) with false
    by (destruct Ha as [-> | [-> | ->]]; reflexivity).
  unfold wbind at 1. unfold work. rewrite initial_register_value.
  destruct (Z.to_nat power) as [|[|p]] eqn:E; try lia.
  cbn [repeat_step]. unfold wbind.
  pose proof (fun n => proj1 (c_amod15_step_X a n Ha)) as H1.
  pose proof (fun n => proj1 (proj2 (c_amod15_step_X a n Ha))) as H2.
  pose proof (fun n => proj2 (proj2 (c_amod15_step_X a n Ha))) as H3.
  specialize (H1 (S n0)).
  destruct (c_amod15_step a _ (S n0)) as [[m1 | e1] n1]; cbn [fst] in H1;
    [injection H1 as -> | discriminate].
  specialize (H2 n1).
  destruct (c_amod15_step a _ n1) as [[m2 | e2] n2]; cbn [fst] in H2;
    [injection H2 as -> | discriminate].
  apply repeat_step_fixed. exact H3.
Qed.

Lemma c_amod15_with_X_vanishes_witness :
  fst (c_amod15 7 2 0%nat) = Ok (Arr2 (zeros2 16 16)).
Proof.
  apply (c_amod15_with_X_vanishes 7 2 0%nat); [left; reflexivity | lia].
Defined.

(** ** The factors the orchestrator returns *)



Section PositiveFactors.

Variable func : Z -> Z -> result Z.
Variable quick_compute : bool.







End PositiveFactors.







(** *** Inputs that need no period *)

Lemma sorted_of_Sorted (l : list Z) : Sorted Z.le l -> sorted l = l.
Proof.
  intros H. induction H as [|x l Hl IH Hhd]; cbn [sorted]; [reflexivity|].
  rewrite IH. destruct Hhd as [|y t Hxy]; cbn [insert_sorted]; [reflexivity|].
  destruct (Z.leb_spec x y); [reflexivity | lia].
Qed.

Lemma filter_no_ones (l : list Z) :
  Forall (fun x => 1 < x) l -> filter (fun x => negb (x =? 1)) (l ++ [1]) = l.
Proof.
  intros H. induction H as [|x l Hx _ IH]; cbn [app filter].
  - reflexivity.
  - destruct (Z.eqb_spec x 1); [lia|]. cbn [negb]. rewrite IH. reflexivity.
Qed.

(** The stripping loop moves a power of [d] to the factor list. *)
Lemma strip_power (d : Z) (a fuel : nat) (m : Z) (l : list Z) (k : nat) :
  2 <= d -> m mod d <> 0 -> (a < fuel)%nat ->
  strip fuel d (mkAcc (d ^ Z.of_nat a * m) l k) = Some (mkAcc m (l ++ repeat d a) k).
Proof.
  intros Hd Hm. revert fuel l. induction a as [|a IH]; intros fuel l Hf.
  - destruct fuel as [|fuel]; [lia|]. cbn [strip num factorization passes].
    change (d ^ Z.of_nat 0) with 1. rewrite Z.mul_1_l.
    destruct (Z.eqb_spec (m mod d) 0); [contradiction|].
    cbn [repeat]. rewrite app_nil_r. reflexivity.
  - destruct fuel as [|fuel]; [lia|]. cbn [strip num factorization passes].
    rewrite Nat2Z.inj_succ, Z.pow_succ_r by lia.
    replace (d * d ^ Z.of_nat a * m) with (d ^ Z.of_nat a * m * d) by ring.
    rewrite Z.mod_mul, Z.div_mul by lia. cbn [Z.eqb].
    rewrite IH by lia. cbn [repeat]. rewrite <- app_assoc. reflexivity.
Qed.

Lemma Sorted_twos_fives (a b : nat) : Sorted Z.le (repeat 2 a ++ repeat 5 b).
Proof.
  induction a as [|a IH]; cbn [repeat app].
  - induction b as [|b IHb]; cbn [repeat]; [constructor|].
    constructor; [exact IHb|]. destruct b; cbn [repeat]; constructor; lia.
  - constructor; [exact IH|].
    destruct a; cbn [repeat app]; [|constructor; lia].
    destruct b; cbn [repeat]; constructor; lia.
Qed.

Lemma above_one_twos_fives (a b : nat) :
  Forall (fun x => 1 < x) (repeat 2 a ++ repeat 5 b).
Proof.
  apply Forall_app. split; apply Forall_forall; intros x Hx;
    apply repeat_spec in Hx; lia.
Qed.

Lemma pow5_mod2 (b : nat) : 5 ^ Z.of_nat b mod 2 <> 0.
Proof.
  induction b as [|b IH]; [discriminate|].
  rewrite Nat2Z.inj_succ, Z.pow_succ_r by lia.
  rewrite Z.mul_mod by lia.
  assert (H : 5 ^ Z.of_nat b mod 2 = 1)
    by (pose proof (Z.mod_pos_bound (5 ^ Z.of_nat b) 2 ltac:(lia)); lia).
  rewrite H. discriminate.
Qed.

(** X23: a number with no prime factor besides 2 and 5 is factored by the
    two stripping loops alone: for [num = 2**a * 5**b] below [2**53], where
    the float cofactor is exact, the call returns [a] twos followed by [b]
    fives, for every [limit] (0 included), every period function and all
    draws; the period function is never called. *)
Theorem shor_factors_powers_of_2_and_5
  (func : Z -> Z -> result Z) (quick_compute : bool) (fuel : nat)
  (rnd : nat -> Z) (a b : nat) (limit : nat) :
  2 ^ Z.of_nat a * 5 ^ Z.of_nat b < 2 ^ 53 -> (a < fuel)%nat -> (b < fuel)%nat ->
  ShorFactoringAlgorithmClassical func quick_compute fuel rnd
    (2 ^ Z.of_nat a * 5 ^ Z.of_nat b) limit
  = Some (Ok (repeat 2 a ++ repeat 5 b)).
Proof.
  intros _ Ha Hb. unfold ShorFactoringAlgorithmClassical, run.
  rewrite (strip_power 2 a fuel (5 ^ Z.of_nat b) [] 0 ltac:(lia) (pow5_mod2 b) Ha).
  cbn [app].
  replace (5 ^ Z.of_nat b) with (5 ^ Z.of_nat b * 1) by ring.
  rewrite (strip_power 5 b fuel 1 (repeat 2 a) 0 ltac:(lia) ltac:(discriminate) Hb).
  cbn [option_map]. f_equal.
  assert (Hfin : sorted (filter (fun x => negb (x =? 1))
                           ((repeat 2 a ++ repeat 5 b) ++ [1]))
                 = repeat 2 a ++ repeat 5 b).
  { rewrite filter_no_ones by apply above_one_twos_fives.
    apply sorted_of_Sorted, Sorted_twos_fives. }
  unfold after_strip, mbind. destruct limit as [|limit]; cbn [main_loop].
  - unfold mret, get_num, append. rewrite finish_spec.
    cbn [num factorization passes fst]. rewrite Hfin. reflexivity.
  - unfold mbind, pass, mbind, start_pass, get_num, append, mret.
    cbn [num factorization passes]. change (1 =? 1) with true. cbv iota beta.
    rewrite finish_spec.
    cbn [num factorization passes fst]. rewrite Hfin. reflexivity.
Qed.

Lemma shor_factors_powers_of_2_and_5_witness :
  ShorFactoringAlgorithmClassical FactorFuncs.period false 4 (fun _ => 0)
    (2 ^ Z.of_nat 3 * 5 ^ Z.of_nat 2) 0
  = Some (Ok (repeat 2 3 ++ repeat 5 2)).
Proof.
  apply (shor_factors_powers_of_2_and_5 FactorFuncs.period false 4 (fun _ => 0) 3 2 0);
    [reflexivity | lia | lia].
Defined.

Lemma square_mod5 (k : Z) : k mod 5 <> 0 -> (k * k) mod 5 <> 0.
Proof.
  intros Hk. rewrite Z.mul_mod by lia.
  pose proof (Z.mod_pos_bound k 5 ltac:(lia)) as Hb.
  assert (H : k mod 5 = 1 \/ k mod 5 = 2 \/ k mod 5 = 3 \/ k mod 5 = 4) by lia.
  destruct H as [-> | [-> | [-> | ->]]]; discriminate.
Qed.

(** X24: the square shortcut returns the root twice and does not factor
    it: for an odd [k > 1] that 5 does not divide, with [k * k] below
    [2**53] and at least one pass allowed, the call on [k * k] returns
    [[k, k]] whether [k] is prime or not, for every period function and
    all draws; the period function is never called. *)
Theorem shor_square_returns_root_twice
  (func : Z -> Z -> result Z) (quick_compute : bool) (fuel : nat)
  (rnd : nat -> Z) (k : Z) (limit : nat) :
  1 < k -> Z.odd k = true -> k mod 5 <> 0 -> k * k < 2 ^ 53 ->
  (1 <= fuel)%nat -> (1 <= limit)%nat ->
  ShorFactoringAlgorithmClassical func quick_compute fuel rnd (k * k) limit
  = Some (Ok [k; k]).
Proof.
  intros Hk Hodd H5 _ Hfuel Hlimit.
  destruct fuel as [|fuel]; [lia|]. destruct limit as [|limit]; [lia|].
  unfold ShorFactoringAlgorithmClassical, run. cbn [strip num factorization passes].
  assert (H2 : (k * k) mod 2 <> 0).
  { rewrite Zmod_odd, Z.odd_mul, Hodd. discriminate. }
  destruct (Z.eqb_spec ((k * k) mod 2) 0); [contradiction|].
  cbn [strip num factorization passes].
  destruct (Z.eqb_spec ((k * k) mod 5) 0) as [E | _];
    [exact (False_ind _ (square_mod5 k H5 E))|].
  cbn [option_map]. f_equal.
  unfold after_strip, mbind. cbn [main_loop].
  unfold mbind, pass, mbind, start_pass, get_num, append, div_num, mret.
  cbn [num factorization passes].
  destruct (Z.eqb_spec (k * k) 1); [nia|].
  unfold FactorFuncs.isqrt. rewrite Z.sqrt_square by lia.
  rewrite Z.pow_2_r, Z.eqb_refl.
  rewrite finish_spec. cbn [num factorization passes fst app].
  rewrite !Z.sqrt_square by lia. rewrite Z.pow_2_r, Z.div_same by nia.
  cbn [filter]. destruct (Z.eqb_spec k 1); [lia|].
  change (1 =? 1) with true. cbn [negb].
  cbn [sorted insert_sorted]. rewrite Z.leb_refl. reflexivity.
Qed.

Lemma shor_square_returns_root_twice_witness :
  ShorFactoringAlgorithmClassical FactorFuncs.period false 1 (fun _ => 0) (9 * 9) 1
  = Some (Ok [9; 9]).
Proof.
  apply (shor_square_returns_root_twice FactorFuncs.period false 1 (fun _ => 0) 9 1);
    try lia; try reflexivity.
  discriminate.
Defined.

(** ** Hadamard states *)

Lemma fill_ones_seq (N len a : nat) (g : nat -> cnum) :
  (a + len <= N)%nat ->
  fill_ones (diag_of N g) (seq a len)
  = Ok (diag_of N (fun r => if Nat.leb a r && Nat.ltb r (a + len)
                            then cadd (g r) c1 else g r)).
Proof.
  revert a g. induction len as [|len IH]; intros a g Hlen.
  - cbn [seq fill_ones]. f_equal. apply diag_of_ext. intros r _.
    repeat nat_split; reflexivity.
  - cbn [seq fill_ones].
    rewrite setitem_diag_of, py_index_nat by lia. cbn [rbind].
    rewrite IH by lia. f_equal. apply diag_of_ext. intros r _.
    repeat nat_split; try reflexivity; subst; reflexivity.
Qed.

(** The sign of an entry after the flips at [ks], starting from [x]. *)
Lemma flip_signs_indices (N : nat) (args : list Z) (g : nat -> cnum) :
  flip_signs (diag_of N g) args
  = (ks <- indices N (map (fun a => a * 2 + 1) args) ;;
     Ok (diag_of N (fun r =>
           fold_left (fun x k => if Nat.eqb r k then cmul x (of_Z (-1)) else x)
             ks (g r)))).
Proof.
  revert g. induction args as [|a args IH]; intros g;
    cbn [flip_signs map indices rbind].
  - reflexivity.
  - rewrite setitem_diag_of.
    destruct (py_index N (a * 2 + 1)) as [k|e]; cbn [rbind]; [|reflexivity].
    rewrite IH.
    destruct (indices N (map (fun a => a * 2 + 1) args)) as [ks|e]; cbn [rbind];
      [|reflexivity].
    f_equal. apply diag_of_ext. intros r _. cbn [fold_left].
    destruct (Nat.eqb_spec r k) as [-> | Hne]; reflexivity.
Qed.

Lemma flips_parity (ks : list nat) (r : nat) (b : bool) :
  fold_left (fun x k => if Nat.eqb r k then cmul x (of_Z (-1)) else x) ks
    (if b then c1 else of_Z (-1))
  = if Bool.eqb b (Nat.even (count_occ Nat.eq_dec ks r)) then c1 else of_Z (-1).
Proof.
  revert b. induction ks as [|k ks IH]; intros b; cbn [fold_left count_occ].
  - destruct b; reflexivity.
  - destruct (Nat.eq_dec k r) as [-> | Hne].
    + rewrite Nat.eqb_refl.
      replace (cmul (if b then c1 else of_Z (-1)) (of_Z (-1)))
        with (if negb b then c1 else of_Z (-1)) by (destruct b; reflexivity).
      rewrite IH, Nat.even_succ, <- Nat.negb_even.
      destruct b, (Nat.even (count_occ Nat.eq_dec ks r)); reflexivity.
    + destruct (Nat.eqb_spec r k); [congruence|]. apply IH.
Qed.

Lemma div_scalar_diag_of (N : nat) (g : nat -> cnum) :
  div_scalar (Arr2 (diag_of N g)) sqrt2
  = Arr2 (diag_of N (fun r => cdiv (g r) sqrt2)).
Proof.
  cbn [div_scalar]. unfold diag_of. rewrite map_map_mk_mat. f_equal.
  apply mk_mat_ext. intros i j _ _. destruct (Nat.eqb i j); reflexivity.
Qed.

Lemma get_Hadamard_matrix_indices (n : nat) (args : list Z) :
  get_Hadamard_matrix n args
  = (ks <- indices (2 * n) (map (fun a => a * 2 + 1) args) ;;
     Ok (Arr2 (diag_of (2 * n) (amplitude ks)))).
Proof.
  unfold get_Hadamard_matrix.
  replace (n * 2)%nat with (2 * n)%nat by lia.
  rewrite zeros2_diag_of, fill_ones_seq by lia. cbn [rbind].
  rewrite flip_signs_indices.
  destruct (indices (2 * n) (map (fun a => a * 2 + 1) args)) as [ks|e];
    cbn [rbind]; [|reflexivity].
  rewrite div_scalar_diag_of. f_equal. f_equal. apply diag_of_ext.
  intros r Hr. unfold amplitude. f_equal.
  destruct (Nat.ltb_spec r (0 + 2 * n)); [|lia]. cbn [Nat.leb andb].
  change (cadd c0 c1) with (if true then c1 else of_Z (-1)).
  rewrite flips_parity. destruct (Nat.even _); reflexivity.
Qed.

Lemma canon_amplitude (ks : list nat) (r : nat) : canon (amplitude ks r).
Proof. unfold amplitude, cdiv. apply canon_cmul. Qed.

(** X25: with at least one qubit, [get_Hadamard_matrix] returns the
    diagonal matrix, and [get_Hadamard_vector] the column, of the
    [2 * numQubits] amplitudes [1 / sqrt 2], the one at position
    [2 * argv + 1] negated once for each time [argv] is among the
    arguments: naming a qubit twice gives back the state without it.  An
    argument whose position is outside the array raises [IndexError]. *)
Theorem get_Hadamard_amplitudes (numQubits : nat) (args : list Z) :
  (0 < numQubits)%nat ->
  get_Hadamard_matrix numQubits args
  = (ks <- indices (2 * numQubits) (map (fun a => a * 2 + 1) args) ;;
     Ok (Arr2 (diag_of (2 * numQubits) (amplitude ks))))
  /\ get_Hadamard_vector numQubits args
     = (ks <- indices (2 * numQubits) (map (fun a => a * 2 + 1) args) ;;
        Ok (Arr2 (col_of (2 * numQubits) (amplitude ks)))).
Proof.
  intros Hn. split; [apply get_Hadamard_matrix_indices|].
  unfold get_Hadamard_vector. rewrite get_Hadamard_matrix_indices.
  destruct (indices (2 * numQubits) (map (fun a => a * 2 + 1) args)) as [ks|e];
    cbn [rbind]; [|reflexivity].
  apply convert_diag_to_col; [lia | intros r _; apply canon_amplitude].
Qed.

Lemma get_Hadamard_amplitudes_witness :
  get_Hadamard_matrix 2 [1; 0; 1]
  = (ks <- indices (2 * 2) (map (fun a => a * 2 + 1) [1; 0; 1]) ;;
     Ok (Arr2 (diag_of (2 * 2) (amplitude ks))))
  /\ get_Hadamard_vector 2 [1; 0; 1]
     = (ks <- indices (2 * 2) (map (fun a => a * 2 + 1) [1; 0; 1]) ;;
        Ok (Arr2 (col_of (2 * 2) (amplitude ks)))).
Proof.
  apply (get_Hadamard_amplitudes 2 [1; 0; 1]). lia.
Defined.
